(** * tmpl.js: the comment-based template engine, embedded and verified

    The development follows [tmpl.js] (class [TemplateParser]) function by
    function.  JavaScript strings are sequences of UTF-16 code units; the
    regular expressions of the source are kept as regular expressions and
    run by a small backtracking matcher with JavaScript's greedy, ordered
    semantics. *)

From Stdlib Require Import String Ascii.
From stdpp Require Import gmap list fin_maps.

Open Scope N_scope.
Open Scope nat_scope.
Open Scope list_scope.

(** ** Strings *)

(** A UTF-16 code unit. *)
Abbreviation char := N (only parsing).
Abbreviation jsstring := (list N) (only parsing).

(** A literal of the source, written as a Rocq string (ASCII only). *)
Definition js (s : string) : jsstring :=
  map N_of_ascii (list_ascii_of_string s).
Global Opaque js.

(** [WhiteSpace] and [LineTerminator] of ECMAScript: what [\s] matches and
    what [String.prototype.trim] strips. *)
Definition is_lt (c : char) : bool :=
  ((c =? 10) || (c =? 13) || (c =? 8232) || (c =? 8233))%N.

Definition is_ws (c : char) : bool :=
  ((c =? 9) || (c =? 11) || (c =? 12) || (c =? 32) || (c =? 160)
   || (c =? 5760) || ((8192 <=? c) && (c <=? 8202)) || (c =? 8239)
   || (c =? 8287) || (c =? 12288) || (c =? 65279))%N
  || is_lt c.

(** [\w]: ASCII letters, digits and underscore. *)
Definition is_word (c : char) : bool :=
  (((97 <=? c) && (c <=? 122)) || ((65 <=? c) && (c <=? 90))
   || ((48 <=? c) && (c <=? 57)) || (c =? 95))%N.

(** [.] (without the [s] flag): anything but a line terminator. *)
Definition is_dot (c : char) : bool := negb (is_lt c).

Fixpoint drop_while {A} (p : A -> bool) (s : list A) : list A :=
  match s with
  | c :: s' => if p c then drop_while p s' else s
  | [] => []
  end.

Fixpoint take_while {A} (p : A -> bool) (s : list A) : list A :=
  match s with
  | c :: s' => if p c then c :: take_while p s' else []
  | [] => []
  end.

(** [s.trim()] *)
Definition trim (s : jsstring) : jsstring :=
  rev (drop_while is_ws (rev (drop_while is_ws s))).

(** [s.startsWith(p)] *)
Fixpoint startsWith (s p : jsstring) {struct p} : bool :=
  match p, s with
  | [], _ => true
  | a :: p', b :: s' => (a =? b)%N && startsWith s' p'
  | _ :: _, [] => false
  end.

(** [s === t] on strings *)
Definition str_eqb (s t : jsstring) : bool := bool_decide (s = t).

(** [s.substring(n)] for [0 <= n] *)
Definition substring (n : nat) (s : jsstring) : jsstring := drop n s.

(** [s.split(/\s+/)]: the pieces between maximal runs of white space; a run
    at either end leaves an empty piece there, as in JavaScript. *)
Fixpoint split_ws_go (s : jsstring) (cur : jsstring) (in_sep : bool)
  : list jsstring :=
  match s with
  | [] => [rev cur]
  | c :: s' =>
      if is_ws c then
        if in_sep then split_ws_go s' cur true
        else rev cur :: split_ws_go s' [] true
      else split_ws_go s' (c :: cur) false
  end.

Definition split_ws (s : jsstring) : list jsstring := split_ws_go s [] false.

(** [content.split(/\r?\n/)] *)
Fixpoint split_lines_go (s : jsstring) (cur : jsstring) : list jsstring :=
  match s with
  | [] => [rev cur]
  | 13%N :: ((10%N :: s') as t) =>
      match t with
      | _ :: s'' => rev cur :: split_lines_go s'' []
      | [] => [rev cur]
      end
  | 10%N :: s' => rev cur :: split_lines_go s' []
  | c :: s' => split_lines_go s' (c :: cur)
  end.

Definition split_lines (s : jsstring) : list jsstring := split_lines_go s [].

(** [lines.join('\n')] *)
Fixpoint join_lines (ls : list jsstring) : jsstring :=
  match ls with
  | [] => []
  | [l] => l
  | l :: ls' => l ++ 10%N :: join_lines ls'
  end.

(** ** Regular expressions

    The fragment the source uses: literals, the classes [\s], [\w] and [.],
    greedy [*] and [+] over a class, sequencing, a greedy optional group,
    capture groups and [$].  Every expression of the source starts with [^]
    and is used without flags, so matching is attempted at position 0 only. *)

Inductive re : Type :=
| Chr (c : char)
| Star (p : char -> bool)
| Plus (p : char -> bool)
| Seq (r1 r2 : re)
| Opt (r : re)
| Grp (n : nat) (r : re)
| Eos.

Declare Scope re_scope.
Delimit Scope re_scope with re.
Infix ">>>" := Seq (at level 62, right associativity) : re_scope.

(** Capture groups, by number; a group that took no part is [None]
    ([undefined] in JavaScript). *)
Definition caps := list (nat * jsstring).

Fixpoint cap (n : nat) (cs : caps) : option jsstring :=
  match cs with
  | [] => None
  | (m, s) :: cs' => if Nat.eqb n m then Some s else cap n cs'
  end.

Section Matcher.
Context {R : Type}.

(** Greedy iteration of a class: the longest run first, then shorter ones. *)
Fixpoint star (p : char -> bool) (s : jsstring) (k : jsstring -> option R)
  : option R :=
  match s with
  | c :: s' =>
      if p c then
        match star p s' k with
        | Some r => Some r
        | None => k s
        end
      else k s
  | [] => k []
  end.

(** Backtracking matcher in continuation-passing style: [k] is the rest
    of the pattern. *)
Fixpoint rmatch (r : re) (s : jsstring) (cs : caps)
  (k : jsstring -> caps -> option R) : option R :=
  match r with
  | Chr c =>
      match s with
      | d :: s' => if (c =? d)%N then k s' cs else None
      | [] => None
      end
  | Star p => star p s (fun s' => k s' cs)
  | Plus p =>
      match s with
      | d :: s' => if p d then star p s' (fun s'' => k s'' cs) else None
      | [] => None
      end
  | Seq r1 r2 => rmatch r1 s cs (fun s' cs' => rmatch r2 s' cs' k)
  | Opt r' =>
      match rmatch r' s cs k with
      | Some x => Some x
      | None => k s cs
      end
  | Grp n r' =>
      rmatch r' s cs
        (fun s' cs' => k s' ((n, take (length s - length s') s) :: cs'))
  | Eos => match s with [] => k [] cs | _ => None end
  end.
End Matcher.

(** [s.match(/^r/)]: the captures of the first (and only possible) match. *)
Definition re_match (r : re) (s : jsstring) : option caps :=
  rmatch r s [] (fun _ cs => Some cs).

(** ** Directives *)

Inductive BlockType := block_default | block_replace | block_append | block.

Global Instance BlockType_eq_dec : EqDecision BlockType.
Proof. solve_decision. Defined.

(** What [parseTemplateLine] returns when it returns an object. *)
Inductive Directive :=
| DBlock (type : BlockType) (blockId : jsstring)
| DEndblock
| DOther (type : jsstring) (args : list jsstring).

(** A computation that may throw, or (for the scanning loop) be cut off. *)
Inductive result (A : Type) :=
| Ok (a : A)
| Throw (message : jsstring)
| OutOfFuel.
Arguments Ok {A} a.
Arguments Throw {A} message.
Arguments OutOfFuel {A}.

Global Instance result_bind : MBind result := fun A B f m =>
  match m with
  | Ok a => f a
  | Throw e => Throw e
  | OutOfFuel => OutOfFuel
  end.

Global Instance result_fmap : FMap result := fun A B f m =>
  match m with
  | Ok a => Ok (f a)
  | Throw e => Throw e
  | OutOfFuel => OutOfFuel
  end.

(** [/^\/\/\s*(@\w+(?:\s+.+)?)\s*$/] *)
Definition directive_re : re :=
  (Chr 47 >>> Chr 47 >>> Star is_ws >>>
   Grp 1 (Chr 64 >>> Plus is_word >>> Opt (Plus is_ws >>> Plus is_dot)) >>>
   Star is_ws >>> Eos)%re.

(** The command and the arguments of a directive line: the first part of
    [parseTemplateLine], up to the [switch]. *)
Definition directive_parts (line : jsstring)
  : option (jsstring * list jsstring) :=
  let trimmed := trim line in
  match re_match directive_re trimmed with
  | None => None
  | Some commentMatch =>
      let directive := trim (default [] (cap 1 commentMatch)) in
      let parts := split_ws directive in
      Some (default [] (head parts), tail parts)
  end.

Definition block_command (command : jsstring) : option BlockType :=
  if str_eqb command (js "@block_default") then Some block_default
  else if str_eqb command (js "@block_replace") then Some block_replace
  else if str_eqb command (js "@block_append") then Some block_append
  else if str_eqb command (js "@block") then Some block
  else None.

Definition parseTemplateLine (line : jsstring) : result (option Directive) :=
  match directive_parts line with
  | None => Ok None
  | Some (command, args) =>
      match block_command command with
      | Some ty =>
          match args with
          | [blockId] => Ok (Some (DBlock ty blockId))
          | _ =>
              Throw (js "Invalid " ++ command
                       ++ js ": expected exactly one identifier")
          end
      | None =>
          if str_eqb command (js "@endblock") then Ok (Some DEndblock)
          else Ok (Some (DOther (substring 1 command) args))
      end
  end.

(** ** Comment prefixes and template content *)

(** The expression of [getCommentIndent]: [^], group 1 = [\s*], [//],
    group 2 = [\s*]. *)
Definition comment_re : re :=
  (Grp 1 (Star is_ws) >>> Chr 47 >>> Chr 47 >>> Grp 2 (Star is_ws))%re.

(** The expression of [contentMatch]: the same, followed by
    group 3 = [.*]. *)
Definition content_re : re :=
  (Grp 1 (Star is_ws) >>> Chr 47 >>> Chr 47 >>> Grp 2 (Star is_ws) >>>
   Grp 3 (Star is_dot))%re.

(** The expression of [indentMatch]: [^], group 1 = [\s*]. *)
Definition indent_re : re := Grp 1 (Star is_ws).

(** A capture group that took part in the match. *)
Definition group (n : nat) (m : caps) : jsstring := default [] (cap n m).

Definition getCommentIndent (line : jsstring) : option jsstring :=
  match re_match comment_re line with
  | None => None
  | Some m => Some (group 1 m ++ js "//" ++ group 2 m)
  end.

(** [if (x)] on a string or [null]: [null] and the empty string are falsy. *)
Definition truthy (x : option jsstring) : bool :=
  match x with
  | Some (_ :: _) => true
  | _ => false
  end.

(** [x.length] where [x] may be [null]. *)
Definition length_of (x : option jsstring) : result nat :=
  match x with
  | Some s => Ok (length s)
  | None => Throw (js "Cannot read properties of null (reading 'length')")
  end.

(** The objects pushed by the loop of [parseTemplateContent] ... *)
Record RawItem := {
  r_indent : jsstring;
  r_commentSpaces : jsstring;
  r_contentText : jsstring;
  r_originalLine : jsstring;
  r_isEmpty : bool
}.

(** ... and what its final [map] makes of them. *)
Record Item := {
  indent : jsstring;
  commentSpaces : jsstring;
  contentText : jsstring;
  originalLine : jsstring;
  isEmpty : bool;
  finalContent : jsstring
}.

Definition with_finalContent (item : RawItem) (fc : jsstring) : Item :=
  {| indent := r_indent item;
     commentSpaces := r_commentSpaces item;
     contentText := r_contentText item;
     originalLine := r_originalLine item;
     isEmpty := r_isEmpty item;
     finalContent := fc |}.

Definition is_blank (s : jsstring) : bool := str_eqb (trim s) [].

(** One iteration of the [while] loop of [parseTemplateContent]: [Some] is
    the new [content] and [templateIndent] (the loop goes on to [i++]),
    [None] is a [break]. *)
Definition content_step (line : jsstring) (baseIndent : option jsstring)
  (content : list RawItem) (templateIndent : option jsstring)
  : result (option (list RawItem * option jsstring)) :=
  let trimmed := trim line in
  if startsWith trimmed (js "//") then
    directive ← parseTemplateLine line;
    match directive with
    | Some _ => Ok None
    | None =>
        let commentIndent := getCommentIndent line in
        if truthy commentIndent then
          let isEmptyComment := str_eqb trimmed (js "//") in
          baseLen ← length_of baseIndent;
          let hasValidIndent :=
            (baseLen <=? length (default [] commentIndent)) || isEmptyComment in
          if hasValidIndent then
            match re_match content_re line with
            | Some contentMatch =>
                let lineIndent := group 1 contentMatch in
                let commentSpaces := group 2 contentMatch in
                let contentText := group 3 contentMatch in
                let templateIndent' :=
                  match templateIndent with
                  | None =>
                      if negb (is_blank contentText) then Some commentSpaces
                      else None
                  | Some t => Some t
                  end in
                Ok (Some (content ++
                            [{| r_indent := lineIndent;
                                r_commentSpaces := commentSpaces;
                                r_contentText := contentText;
                                r_originalLine := line;
                                r_isEmpty := is_blank contentText |}],
                          templateIndent'))
            | None => Ok (Some (content, templateIndent))
            end
          else Ok None
        else Ok None
    end
  else Ok None.

(** The loop, from line [i] on; [rest] is [lines.slice(i)]. *)
Fixpoint content_loop (rest : list jsstring) (i : nat)
  (baseIndent : option jsstring) (content : list RawItem)
  (templateIndent : option jsstring)
  : result (list RawItem * nat * option jsstring) :=
  match rest with
  | [] => Ok (content, i, templateIndent)
  | line :: rest' =>
      r ← content_step line baseIndent content templateIndent;
      match r with
      | None => Ok (content, i, templateIndent)
      | Some (content', templateIndent') =>
          content_loop rest' (S i) baseIndent content' templateIndent'
      end
  end.

(** The callback of [content.map] at the end of [parseTemplateContent]. *)
Definition apply_indent (templateIndent : option jsstring) (item : RawItem)
  : Item :=
  if r_isEmpty item then with_finalContent item []
  else
    match templateIndent with
    | Some t =>
        if startsWith (r_commentSpaces item) t then
          let remainingSpaces := substring (length t) (r_commentSpaces item) in
          with_finalContent item (remainingSpaces ++ r_contentText item)
        else if (length (r_commentSpaces item) <? length t)
                && negb (is_blank (r_contentText item)) then
          with_finalContent item (r_contentText item)
        else if str_eqb (r_commentSpaces item) []
                && negb (is_blank (r_contentText item)) then
          with_finalContent item (r_contentText item)
        else
          with_finalContent item (r_commentSpaces item ++ r_contentText item)
    | None =>
        if str_eqb (r_commentSpaces item) []
           && negb (is_blank (r_contentText item)) then
          with_finalContent item (r_contentText item)
        else
          with_finalContent item (r_commentSpaces item ++ r_contentText item)
    end.

Record ParsedContent := {
  pc_content : list Item;
  pc_nextLine : nat;
  pc_templateIndent : option jsstring
}.

Definition parseTemplateContent (lines : list jsstring) (startIdx : nat)
  (baseIndent : option jsstring) : result ParsedContent :=
  '(content, i, templateIndent) ←
     content_loop (drop startIdx lines) startIdx baseIndent [] None;
  Ok {| pc_content := map (apply_indent templateIndent) content;
        pc_nextLine := i;
        pc_templateIndent := templateIndent |}.

(** ** The parser state: [this.blocks] and [this.files] *)

(** [{ content, filePath, indent }] *)
Record Entry := {
  e_content : list Item;
  e_filePath : jsstring;
  e_indent : option jsstring
}.

(** [{ default, replaces, appends }] *)
Record BlockInfo := {
  bi_default : option Entry;
  replaces : list Entry;
  appends : list Entry
}.

(** [{ type, blockId, startLine, endLine, indent, content }] *)
Record BlockData := {
  b_type : BlockType;
  b_blockId : jsstring;
  startLine : nat;
  endLine : nat;
  b_indent : option jsstring;
  b_content : list Item
}.

(** [{ lines, blocks }] *)
Record FileData := {
  f_lines : list jsstring;
  f_blocks : list BlockData
}.

(** [this.files] is a [Map]: iteration follows insertion order, and setting
    a key that is present keeps its place. *)
Fixpoint files_set (files : list (jsstring * FileData)) (filePath : jsstring)
  (fileData : FileData) : list (jsstring * FileData) :=
  match files with
  | [] => [(filePath, fileData)]
  | (p, d) :: files' =>
      if str_eqb p filePath then (p, fileData) :: files'
      else (p, d) :: files_set files' filePath fileData
  end.

Record Parser := {
  blocks : gmap jsstring BlockInfo;
  files : list (jsstring * FileData)
}.

(** [reset()] *)
Definition reset : Parser := {| blocks := ∅; files := [] |}.

(** ** Pass 1: [parseFile] *)

(** The inner [while] of [parseFile] that looks for [@endblock], from line
    [endLine] on; [rest] is [lines.slice(endLine)]. *)
Fixpoint find_endblock (rest : list jsstring) (endLine : nat) : result nat :=
  match rest with
  | [] => Ok endLine
  | line :: rest' =>
      endDirective ← parseTemplateLine line;
      match endDirective with
      | Some DEndblock => Ok endLine
      | _ => find_endblock rest' (S endLine)
      end
  end.

(** [if (!this.blocks.has(id)) this.blocks.set(id, {...})] *)
Definition ensure_block (blockId : jsstring) (reg : gmap jsstring BlockInfo)
  : gmap jsstring BlockInfo :=
  match reg !! blockId with
  | Some _ => reg
  | None =>
      <[blockId := {| bi_default := None; replaces := []; appends := [] |}]> reg
  end.

Definition set_default (e : Entry) (info : BlockInfo) : BlockInfo :=
  {| bi_default := Some e; replaces := replaces info; appends := appends info |}.

Definition push_replace (e : Entry) (info : BlockInfo) : BlockInfo :=
  {| bi_default := bi_default info; replaces := replaces info ++ [e];
     appends := appends info |}.

Definition push_append (e : Entry) (info : BlockInfo) : BlockInfo :=
  {| bi_default := bi_default info; replaces := replaces info;
     appends := appends info ++ [e] |}.

(** The state of one [parseFile] call: the registry and [fileData.blocks]. *)
Definition ScanState : Type := gmap jsstring BlockInfo * list BlockData.

(** One iteration of the outer [while] of [parseFile], at line [i]: the
    next value of [i] and the new state. *)
Definition scan_step (lines : list jsstring) (filePath : jsstring) (i : nat)
  (line : jsstring) (st : ScanState) : result (nat * ScanState) :=
  let '(reg, fblocks) := st in
  directive ← parseTemplateLine line;
  match directive with
  | Some (DBlock ty blockId) =>
      let baseIndent := getCommentIndent line in
      match ty with
      | block_default | block =>
          endLine ← find_endblock (drop (i + 1) lines) (i + 1);
          content ←
            match ty with
            | block_default =>
                pc ← parseTemplateContent lines (i + 1) baseIndent;
                Ok (pc_content pc)
            | _ => Ok []
            end;
          let blockData :=
            {| b_type := ty; b_blockId := blockId; startLine := i;
               endLine := endLine; b_indent := baseIndent;
               b_content := content |} in
          let reg1 := ensure_block blockId reg in
          let reg2 :=
            match ty with
            | block_default =>
                alter (set_default {| e_content := content;
                                      e_filePath := filePath;
                                      e_indent := baseIndent |}) blockId reg1
            | _ => reg1
            end in
          Ok (endLine + 1, (reg2, fblocks ++ [blockData]))
      | block_replace | block_append =>
          pc ← parseTemplateContent lines (i + 1) baseIndent;
          let reg1 := ensure_block blockId reg in
          let e := {| e_content := pc_content pc; e_filePath := filePath;
                      e_indent := baseIndent |} in
          let reg2 :=
            match ty with
            | block_replace => alter (push_replace e) blockId reg1
            | _ => alter (push_append e) blockId reg1
            end in
          Ok (pc_nextLine pc, (reg2, fblocks))
      end
  | _ => Ok (i + 1, st)
  end.

(** The outer [while (i < lines.length)] of [parseFile].  The index does not
    go down structurally, so the loop is cut off after [fuel] iterations. *)
Fixpoint scan_loop (fuel : nat) (lines : list jsstring) (filePath : jsstring)
  (i : nat) (st : ScanState) : result ScanState :=
  match lines !! i with
  | None => Ok st
  | Some line =>
      match fuel with
      | O => OutOfFuel
      | S fuel' =>
          '(i', st') ← scan_step lines filePath i line st;
          scan_loop fuel' lines filePath i' st'
      end
  end.

(** [parseFile(filePath)], where [content] is what [readFileSync] returns.
    Every iteration moves [i] forward ([scan_loop_terminates] below), so
    [lines.length] iterations are enough. *)
Definition parseFile (this : Parser) (filePath content : jsstring)
  : result Parser :=
  let lines := split_lines content in
  '(reg, fblocks) ← scan_loop (length lines) lines filePath 0 (blocks this, []);
  Ok {| blocks := reg;
        files := files_set (files this) filePath
                   {| f_lines := lines; f_blocks := fblocks |} |}.

(** [parseFiles(filePaths)] *)
Fixpoint parseFiles (this : Parser) (inputs : list (jsstring * jsstring))
  : result Parser :=
  match inputs with
  | [] => Ok this
  | (filePath, content) :: inputs' =>
      this' ← parseFile this filePath content;
      parseFiles this' inputs'
  end.

(** ** Pass 2: [generateBlockContent] and [generateOutput] *)

(** Every item of the registry is an object made by [parseTemplateContent],
    with [finalContent] defined; of the three branches of the source's loop
    over [result] only that one is reachable. *)
Definition render (baseIndent : jsstring) (item : Item) : jsstring :=
  if isEmpty item then [] else baseIndent ++ finalContent item.

Definition resolve (blockInfo : BlockInfo) : list Item :=
  let result :=
    match last (replaces blockInfo) with
    | Some replacement => e_content replacement
    | None =>
        match bi_default blockInfo with
        | Some d => e_content d
        | None => []
        end
    end in
  foldl (fun result append => result ++ e_content append) result
    (appends blockInfo).

Definition generateBlockContent (reg : gmap jsstring BlockInfo)
  (blockId : jsstring) (existingIndent : jsstring) : list jsstring :=
  match reg !! blockId with
  | None => []
  | Some blockInfo =>
      let baseIndent := existingIndent in
      map (render baseIndent) (resolve blockInfo)
  end.

Definition undefined_trim : jsstring :=
  js "Cannot read properties of undefined (reading 'trim')".

(** The loop that looks for the indentation of the existing content, over
    [n] lines from [j] on. *)
Fixpoint find_existingIndent (newLines : list jsstring) (j n : nat)
  : result jsstring :=
  match n with
  | O => Ok []
  | S n' =>
      match newLines !! j with
      | None => Throw undefined_trim
      | Some line =>
          if negb (is_blank line) && negb (startsWith (trim line) (js "//"))
          then
            match re_match indent_re line with
            | Some indentMatch => Ok (group 1 indentMatch)
            | None => find_existingIndent newLines (S j) n'
            end
          else find_existingIndent newLines (S j) n'
      end
  end.

(** Whether the loop over the template comments keeps [line]: [Ok true] is
    the [push] and [continue], [Ok false] the [break]. *)
Definition preserves (blockIndent : option jsstring) (line : jsstring)
  : result bool :=
  let trimmed := trim line in
  if startsWith trimmed (js "//") then
    let lineIndent := getCommentIndent line in
    if truthy lineIndent then
      n ← length_of blockIndent;
      if n <=? length (default [] lineIndent) then
        match re_match content_re line with
        | Some contentMatch =>
            let contentText := group 3 contentMatch in
            Ok (negb (is_blank contentText)
                && negb (startsWith (trim contentText) (js "@")))
        | None => Ok false
        end
      else Ok false
    else Ok false
  else Ok false.

Fixpoint find_preserved (newLines : list jsstring) (blockIndent : option jsstring)
  (j n : nat) : result (list jsstring) :=
  match n with
  | O => Ok []
  | S n' =>
      match newLines !! j with
      | None => Throw undefined_trim
      | Some line =>
          keep ← preserves blockIndent line;
          if (keep : bool) then
            preservedLines ← find_preserved newLines blockIndent (S j) n';
            Ok (line :: preservedLines)
          else Ok []
      end
  end.

(** [a.splice(start, deleteCount, ...items)] on a copy *)
Definition splice {A} (a : list A) (start deleteCount : nat) (items : list A)
  : list A :=
  take start a ++ items ++ drop (start + deleteCount) a.

(** The body of the [for] over [fileData.blocks] for one block, up to
    [replacementLines] ... *)
Definition replacement (reg : gmap jsstring BlockInfo) (b : BlockData)
  (newLines : list jsstring) : result (list jsstring) :=
  let contentStart := startLine b + 1 in
  let contentEnd := endLine b in
  existingIndent ←
    find_existingIndent newLines contentStart (contentEnd - contentStart);
  let generatedContent := generateBlockContent reg (b_blockId b) existingIndent in
  preservedLines ←
    match b_type b with
    | block_default =>
        find_preserved newLines (b_indent b) contentStart
          (contentEnd - contentStart)
    | _ => Ok []
    end;
  Ok (preservedLines ++ generatedContent).

(** ... and the [splice] that puts them in. *)
Definition patch_block (reg : gmap jsstring BlockInfo) (b : BlockData)
  (newLines : list jsstring) : result (list jsstring) :=
  let contentStart := startLine b + 1 in
  let contentEnd := endLine b in
  replacementLines ← replacement reg b newLines;
  Ok (splice newLines contentStart (contentEnd - contentStart) replacementLines).

(** The [for (let i = blocks.length - 1; i >= 0; i--)] loop; [rblocks] is
    [fileData.blocks] reversed.  Returns [modified] and [newLines]. *)
Fixpoint patch_loop (reg : gmap jsstring BlockInfo) (rblocks : list BlockData)
  (modified : bool) (newLines : list jsstring)
  : result (bool * list jsstring) :=
  match rblocks with
  | [] => Ok (modified, newLines)
  | b :: rblocks' =>
      match b_type b with
      | block_default | block =>
          newLines' ← patch_block reg b newLines;
          patch_loop reg rblocks' true newLines'
      | _ => patch_loop reg rblocks' modified newLines
      end
  end.

Definition patch_file (reg : gmap jsstring BlockInfo) (fileData : FileData)
  : result (bool * list jsstring) :=
  patch_loop reg (rev (f_blocks fileData)) false (f_lines fileData).

(** What a run did: the [writeFileSync] calls, in order, and how it ended. *)
Record Run := {
  writes : list (jsstring * jsstring);
  status : result unit
}.

(** [generateOutput()], as the loop over [this.files.entries()]. *)
Fixpoint generateOutput_loop (reg : gmap jsstring BlockInfo)
  (entries : list (jsstring * FileData)) (log : list (jsstring * jsstring))
  : Run :=
  match entries with
  | [] => {| writes := log; status := Ok () |}
  | (filePath, fileData) :: entries' =>
      match patch_file reg fileData with
      | Ok (modified, newLines) =>
          let log' :=
            if (modified : bool) then log ++ [(filePath, join_lines newLines)]
            else log in
          generateOutput_loop reg entries' log'
      | Throw e => {| writes := log; status := Throw e |}
      | OutOfFuel => {| writes := log; status := OutOfFuel |}
      end
  end.

Definition generateOutput (this : Parser) : Run :=
  generateOutput_loop (blocks this) (files this) [].

(** [process(globPattern)]: [inputs] are the paths [glob] found, each with
    the text [readFileSync] gives for it.  An exception anywhere is caught
    and ends the process with exit code 1; here it is the [status]. *)
Definition process (inputs : list (jsstring * jsstring)) : Run :=
  let this := reset in
  match inputs with
  | [] => {| writes := []; status := Ok () |}
  | _ =>
      match parseFiles this inputs with
      | Ok this' => generateOutput this'
      | Throw e => {| writes := []; status := Throw e |}
      | OutOfFuel => {| writes := []; status := OutOfFuel |}
      end
  end.

(** The first case of the test suite, [test.js]. *)
Definition test1 : jsstring := js "int main() {
  u32 test_array[] = {
      // @block_default ARRAY_DEF
      //   0,
      0,
      // @endblock
  };
  return 0;
}

// @block_replace ARRAY_DEF
//   1,

// @block_append ARRAY_DEF
//   2,".
Definition test1_expected : jsstring := js "int main() {
  u32 test_array[] = {
      // @block_default ARRAY_DEF
      //   0,
      1,
      2,
      // @endblock
  };
  return 0;
}

// @block_replace ARRAY_DEF
//   1,

// @block_append ARRAY_DEF
//   2,".
Example test1_ok :
  process [(js "a.c", test1)]
  = {| writes := [(js "a.c", test1_expected)]; status := Ok () |}.
Proof. vm_compute. reflexivity. Qed.

(** ** Vocabulary of the properties *)

(** The two roles that have a span and are rewritten. *)
Definition is_target (ty : BlockType) : bool :=
  match ty with
  | block_default | block => true
  | block_replace | block_append => false
  end.

(** The spans of [bs] lie in increasing order from line [lo] on, each after
    the end of the one before. *)
Fixpoint spans_from (lo : nat) (bs : list BlockData) : Prop :=
  match bs with
  | [] => True
  | b :: bs' =>
      lo <= startLine b /\ startLine b < endLine b /\
      spans_from (endLine b + 1) bs'
  end.

(** The first line after the spans of [bs], when they start at [lo]. *)
Definition spans_end (lo : nat) (bs : list BlockData) : nat :=
  match last bs with
  | Some b => endLine b + 1
  | None => lo
  end.

(** [b] records a [block_default] or [block] directive of [lines]: it
    starts at the directive's line and ends where the search for [@endblock]
    from the next line on stops. *)
Definition occurrence (lines : list jsstring) (b : BlockData) : Prop :=
  is_target (b_type b) = true /\
  (exists line,
      lines !! startLine b = Some line /\
      parseTemplateLine line = Ok (Some (DBlock (b_type b) (b_blockId b))) /\
      b_indent b = getCommentIndent line) /\
  find_endblock (drop (startLine b + 1) lines) (startLine b + 1)
  = Ok (endLine b).

(** What the scanner keeps true of [fileData.blocks]. *)
Definition scan_inv (lines : list jsstring) (lo : nat) (i : nat)
  (st : ScanState) : Prop :=
  spans_from lo st.2 /\ spans_end lo st.2 <= i /\
  Forall (occurrence lines) st.2.

(** A file record as the scanner leaves it. *)
Definition wf_file (fd : FileData) : Prop :=
  spans_from 0 (f_blocks fd) /\ Forall (occurrence (f_lines fd)) (f_blocks fd).

(** The lines of a patched file: those from [pos] up to and including the
    opening directive of the first block, its replacement, and so on from
    the line where that block ends. *)
Fixpoint assemble (lines : list jsstring) (pos : nat) (bs : list BlockData)
  (repls : list (list jsstring)) : list jsstring :=
  match bs, repls with
  | b :: bs', r :: repls' =>
      take (startLine b + 1 - pos) (drop pos lines) ++ r
        ++ assemble lines (endLine b) bs' repls'
  | _, _ => drop pos lines
  end.

(** A line on which [parseTemplateLine] returns. *)
Definition parses (line : jsstring) : Prop :=
  exists d, parseTemplateLine line = Ok d.

(** A line on which [parseTemplateLine] throws: a block command with no
    identifier, or with more than one. *)
Definition malformed (line : jsstring) : Prop :=
  exists command args,
    directive_parts line = Some (command, args) /\
    is_Some (block_command command) /\ length args <> 1.

(** [strip_prefix p s] is what follows [p] in [s], when [s] starts with it. *)
Fixpoint strip_prefix (p s : jsstring) : option jsstring :=
  match p, s with
  | [], _ => Some s
  | a :: p', b :: s' => if (a =? b)%N then strip_prefix p' s' else None
  | _ :: _, [] => None
  end.

(** Every line the scanner has passed was given to [parseTemplateLine]. *)
Definition covered (lines : list jsstring) (i : nat) : Prop :=
  forall k l, k < i -> lines !! k = Some l -> parses l.

(** All the lines of all the files of a run. *)
Definition all_parse (inputs : list (jsstring * jsstring)) : Prop :=
  Forall (fun input => Forall parses (split_lines input.2)) inputs.

(** What [generateOutput] writes for one entry of [this.files], if it
    writes. *)
Definition output_of (reg : gmap jsstring BlockInfo)
  (e : jsstring * FileData) : option (jsstring * jsstring) :=
  match patch_file reg e.2 with
  | Ok (true, newLines) => Some (e.1, join_lines newLines)
  | _ => None
  end.

(** Every [block_default] or [block] directive before line [i] lies in the
    span of a block of [bs]. *)
Definition recorded (lines : list jsstring) (i : nat) (bs : list BlockData)
  : Prop :=
  forall k l ty id,
    k < i -> lines !! k = Some l ->
    parseTemplateLine l = Ok (Some (DBlock ty id)) -> is_target ty = true ->
    exists b, b ∈ bs /\ startLine b <= k <= endLine b.

(** [fd] is the record the scanner makes of a file that reads [content]. *)
Definition scanned (content : jsstring) (fd : FileData) : Prop :=
  f_lines fd = split_lines content /\ wf_file fd /\
  recorded (f_lines fd) (length (f_lines fd)) (f_blocks fd).

(** [line] is a line of one of the files of the run. *)
Definition in_inputs (inputs : list (jsstring * jsstring)) (line : jsstring)
  : Prop :=
  exists filePath content,
    (filePath, content) ∈ inputs /\ line ∈ split_lines content.

(** The message of the error [parseTemplateLine] throws. *)
Definition invalid_message (command : jsstring) : jsstring :=
  js "Invalid " ++ command ++ js ": expected exactly one identifier".

(** The white space between [//] and the text of a comment line: group 2
    of [contentMatch]. *)
Definition comment_spaces (line : jsstring) : option jsstring :=
  group 2 <$> re_match content_re line.

(** A text that starts with a character that is not white space ... *)
Definition starts_text (t : jsstring) : Prop :=
  match t with
  | ch :: _ => is_ws ch = false
  | [] => False
  end.

(** ... and holds no line terminator ([\r], U+2028, U+2029), which a line
    got by splitting at [\r?\n] may hold and [.] does not match. *)
Definition one_line (t : jsstring) : Prop :=
  Forall (fun x => is_lt x = false) t.

Definition all_ws (s : jsstring) : Prop :=
  Forall (fun x => is_ws x = true) s.

(** Whether the patcher keeps a template comment with text [t]. *)
Definition kept_text (t : jsstring) : bool :=
  negb (is_blank t) && negb (startsWith (trim t) (js "@")).

(** The registry after a [block_default] or [block] directive, and after
    a [block_replace] or [block_append] one. *)
Definition register_target (ty : BlockType) (blockId : jsstring)
  (content : list Item) (filePath : jsstring) (baseIndent : option jsstring)
  (reg : gmap jsstring BlockInfo) : gmap jsstring BlockInfo :=
  match ty with
  | block_default =>
      alter (set_default {| e_content := content; e_filePath := filePath;
                            e_indent := baseIndent |})
        blockId (ensure_block blockId reg)
  | _ => ensure_block blockId reg
  end.

Definition register_source (ty : BlockType) (blockId : jsstring)
  (content : list Item) (filePath : jsstring) (baseIndent : option jsstring)
  (reg : gmap jsstring BlockInfo) : gmap jsstring BlockInfo :=
  let e := {| e_content := content; e_filePath := filePath;
              e_indent := baseIndent |} in
  match ty with
  | block_replace => alter (push_replace e) blockId (ensure_block blockId reg)
  | _ => alter (push_append e) blockId (ensure_block blockId reg)
  end.

(** The [content] of a block: the template of a [block_default], nothing
    for a [block]. *)
Definition block_content (ty : BlockType) (lines : list jsstring) (i : nat)
  (baseIndent : option jsstring) : result (list Item) :=
  match ty with
  | block_default =>
      pc ← parseTemplateContent lines (i + 1) baseIndent; Ok (pc_content pc)
  | _ => Ok []
  end.

(** A line that is not a comment line. *)
Definition not_comment (line : jsstring) : Prop :=
  startsWith (trim line) (js "//") = false.

(** The lines [r] can stand in the span of [b] when the file is scanned
    again: they are template comments, which give the content [b] has,
    followed by lines that are no comments. *)
Definition replays (b : BlockData) (r : list jsstring) : Prop :=
  exists pres gen,
    r = pres ++ gen /\
    Forall not_comment gen /\
    Forall (fun l => parseTemplateLine l = Ok None) pres /\
    match b_type b with
    | block_default =>
        exists craw t,
          content_loop pres 0 (b_indent b) [] None
          = Ok (craw, length pres, t) /\
          map (apply_indent t) craw = b_content b
    | _ => True
    end.

(** [b2] is the block [b] in a file where [r] stands in its span. *)
Definition block_rel (lines2 : list jsstring) (b : BlockData)
  (r : list jsstring) (b2 : BlockData) : Prop :=
  b_type b2 = b_type b /\ b_blockId b2 = b_blockId b /\
  b_indent b2 = b_indent b /\ b_content b2 = b_content b /\
  endLine b2 = startLine b2 + 1 + length r /\
  take (length r) (drop (startLine b2 + 1) lines2) = r.

(** ** The test harness, and the vocabulary of the further properties *)

(** The first content line that is not blank starts with a character that
    is not white space: it carries no indentation of its own. *)
Fixpoint head_ok (items : list Item) : Prop :=
  match items with
  | [] => True
  | item :: items' =>
      if isEmpty item then head_ok items' else starts_text (finalContent item)
  end.

(** The same, of every content a block of the registry holds ... *)
Definition info_ok (info : BlockInfo) : Prop :=
  from_option (fun e => head_ok (e_content e)) True (bi_default info) /\
  Forall (fun e => head_ok (e_content e)) (replaces info) /\
  Forall (fun e => head_ok (e_content e)) (appends info).

(** ... and of every block of the registry. *)
Definition reg_ok (reg : gmap jsstring BlockInfo) : Prop :=
  map_Forall (fun _ info => info_ok info) reg.

(** What the loop over the existing content finds in a span. *)
Fixpoint indent_of (span : list jsstring) : jsstring :=
  match span with
  | [] => []
  | line :: span' =>
      if negb (is_blank line) && negb (startsWith (trim line) (js "//"))
      then take_while is_ws line
      else indent_of span'
  end.

(** The template comments the patcher keeps at the head of a span. *)
Fixpoint kept_of (blockIndent : option jsstring) (span : list jsstring)
  : result (list jsstring) :=
  match span with
  | [] => Ok []
  | line :: span' =>
      keep ← preserves blockIndent line;
      if (keep : bool) then
        preservedLines ← kept_of blockIndent span'; Ok (line :: preservedLines)
      else Ok []
  end.

(** What the loop of [parseTemplateContent] keeps true of [content] and
    [templateIndent]: the first item that is not empty gave
    [templateIndent], and its text starts with a character that is not
    white space. *)
Fixpoint raw_ok (templateIndent : option jsstring) (content : list RawItem)
  : Prop :=
  match content with
  | [] => templateIndent = None
  | item :: content' =>
      if r_isEmpty item then raw_ok templateIndent content'
      else templateIndent = Some (r_commentSpaces item) /\
           starts_text (r_contentText item)
  end.

(** ** Line endings in the test harness

    [normalizeLineEndings(text)] of [test.js]:
    [text.replace(/\r\n/g, '\n').replace(/\r/g, '\n')]. *)

(** [text.replace(/\r\n/g, '\n')]: matches are found from left to right
    and do not overlap. *)
Fixpoint replace_crlf (text : jsstring) : jsstring :=
  match text with
  | [] => []
  | c :: text' =>
      match text' with
      | d :: text'' =>
          if (c =? 13)%N && (d =? 10)%N then 10%N :: replace_crlf text''
          else c :: replace_crlf text'
      | [] => [c]
      end
  end.

(** [text.replace(/\r/g, '\n')] *)
Definition replace_cr (text : jsstring) : jsstring :=
  map (fun c => if (c =? 13)%N then 10%N else c) text.

Definition normalizeLineEndings (text : jsstring) : jsstring :=
  replace_cr (replace_crlf text).

(** The number of line feeds of a text. *)
Definition count_lf (text : jsstring) : nat :=
  length (filter (fun c => c = 10%N) text).

(** A line that can be written and read back: it holds no line feed and
    does not end with a carriage return. *)
Definition rereadable (line : jsstring) : Prop :=
  (10%N ∉ line) /\ (last line <> Some 13%N).

(** The command of a block directive, as written in a file. *)
Definition command_name (ty : BlockType) : jsstring :=
  match ty with
  | block_default => js "@block_default"
  | block_replace => js "@block_replace"
  | block_append => js "@block_append"
  | block => js "@block"
  end.

(** A text without white space. *)
Definition no_ws (s : jsstring) : Prop :=
  Forall (fun x => is_ws x = false) s.

(** What an item of [content] records of its line: the white space before
    [//], the white space after it, and the text, which [.*] takes up to
    the first line terminator. *)
Definition raw_line (item : RawItem) : Prop :=
  exists r,
    drop_while is_ws (r_originalLine item) = js "//" ++ r /\
    r_indent item = take_while is_ws (r_originalLine item) /\
    r_commentSpaces item = take_while is_ws r /\
    r_contentText item = take_while is_dot (drop_while is_ws r) /\
    r_isEmpty item = is_blank (r_contentText item).

Definition item_line (item : Item) : Prop :=
  exists r,
    originalLine item = indent item ++ js "//" ++ r /\
    all_ws (indent item) /\
    commentSpaces item = take_while is_ws r /\
    contentText item = take_while is_dot (drop_while is_ws r) /\
    isEmpty item = is_blank (contentText item).

(** A template body, for the examples: the lines after a directive, and
    what [parseTemplateContent] makes of them. *)
Definition template_lines : list jsstring :=
  [js "// @block_replace X"; js "//   a"; js "//"; js "//     b"; js "c"].

Definition template_parsed : ParsedContent :=
  Eval vm_compute in
    match parseTemplateContent template_lines 1 (Some (js "// ")) with
    | Ok pc => pc
    | _ => {| pc_content := []; pc_nextLine := 0; pc_templateIndent := None |}
    end.

(** The registry [reg'] holds what [reg] holds: every block of [reg] is
    still there, with the replacements and the appends it had at the head
    of its lists, in the same order. *)
Definition reg_le (reg reg' : gmap jsstring BlockInfo) : Prop :=
  forall blockId info,
    reg !! blockId = Some info ->
    exists info',
      reg' !! blockId = Some info' /\
      replaces info `prefix_of` replaces info' /\
      appends info `prefix_of` appends info'.

(** A record of [fileData.blocks] as the scanner makes it, under the
    registry [reg]. *)
Definition block_ok (reg : gmap jsstring BlockInfo) (lines : list jsstring)
  (b : BlockData) : Prop :=
  is_Some (reg !! b_blockId b) /\
  is_Some (b_indent b) /\
  block_content (b_type b) lines (startLine b) (b_indent b)
  = Ok (b_content b).

(** ** A run, for the examples

    The first case of the test suite, and a second file that appends to
    its block. *)
Definition demo_more : list (jsstring * jsstring) :=
  [(js "b.c", js "// @block_append ARRAY_DEF
//   3,")].

Definition demo_inputs : list (jsstring * jsstring) :=
  (js "a.c", test1) :: demo_more.

Definition demo_first : Parser :=
  Eval vm_compute in
    match parseFiles reset [(js "a.c", test1)] with
    | Ok this => this
    | _ => reset
    end.

Definition demo_parsed : Parser :=
  Eval vm_compute in
    match parseFiles reset demo_inputs with
    | Ok this => this
    | _ => reset
    end.

Definition demo_info : BlockInfo :=
  Eval vm_compute in
    match blocks demo_first !! js "ARRAY_DEF" with
    | Some info => info
    | None => {| bi_default := None; replaces := []; appends := [] |}
    end.

Definition demo_fd : FileData :=
  Eval vm_compute in
    match files demo_parsed with
    | (_, fd) :: _ => fd
    | [] => {| f_lines := []; f_blocks := [] |}
    end.

Definition demo_block : BlockData :=
  Eval vm_compute in
    match f_blocks demo_fd with
    | b :: _ => b
    | [] => {| b_type := block; b_blockId := []; startLine := 0; endLine := 0;
               b_indent := None; b_content := [] |}
    end.

(** ** Running the engine on its own output *)

(** The patch of [b] can be read again: no line generated for the block is
    a comment line and, for a [block_default], the patcher keeps a comment
    for every item of the template. *)
Definition stable_block (reg : gmap jsstring BlockInfo)
  (lines : list jsstring) (b : BlockData) : Prop :=
  exists existingIndent,
    find_existingIndent lines (startLine b + 1)
      (endLine b - (startLine b + 1))
    = Ok existingIndent /\
    Forall not_comment (generateBlockContent reg (b_blockId b) existingIndent) /\
    (b_type b = block_default ->
     exists preservedLines,
       find_preserved lines (b_indent b) (startLine b + 1)
         (endLine b - (startLine b + 1))
       = Ok preservedLines /\
       length preservedLines = length (b_content b)).

(** The lines [r] are kept comments followed by the lines generated for
    [b] with an indentation that is white space. *)
Definition regenerates (reg : gmap jsstring BlockInfo) (b : BlockData)
  (r : list jsstring) : Prop :=
  exists pres ind,
    r = pres ++ generateBlockContent reg (b_blockId b) ind /\
    all_ws ind /\
    Forall not_comment (generateBlockContent reg (b_blockId b) ind) /\
    Forall (fun l => preserves (b_indent b) l = Ok true) pres /\
    (b_type b = block_default \/ pres = []).

(** The lines a run leaves in a file: those it writes, or those it read. *)
Definition lines_left (reg : gmap jsstring BlockInfo) (fd : FileData)
  : list jsstring :=
  match patch_file reg fd with
  | Ok (_, newLines) => newLines
  | _ => f_lines fd
  end.

(** [fd2] is the record of the file of [fd] as the run with registry [reg]
    leaves it: its lines are those lines, and its blocks are the blocks of
    [fd] with their replacements for spans. *)
Definition rescan (reg : gmap jsstring BlockInfo) (fd fd2 : FileData)
  : Prop :=
  exists repls,
    Forall2 (fun b r => replacement reg b (f_lines fd) = Ok r /\
                        regenerates reg b r)
      (f_blocks fd) repls /\
    f_lines fd2 = assemble (f_lines fd) 0 (f_blocks fd) repls /\
    Forall3 (block_rel (f_lines fd2)) (f_blocks fd) repls (f_blocks fd2) /\
    wf_file fd2.

(** The second run reads, for the file of [input], the lines the first
    run left in it. *)
Definition left_by (this : Parser) (input input2 : jsstring * jsstring)
  : Prop :=
  input2.1 = input.1 /\
  forall fd, (input.1, fd) ∈ files this ->
             split_lines input2.2 = lines_left (blocks this) fd.

(** [this.files.get(filePath)] *)
Fixpoint files_get (files : list (jsstring * FileData)) (filePath : jsstring)
  : option FileData :=
  match files with
  | [] => None
  | (p, d) :: files' =>
      if str_eqb p filePath then Some d else files_get files' filePath
  end.

(** The file of [input] after the run: the text written to it, or the text
    it had when the run did not write it. *)
Definition text_left (this : Parser) (input : jsstring * jsstring)
  : jsstring * jsstring :=
  (input.1,
   match files_get (files this) input.1 with
   | Some fd =>
       match output_of (blocks this) (input.1, fd) with
       | Some w => w.2
       | None => input.2
       end
   | None => input.2
   end).

(** A line that is no block directive: [parseTemplateLine] returns [null],
    [@endblock], or a command the engine does not know. *)
Definition no_block_directive (line : jsstring) : Prop :=
  exists d, parseTemplateLine line = Ok d /\
            forall ty blockId, d <> Some (DBlock ty blockId).

(** The case [Nested indentation] of the test suite: the block stands
    inside an [if], its body in a [@block_replace] further down. *)
Definition nested_input : jsstring := js "if (condition) {
    // @block_default NESTED
    //     deeply_nested();
    old_nested();
    // @endblock
}

// @block_replace NESTED
//     new_deeply_nested();
//     another_line();".

Definition nested_parsed : Parser :=
  Eval vm_compute in
    match parseFiles reset [(js "test6.c", nested_input)] with
    | Ok this => this
    | _ => reset
    end.

Definition nested_fd : FileData :=
  Eval vm_compute in
    match files nested_parsed with
    | (_, fd) :: _ => fd
    | [] => {| f_lines := []; f_blocks := [] |}
    end.

Definition nested_block : BlockData :=
  Eval vm_compute in
    match f_blocks nested_fd with
    | b :: _ => b
    | [] => {| b_type := block; b_blockId := []; startLine := 0; endLine := 0;
               b_indent := None; b_content := [] |}
    end.

Definition nested_info : BlockInfo :=
  Eval vm_compute in
    match blocks nested_parsed !! js "NESTED" with
    | Some info => info
    | None => {| bi_default := None; replaces := []; appends := [] |}
    end.

Definition nested_body : ParsedContent :=
  Eval vm_compute in
    match parseTemplateContent (split_lines nested_input) 8 (Some (js "// "))
    with
    | Ok pc => pc
    | _ => {| pc_content := []; pc_nextLine := 0; pc_templateIndent := None |}
    end.




(** * Properties *)

(** ** The result monad *)

Lemma bind_Ok {A B} (m : result A) (f : A -> result B) b :
  (m ≫= f) = Ok b <-> exists a, m = Ok a /\ f a = Ok b.
Proof.
  destruct m; simpl; split; try (intros (a' & [=] & ?)); try discriminate; eauto.
  subst; auto.
Qed.

Lemma bind_OutOfFuel {A B} (m : result A) (f : A -> result B) :
  (m ≫= f) = OutOfFuel <->
  m = OutOfFuel \/ exists a, m = Ok a /\ f a = OutOfFuel.
Proof.
  destruct m as [a|e|]; simpl; split; intros H.
  - right. eauto.
  - destruct H as [H|(a' & [= <-] & H)]; [discriminate | exact H].
  - discriminate.
  - destruct H as [H|(a' & H & _)]; discriminate.
  - by left.
  - reflexivity.
Qed.

Lemma bind_Throw {A B} (m : result A) (f : A -> result B) e :
  (m ≫= f) = Throw e <-> m = Throw e \/ exists a, m = Ok a /\ f a = Throw e.
Proof.
  destruct m as [a|e'|]; simpl; split; intros H.
  - right. eauto.
  - destruct H as [H|(a' & [= <-] & H)]; [discriminate | exact H].
  - left. congruence.
  - destruct H as [H|(a' & H & _)]; [congruence | discriminate].
  - discriminate.
  - destruct H as [H|(a' & H & _)]; discriminate.
Qed.

(** Every throwing part of the parser throws or returns; only [scan_loop]
    can be cut off. *)
Lemma parseTemplateLine_fuel line : parseTemplateLine line <> OutOfFuel.
Proof.
  unfold parseTemplateLine.
  destruct (directive_parts line) as [[command args]|]; [|discriminate].
  destruct (block_command command).
  - destruct args as [|? [|? ?]]; discriminate.
  - destruct (str_eqb _ _); discriminate.
Qed.

Lemma length_of_fuel x : length_of x <> OutOfFuel.
Proof. destruct x; discriminate. Qed.

Lemma content_step_fuel line b c t : content_step line b c t <> OutOfFuel.
Proof.
  unfold content_step.
  destruct (startsWith _ _); [|discriminate].
  intros [H|(d & _ & H)]%bind_OutOfFuel; [by apply parseTemplateLine_fuel in H|].
  destruct d; [discriminate|].
  destruct (truthy _); [|discriminate].
  apply bind_OutOfFuel in H as [H|(n & _ & H)]; [by apply length_of_fuel in H|].
  destruct (_ || _); [|discriminate].
  destruct (re_match _ _); discriminate.
Qed.

Lemma content_loop_fuel rest : forall i b c t,
  content_loop rest i b c t <> OutOfFuel.
Proof.
  induction rest as [|line rest IH]; intros i b c t; simpl; [discriminate|].
  intros [H|(r & _ & H)]%bind_OutOfFuel; [by apply content_step_fuel in H|].
  destruct r as [[c' t']|]; [by apply IH in H | discriminate].
Qed.

Lemma parseTemplateContent_fuel lines s b :
  parseTemplateContent lines s b <> OutOfFuel.
Proof.
  unfold parseTemplateContent.
  intros [H|([[c i] t] & _ & H)]%bind_OutOfFuel;
    [by apply content_loop_fuel in H | discriminate].
Qed.

Lemma find_endblock_fuel rest : forall e, find_endblock rest e <> OutOfFuel.
Proof.
  induction rest as [|line rest IH]; intros e; simpl; [discriminate|].
  intros [H|(d & _ & H)]%bind_OutOfFuel; [by apply parseTemplateLine_fuel in H|].
  destruct d as [[]|]; try discriminate; by apply IH in H.
Qed.

Lemma scan_step_fuel lines fp i line st :
  scan_step lines fp i line st <> OutOfFuel.
Proof.
  unfold scan_step. destruct st as [reg fblocks].
  intros [H|(d & _ & H)]%bind_OutOfFuel; [by apply parseTemplateLine_fuel in H|].
  destruct d as [[ty id| |]|]; try discriminate.
  destruct ty.
  - apply bind_OutOfFuel in H as [H|(e & _ & H)]; [by apply find_endblock_fuel in H|].
    apply bind_OutOfFuel in H as [H|(c & _ & H)]; [|discriminate].
    apply bind_OutOfFuel in H as [H|(pc & _ & H)];
      [by apply parseTemplateContent_fuel in H | discriminate].
  - apply bind_OutOfFuel in H as [H|(pc & _ & H)];
      [by apply parseTemplateContent_fuel in H | discriminate].
  - apply bind_OutOfFuel in H as [H|(pc & _ & H)];
      [by apply parseTemplateContent_fuel in H | discriminate].
  - apply bind_OutOfFuel in H as [H|(e & _ & H)]; [by apply find_endblock_fuel in H|].
    apply bind_OutOfFuel in H as [H|(c & _ & H)]; discriminate.
Qed.

(** ** Where the loops stop *)

Lemma find_endblock_range rest : forall e e',
  find_endblock rest e = Ok e' -> e <= e' <= e + length rest.
Proof.
  induction rest as [|line rest IH]; intros e e'; simpl.
  - intros [= <-]. lia.
  - intros (d & _ & H)%bind_Ok.
    destruct d as [[]|]; try (apply IH in H; lia).
    injection H as <-. lia.
Qed.

Lemma content_loop_range rest : forall i b c t c' i' t',
  content_loop rest i b c t = Ok (c', i', t') -> i <= i' <= i + length rest.
Proof.
  induction rest as [|line rest IH]; intros i b c t c' i' t'; simpl.
  - intros [= _ <- _]. lia.
  - intros (r & _ & H)%bind_Ok.
    destruct r as [[c1 t1]|].
    + apply IH in H. lia.
    + injection H as _ <- _. lia.
Qed.

Lemma parseTemplateContent_nextLine lines s b pc :
  parseTemplateContent lines s b = Ok pc ->
  s <= pc_nextLine pc /\ pc_nextLine pc <= max s (length lines).
Proof.
  unfold parseTemplateContent.
  intros ([[c i] t] & H & [= <-])%bind_Ok. simpl.
  apply content_loop_range in H. rewrite length_drop in H. lia.
Qed.

(** ** One iteration of the scanner *)

Lemma scan_step_inv lines fp i line reg fb i' reg' fb' :
  scan_step lines fp i line (reg, fb) = Ok (i', (reg', fb')) ->
  exists d, parseTemplateLine line = Ok d /\
  match d with
  | Some (DBlock ty id) =>
      if is_target ty then
        exists e content,
          find_endblock (drop (i + 1) lines) (i + 1) = Ok e /\
          i' = e + 1 /\
          fb' = fb ++ [{| b_type := ty; b_blockId := id; startLine := i;
                          endLine := e; b_indent := getCommentIndent line;
                          b_content := content |}]
      else
        exists pc,
          parseTemplateContent lines (i + 1) (getCommentIndent line) = Ok pc /\
          i' = pc_nextLine pc /\ fb' = fb
  | _ => i' = i + 1 /\ reg' = reg /\ fb' = fb
  end.
Proof.
  unfold scan_step. intros (d & Hd & H)%bind_Ok. exists d. split; [exact Hd|].
  destruct d as [[ty id| |]|]; try (injection H as <- <- <-; auto).
  destruct ty; simpl.
  - apply bind_Ok in H as (e & He & H). apply bind_Ok in H as (c & _ & H).
    injection H as <- <- <-. eauto.
  - apply bind_Ok in H as (pc & Hpc & H). injection H as <- <- <-. eauto.
  - apply bind_Ok in H as (pc & Hpc & H). injection H as <- <- <-. eauto.
  - apply bind_Ok in H as (e & He & H). apply bind_Ok in H as (c & _ & H).
    injection H as <- <- <-. eauto.
Qed.

(** Each iteration moves the index forward. *)
Lemma scan_step_progress lines fp i line st i' st' :
  scan_step lines fp i line st = Ok (i', st') -> i < i'.
Proof.
  destruct st as [reg fb], st' as [reg' fb'].
  intros (d & _ & H)%scan_step_inv.
  destruct d as [[ty id| |]|]; try lia.
  destruct (is_target ty).
  - destruct H as (e & c & He%find_endblock_range & -> & _). lia.
  - destruct H as (pc & Hpc%parseTemplateContent_nextLine & -> & _). lia.
Qed.

(** An invariant of the iterations holds when the loop is left. *)
Lemma scan_loop_invariant (P : nat -> ScanState -> Prop) lines fp :
  (forall i line st i' st',
      lines !! i = Some line -> P i st ->
      scan_step lines fp i line st = Ok (i', st') -> P i' st') ->
  forall fuel i st st',
    P i st -> scan_loop fuel lines fp i st = Ok st' ->
    exists i', length lines <= i' /\ P i' st'.
Proof.
  intros Hstep fuel. induction fuel as [|fuel IH]; intros i st st' HP; simpl.
  - destruct (lines !! i) eqn:Hi; [discriminate|].
    intros [= <-]. apply lookup_ge_None in Hi. eauto.
  - destruct (lines !! i) as [line|] eqn:Hi.
    + intros ([i1 st1] & H1 & H)%bind_Ok. eapply IH; [|exact H]. eauto.
    + intros [= <-]. apply lookup_ge_None in Hi. eauto.
Qed.

Lemma scan_loop_enough_fuel lines fp : forall fuel i st,
  length lines - i <= fuel -> scan_loop fuel lines fp i st <> OutOfFuel.
Proof.
  induction fuel as [|fuel IH]; intros i st Hfuel; simpl.
  - destruct (lines !! i) eqn:Hi; [|discriminate].
    apply lookup_lt_Some in Hi. lia.
  - destruct (lines !! i) as [line|] eqn:Hi; [|discriminate].
    intros [H|([i1 st1] & H1 & H)]%bind_OutOfFuel;
      [by apply scan_step_fuel in H|].
    apply scan_step_progress in H1. apply IH in H; [exact H | lia].
Qed.

(** With enough fuel the result does not depend on the fuel. *)
Lemma scan_loop_fuel_irrelevant lines fp : forall fuel1 fuel2 i st,
  length lines - i <= fuel1 -> length lines - i <= fuel2 ->
  scan_loop fuel1 lines fp i st = scan_loop fuel2 lines fp i st.
Proof.
  induction fuel1 as [|fuel1 IH]; intros fuel2 i st H1 H2.
  - destruct fuel2; simpl; destruct (lines !! i) eqn:Hi; try reflexivity;
      apply lookup_lt_Some in Hi; lia.
  - destruct fuel2; simpl; destruct (lines !! i) as [line|] eqn:Hi;
      try reflexivity.
    + apply lookup_lt_Some in Hi. lia.
    + destruct (scan_step lines fp i line st) as [[i1 st1]| |] eqn:Hs;
        simpl; try reflexivity.
      apply scan_step_progress in Hs. apply IH; lia.
Qed.

(** ** Spans *)

Lemma spans_from_snoc bs : forall lo b,
  spans_from lo (bs ++ [b]) <->
  spans_from lo bs /\ spans_end lo bs <= startLine b /\ startLine b < endLine b.
Proof.
  unfold spans_end.
  induction bs as [|a bs IH]; intros lo b; simpl; [tauto|].
  rewrite IH, last_cons. destruct (last bs); tauto.
Qed.

Lemma spans_from_weaken bs lo lo' :
  lo' <= lo -> spans_from lo bs -> spans_from lo' bs.
Proof. destruct bs; simpl; [tauto|]. intros ? (? & ? & ?). repeat split; auto; lia. Qed.

Lemma spans_from_lower bs : forall lo k b,
  spans_from lo bs -> bs !! k = Some b -> lo <= startLine b.
Proof.
  induction bs as [|c bs IH]; intros lo k b Hs Hk; [done|].
  destruct Hs as (? & ? & Hs). destruct k; simpl in *.
  - injection Hk as <-. lia.
  - eapply IH in Hk; [|exact Hs]. lia.
Qed.

Lemma spans_from_lookup bs : forall lo k1 k2 b1 b2,
  spans_from lo bs -> k1 < k2 ->
  bs !! k1 = Some b1 -> bs !! k2 = Some b2 ->
  startLine b1 < endLine b1 /\ endLine b1 < startLine b2.
Proof.
  induction bs as [|a bs IH]; intros lo k1 k2 b1 b2 Hs Hk H1 H2; [done|].
  destruct Hs as (Hlo & Ha & Hs).
  destruct k1 as [|k1], k2 as [|k2]; try lia; simpl in *.
  - injection H1 as <-. split; [exact Ha|].
    eapply spans_from_lower in Hs; [|exact H2]. lia.
  - apply (IH (endLine a + 1) k1 k2 b1 b2 Hs); [lia | exact H1 | exact H2].
Qed.

(** ** What the regular expressions match *)

Lemma take_drop_while {A} (p : A -> bool) s :
  take_while p s ++ drop_while p s = s.
Proof. induction s as [|c s IH]; simpl; [done|]. destruct (p c); simpl; congruence. Qed.

Lemma take_while_length {A} (p : A -> bool) s :
  take (length s - length (drop_while p s)) s = take_while p s.
Proof.
  rewrite <- (take_drop_while p s) at 1 3.
  rewrite length_app.
  replace (_ + _ - _) with (length (take_while p s)) by lia.
  by rewrite take_app_length.
Qed.

Lemma drop_while_head {A} (p : A -> bool) s c s' :
  drop_while p s = c :: s' -> p c = false.
Proof.
  induction s as [|d s IH]; simpl; [done|].
  destruct (p d) eqn:Hd; [exact IH|]. by intros [= <- <-].
Qed.

Lemma drop_while_snoc {A} (p : A -> bool) s c :
  p c = false -> drop_while p (s ++ [c]) = drop_while p s ++ [c].
Proof.
  intros Hc. induction s as [|d s IH]; simpl; [by rewrite Hc|].
  by destruct (p d).
Qed.

Lemma drop_while_idem {A} (p : A -> bool) s :
  drop_while p (drop_while p s) = drop_while p s.
Proof.
  destruct (drop_while p s) as [|c s'] eqn:H; [done|].
  apply drop_while_head in H. simpl. by rewrite H.
Qed.

Section Star.
Context {R : Type}.
Implicit Types k : jsstring -> option R.

(** The longest run is tried first. *)
Lemma star_greedy p s k r :
  k (drop_while p s) = Some r -> star p s k = Some r.
Proof.
  induction s as [|c s IH]; simpl; [done|].
  destruct (p c); [|done]. intros H. by rewrite (IH H).
Qed.

(** When what follows cannot start with a character of the class, only
    the longest run can be followed by a match. *)
Lemma star_longest p s k :
  (forall c s', p c = true -> k (c :: s') = None) ->
  star p s k = k (drop_while p s).
Proof.
  intros Hk. induction s as [|c s IH]; simpl; [done|].
  destruct (p c) eqn:Hc; [|done].
  rewrite IH. destruct (k (drop_while p s)); [done|]. by apply Hk.
Qed.
End Star.

Lemma strip_prefix_Some p : forall s r,
  strip_prefix p s = Some r <-> s = p ++ r.
Proof.
  induction p as [|a p IH]; intros s r; simpl.
  - split; [by intros [= ->] | by intros ->].
  - destruct s as [|b s]; [done|].
    destruct (a =? b)%N eqn:Hab.
    + apply N.eqb_eq in Hab as <-. rewrite IH. split; [by intros -> | by intros [= ->]].
    + apply N.eqb_neq in Hab. split; [done | by intros [= -> _]].
Qed.

Lemma startsWith_strip s p :
  startsWith s p = true <-> is_Some (strip_prefix p s).
Proof.
  revert s. induction p as [|a p IH]; intros s; simpl.
  - destruct s; split; eauto.
  - destruct s as [|b s]; simpl; [split; [done | by intros [? ?]]|].
    destruct (a =? b)%N; simpl; [apply IH | split; [done | by intros [? ?]]].
Qed.

Lemma js_slashes : js "//" = [47; 47]%N.
Proof. reflexivity. Qed.

Local Arguments N.eqb : simpl never.

(** [comment_re] finds the white space before [//] and after it. *)
Lemma re_match_comment line :
  re_match comment_re line =
  match strip_prefix (js "//") (drop_while is_ws line) with
  | Some r => Some [(2, take_while is_ws r); (1, take_while is_ws line)]
  | None => None
  end.
Proof.
  rewrite js_slashes. unfold re_match, comment_re. simpl.
  rewrite star_longest.
  - pose proof (take_while_length is_ws line) as Hl.
    destruct (drop_while is_ws line) as [|c [|d r]] eqn:Hd; simpl; try done.
    + by destruct (47 =? c)%N.
    + destruct (47 =? c)%N eqn:Hc; [|done].
      destruct (47 =? d)%N eqn:Hd'; [|done].
      erewrite star_greedy; [|reflexivity].
      simpl in Hl. by rewrite Hl, take_while_length.
  - intros c s' Hc. simpl.
    destruct (47 =? c)%N eqn:Hc'; [|done].
    apply N.eqb_eq in Hc' as <-. discriminate.
Qed.

Lemma re_match_content line :
  re_match content_re line =
  match strip_prefix (js "//") (drop_while is_ws line) with
  | Some r =>
      Some [(3, take_while is_dot (drop_while is_ws r));
            (2, take_while is_ws r); (1, take_while is_ws line)]
  | None => None
  end.
Proof.
  rewrite js_slashes. unfold re_match, content_re. simpl.
  rewrite star_longest.
  - pose proof (take_while_length is_ws line) as Hl.
    destruct (drop_while is_ws line) as [|c [|d r]] eqn:Hd; simpl; try done.
    + by destruct (47 =? c)%N.
    + destruct (47 =? c)%N eqn:Hc; [|done].
      destruct (47 =? d)%N eqn:Hd'; [|done].
      erewrite star_greedy; [|erewrite star_greedy; reflexivity].
      simpl in Hl. by rewrite Hl, !take_while_length.
  - intros c s' Hc. simpl.
    destruct (47 =? c)%N eqn:Hc'; [|done].
    apply N.eqb_eq in Hc' as <-. discriminate.
Qed.

Lemma re_match_indent line :
  re_match indent_re line = Some [(1, take_while is_ws line)].
Proof.
  unfold re_match, indent_re. simpl.
  erewrite star_greedy; [|reflexivity]. by rewrite take_while_length.
Qed.

Lemma getCommentIndent_spec line :
  getCommentIndent line =
  match strip_prefix (js "//") (drop_while is_ws line) with
  | Some r => Some (take_while is_ws line ++ js "//" ++ take_while is_ws r)
  | None => None
  end.
Proof.
  unfold getCommentIndent. rewrite re_match_comment.
  by destruct (strip_prefix _ _).
Qed.

(** ** [trim] and comment lines *)

Lemma rtrim_cons c s :
  is_ws c = false ->
  rev (drop_while is_ws (rev (c :: s))) = c :: rev (drop_while is_ws (rev s)).
Proof.
  intros Hc. simpl. rewrite drop_while_snoc by done.
  by rewrite rev_app_distr.
Qed.

Lemma rtrim_prefix s : exists t, s = rev (drop_while is_ws (rev s)) ++ t.
Proof.
  exists (rev (take_while is_ws (rev s))).
  rewrite <- rev_app_distr, take_drop_while. by rewrite rev_involutive.
Qed.

(** A line is a comment line, [line.trim().startsWith('//')], exactly when
    [//] follows its leading white space. *)
Lemma comment_line_spec line :
  startsWith (trim line) (js "//") = true <->
  exists r, drop_while is_ws line = js "//" ++ r.
Proof.
  rewrite js_slashes. unfold trim. split.
  - destruct (drop_while is_ws line) as [|c s] eqn:Hd; [done|].
    apply drop_while_head in Hd. rewrite rtrim_cons by done.
    destruct (rtrim_prefix s) as [t Ht]. revert Ht.
    generalize (rev (drop_while is_ws (rev s))) as u. intros u Hu.
    intros [r Hr%strip_prefix_Some]%startsWith_strip.
    simpl in Hr. injection Hr as -> ->. subst s. by exists (r ++ t).
  - intros [r ->]. apply startsWith_strip. cbn [app].
    rewrite !rtrim_cons by done. simpl. eauto.
Qed.

Lemma comment_line_indent line :
  startsWith (trim line) (js "//") = true ->
  exists ci, getCommentIndent line = Some ci /\ truthy (Some ci) = true.
Proof.
  intros [r Hr]%comment_line_spec. rewrite getCommentIndent_spec, Hr.
  replace (strip_prefix _ _) with (Some r) by (symmetry; by apply strip_prefix_Some).
  eexists. split; [reflexivity|]. rewrite js_slashes.
  by destruct (take_while is_ws line).
Qed.

(** ** Directive lines *)

Lemma directive_parts_comment line p :
  directive_parts line = Some p -> startsWith (trim line) (js "//") = true.
Proof.
  unfold directive_parts. rewrite js_slashes.
  destruct (re_match directive_re (trim line)) as [m|] eqn:H; [|done].
  intros _. unfold re_match, directive_re in H. simpl in H.
  destruct (trim line) as [|c [|d t]]; simpl; try done; revert H.
  - by destruct (47 =? c)%N.
  - destruct (47 =? c)%N; [|done]. by destruct (47 =? d)%N.
Qed.

Lemma parseTemplateLine_Some line d :
  parseTemplateLine line = Ok (Some d) -> is_Some (directive_parts line).
Proof. unfold parseTemplateLine. by destruct (directive_parts line). Qed.

Lemma parseTemplateLine_Throw line :
  (exists msg, parseTemplateLine line = Throw msg) <-> malformed line.
Proof.
  unfold parseTemplateLine, malformed.
  destruct (directive_parts line) as [[command args]|].
  - destruct (block_command command) as [ty|] eqn:Hc.
    + destruct args as [|a [|a' args]]; split.
      * intros _. exists command, []. eauto.
      * eauto.
      * by intros [? ?].
      * intros (? & ? & [= <- <-] & ? & ?). done.
      * intros _. exists command, (a :: a' :: args). simpl. eauto.
      * eauto.
    + split.
      * destruct (str_eqb _ _); by intros [? ?].
      * intros (? & ? & [= <- <-] & [? ?] & ?). congruence.
  - split; [by intros [? ?] | by intros (? & ? & ? & ?)].
Qed.

Lemma parses_or_malformed line : parses line \/ malformed line.
Proof.
  destruct (parseTemplateLine line) as [d|e|] eqn:H.
  - left. by exists d.
  - right. apply parseTemplateLine_Throw. eauto.
  - by apply parseTemplateLine_fuel in H.
Qed.

Lemma parses_not_malformed line : parses line <-> ~ malformed line.
Proof.
  split.
  - intros [d Hd] [msg Hm]%parseTemplateLine_Throw. congruence.
  - intros H. by destruct (parses_or_malformed line).
Qed.

(** A directive line has a comment prefix: [baseIndent] is never [null]. *)
Lemma directive_indent line d :
  parseTemplateLine line = Ok (Some d) -> is_Some (getCommentIndent line).
Proof.
  intros [p Hp]%parseTemplateLine_Some.
  apply directive_parts_comment, comment_line_indent in Hp as (ci & -> & _).
  eauto.
Qed.

(** ** The content extractor *)

Lemma content_step_Some line base c t c' t' :
  content_step line (Some base) c t = Ok (Some (c', t')) ->
  startsWith (trim line) (js "//") = true /\ parseTemplateLine line = Ok None.
Proof.
  unfold content_step.
  destruct (startsWith _ _); [|done].
  intros (d & Hd & H)%bind_Ok. by destruct d.
Qed.

Lemma content_step_parses line base c t r :
  content_step line (Some base) c t = Ok r -> parses line.
Proof.
  unfold content_step, parses.
  destruct (startsWith _ _) eqn:Hc.
  - intros (d & Hd & H)%bind_Ok. eauto.
  - intros _. destruct (parseTemplateLine line) as [d|e|] eqn:H; eauto.
    + assert (malformed line) as (cmd & args & Hp & _)
        by (apply parseTemplateLine_Throw; eauto).
      apply directive_parts_comment in Hp. congruence.
    + by apply parseTemplateLine_fuel in H.
Qed.

Lemma content_step_total line base c t :
  parses line -> exists r, content_step line (Some base) c t = Ok r.
Proof.
  intros [d Hd]. unfold content_step.
  destruct (startsWith _ _); [|eauto].
  rewrite Hd. simpl. destruct d; [eauto|].
  destruct (truthy _); [|eauto]. simpl.
  destruct (_ || _); [|eauto].
  destruct (re_match _ _); eauto.
Qed.

Lemma content_loop_consumed rest : forall i base c t c' i' t',
  content_loop rest i (Some base) c t = Ok (c', i', t') ->
  Forall (fun l => parseTemplateLine l = Ok None) (take (i' - i) rest) /\
  Forall parses (take (S (i' - i)) rest).
Proof.
  induction rest as [|line rest IH]; intros i base c t c' i' t'; simpl.
  - intros _. by rewrite !take_nil.
  - intros (r & Hr & H)%bind_Ok.
    pose proof (content_step_parses _ _ _ _ _ Hr) as Hp.
    destruct r as [[c1 t1]|].
    + pose proof (content_loop_range _ _ _ _ _ _ _ _ H) as Hrange.
      apply IH in H as [H1 H2].
      apply content_step_Some in Hr as [_ Hr].
      replace (i' - i) with (S (i' - S i)) by lia. simpl.
      split; constructor; auto.
    + injection H as <- <- <-. rewrite Nat.sub_diag. simpl.
      rewrite take_0. split; repeat constructor; auto.
Qed.

Lemma content_loop_total rest : forall i base c t,
  Forall parses rest -> exists r, content_loop rest i (Some base) c t = Ok r.
Proof.
  induction rest as [|line rest IH]; intros i base c t Hall; simpl; [eauto|].
  apply Forall_cons in Hall as [Hl Hall].
  destruct (content_step_total line base c t Hl) as [r ->]. simpl.
  destruct r as [[c1 t1]|]; eauto.
Qed.

Lemma parseTemplateContent_total lines s base :
  Forall parses lines ->
  exists pc, parseTemplateContent lines s (Some base) = Ok pc.
Proof.
  intros Hall. unfold parseTemplateContent.
  destruct (content_loop_total (drop s lines) s base [] None) as [[[c i] t] ->].
  - by apply Forall_drop.
  - simpl. eauto.
Qed.

Lemma parseTemplateContent_consumed lines s base pc :
  parseTemplateContent lines s (Some base) = Ok pc ->
  Forall parses (take (S (pc_nextLine pc - s)) (drop s lines)).
Proof.
  unfold parseTemplateContent.
  intros ([[c i] t] & H & [= <-])%bind_Ok. simpl.
  by apply content_loop_consumed in H as [_ H].
Qed.

(** ** The search for [@endblock] *)

Lemma find_endblock_scanned rest : forall e e',
  find_endblock rest e = Ok e' ->
  Forall (fun l => exists d, parseTemplateLine l = Ok d /\ d <> Some DEndblock)
    (take (e' - e) rest) /\
  (forall l, rest !! (e' - e) = Some l ->
             parseTemplateLine l = Ok (Some DEndblock)).
Proof.
  induction rest as [|line rest IH]; intros e e'; simpl.
  - intros _. rewrite take_nil. split; [constructor | done].
  - intros (d & Hd & H)%bind_Ok.
    assert (d = Some DEndblock /\ e' = e \/
            d <> Some DEndblock /\ find_endblock rest (S e) = Ok e')
      as [[-> ->]|[Hne H']].
    { destruct d as [[]|]; try (right; split; [congruence | exact H]).
      left. split; congruence. }
    + rewrite Nat.sub_diag. simpl.
      split; [constructor | by intros l [= <-]].
    + pose proof (find_endblock_range _ _ _ H') as Hrange.
      apply IH in H' as [H1 H2].
      replace (e' - e) with (S (e' - S e)) by lia. simpl.
      split; [constructor; eauto | exact H2].
Qed.

Lemma find_endblock_total rest : forall e,
  Forall parses rest -> exists e', find_endblock rest e = Ok e'.
Proof.
  induction rest as [|line rest IH]; intros e Hall; simpl; [eauto|].
  apply Forall_cons in Hall as [[d ->] Hall]. simpl.
  destruct d as [[]|]; eauto.
Qed.

(** ** The scanner: spans, coverage, totality *)

Lemma occurrence_bounds lines b :
  occurrence lines b ->
  startLine b < endLine b /\ endLine b <= length lines /\ is_Some (b_indent b).
Proof.
  intros (_ & (line & Hl & Hd & ->) & He).
  apply lookup_lt_Some in Hl. apply find_endblock_range in He.
  rewrite length_drop in He. apply directive_indent in Hd.
  repeat split; [lia | lia | exact Hd].
Qed.

Lemma scan_step_spans lines fp lo i line st i' st' :
  lines !! i = Some line -> scan_inv lines lo i st ->
  scan_step lines fp i line st = Ok (i', st') -> scan_inv lines lo i' st'.
Proof.
  destruct st as [reg fb], st' as [reg' fb']. unfold scan_inv. simpl.
  intros Hi (Hs & He & Hall) (d & Hd & H)%scan_step_inv.
  destruct d as [[ty id| |]|];
    try (destruct H as (-> & _ & ->); repeat split; auto; lia).
  destruct (is_target ty) eqn:Hty.
  - destruct H as (e & c & Hfe & -> & ->).
    assert (occurrence lines
              {| b_type := ty; b_blockId := id; startLine := i; endLine := e;
                 b_indent := getCommentIndent line; b_content := c |}) as Hocc.
    { split; [exact Hty|]. split; [|exact Hfe]. exists line. auto. }
    pose proof (occurrence_bounds _ _ Hocc) as (Hb1 & Hb2 & _). simpl in *.
    rewrite spans_from_snoc. unfold spans_end at 2. rewrite last_snoc. simpl.
    repeat split; auto; try lia.
    apply Forall_app. split; [exact Hall|]. by constructor.
  - destruct H as (pc & Hpc%parseTemplateContent_nextLine & -> & ->).
    repeat split; auto. lia.
Qed.

Lemma scan_loop_spans lines fp fuel reg reg' fb' :
  scan_loop fuel lines fp 0 (reg, []) = Ok (reg', fb') ->
  spans_from 0 fb' /\ Forall (occurrence lines) fb'.
Proof.
  intros H.
  eapply (scan_loop_invariant (scan_inv lines 0)) in H as (i' & _ & Hs & _ & Hall).
  - auto.
  - intros. eapply scan_step_spans; eauto.
  - repeat split; simpl; auto.
Qed.

Lemma scan_step_covered lines fp i line st i' st' :
  lines !! i = Some line -> covered lines i ->
  scan_step lines fp i line st = Ok (i', st') -> covered lines i'.
Proof.
  destruct st as [reg fb], st' as [reg' fb'].
  intros Hi Hcov (d & Hd & H)%scan_step_inv k l Hk Hl.
  assert (k < i \/ k = i \/ i < k) as [?|[->|Hik]] by lia;
    [eapply Hcov; eauto | exists d; congruence |].
  destruct d as [[ty id| |]|]; try (destruct H as (-> & _); lia).
  destruct (directive_indent _ _ Hd) as [ci Hci].
  destruct (is_target ty).
  - destruct H as (e & c & Hfe & -> & _).
    pose proof (find_endblock_range _ _ _ Hfe) as Hrange.
    apply find_endblock_scanned in Hfe as [H1 H2].
    assert (k < e \/ k = e) as [?| ->] by lia.
    + rewrite Forall_lookup in H1.
      destruct (H1 (k - (i + 1)) l) as (d' & Hd' & _); [|by exists d'].
      rewrite lookup_take_lt by lia. rewrite lookup_drop.
      by replace (i + 1 + (k - (i + 1))) with k by lia.
    + eexists. apply H2. rewrite lookup_drop.
      by replace (i + 1 + (e - (i + 1))) with e by lia.
  - destruct H as (pc & Hpc & -> & _). rewrite Hci in Hpc.
    apply parseTemplateContent_consumed in Hpc.
    rewrite Forall_lookup in Hpc. apply (Hpc (k - (i + 1))).
    rewrite lookup_take_lt by lia. rewrite lookup_drop.
    by replace (i + 1 + (k - (i + 1))) with k by lia.
Qed.

Lemma scan_loop_parses lines fp fuel st st' :
  scan_loop fuel lines fp 0 st = Ok st' -> Forall parses lines.
Proof.
  intros H.
  eapply (scan_loop_invariant (fun i _ => covered lines i)) in H
    as (i' & Hi' & Hcov).
  - apply Forall_lookup. intros k l Hl. eapply Hcov; [|exact Hl].
    apply lookup_lt_Some in Hl. lia.
  - intros. eapply scan_step_covered; eauto.
  - intros k l Hk. lia.
Qed.

Lemma scan_step_total lines fp i line st :
  lines !! i = Some line -> Forall parses lines ->
  exists r, scan_step lines fp i line st = Ok r.
Proof.
  intros Hi Hall. destruct st as [reg fb]. unfold scan_step.
  assert (parses line) as [d Hd]
    by (rewrite Forall_lookup in Hall; eauto).
  rewrite Hd. simpl.
  destruct d as [[ty id| |]|]; eauto.
  destruct (directive_indent _ _ Hd) as [ci ->].
  destruct (find_endblock_total (drop (i + 1) lines) (i + 1)) as [e He];
    [by apply Forall_drop|].
  destruct (parseTemplateContent_total lines (i + 1) ci Hall) as [pc Hpc].
  destruct ty; rewrite ?He, ?Hpc; simpl; eauto.
Qed.

Lemma scan_loop_total lines fp : forall fuel i st,
  Forall parses lines -> length lines - i <= fuel ->
  exists st', scan_loop fuel lines fp i st = Ok st'.
Proof.
  induction fuel as [|fuel IH]; intros i st Hall Hfuel; simpl.
  - destruct (lines !! i) eqn:Hi; [|eauto].
    apply lookup_lt_Some in Hi. lia.
  - destruct (lines !! i) as [line|] eqn:Hi; [|eauto].
    destruct (scan_step_total lines fp i line st Hi Hall) as [[i1 st1] H1].
    rewrite H1. simpl. apply IH; [exact Hall|].
    apply scan_step_progress in H1. lia.
Qed.

(** ** [parseFile] and [parseFiles] *)

Lemma parseFile_inv this fp content this' :
  parseFile this fp content = Ok this' ->
  Forall parses (split_lines content) /\
  exists fd,
    files this' = files_set (files this) fp fd /\
    f_lines fd = split_lines content /\ wf_file fd.
Proof.
  unfold parseFile. intros ([reg fb] & H & [= <-])%bind_Ok. simpl.
  split; [by eapply scan_loop_parses|].
  eexists. split; [reflexivity|]. split; [reflexivity|].
  by eapply scan_loop_spans.
Qed.

Lemma parseFile_total this fp content :
  Forall parses (split_lines content) ->
  exists this', parseFile this fp content = Ok this'.
Proof.
  intros Hall. unfold parseFile.
  destruct (scan_loop_total (split_lines content) fp
              (length (split_lines content)) 0 (blocks this, []) Hall)
    as [[reg fb] ->]; [lia|].
  simpl. eauto.
Qed.

Lemma parseFile_fuel this fp content :
  parseFile this fp content <> OutOfFuel.
Proof.
  unfold parseFile.
  intros [H|([reg fb] & _ & H)]%bind_OutOfFuel; [|discriminate].
  apply scan_loop_enough_fuel in H; [exact H | lia].
Qed.

Lemma parseFiles_fuel inputs : forall this,
  parseFiles this inputs <> OutOfFuel.
Proof.
  induction inputs as [|[fp content] inputs IH]; intros this; simpl;
    [discriminate|].
  intros [H|(this' & _ & H)]%bind_OutOfFuel;
    [by apply parseFile_fuel in H | by apply IH in H].
Qed.

Lemma parseFiles_parses inputs : forall this this',
  parseFiles this inputs = Ok this' -> all_parse inputs.
Proof.
  induction inputs as [|[fp content] inputs IH]; intros this this'; simpl.
  - intros _. constructor.
  - intros (this1 & H1 & H)%bind_Ok. constructor.
    + by apply parseFile_inv in H1 as [H1 _].
    + by eapply IH.
Qed.

Lemma parseFiles_total inputs : forall this,
  all_parse inputs -> exists this', parseFiles this inputs = Ok this'.
Proof.
  induction inputs as [|[fp content] inputs IH]; intros this Hall; simpl;
    [eauto|].
  apply Forall_cons in Hall as [H1 Hall].
  destruct (parseFile_total this fp content H1) as [this1 ->]. simpl.
  by apply IH.
Qed.

Lemma files_set_wf files fp fd :
  Forall (fun e => wf_file e.2) files -> wf_file fd ->
  Forall (fun e => wf_file e.2) (files_set files fp fd).
Proof.
  intros Hall Hfd. induction files as [|[p d] files IH]; simpl.
  - constructor; [exact Hfd | constructor].
  - apply Forall_cons in Hall as [Hd Hall].
    destruct (str_eqb p fp); constructor; auto.
Qed.

Lemma parseFiles_wf inputs : forall this this',
  Forall (fun e => wf_file e.2) (files this) ->
  parseFiles this inputs = Ok this' ->
  Forall (fun e => wf_file e.2) (files this').
Proof.
  induction inputs as [|[fp content] inputs IH]; intros this this' Hwf; simpl.
  - by intros [= <-].
  - intros (this1 & H1 & H)%bind_Ok. eapply IH; [|exact H].
    apply parseFile_inv in H1 as (_ & fd & -> & _ & Hfd).
    by apply files_set_wf.
Qed.

(** ** Pass 2: patching one file *)

Lemma take_split {A} (l : list A) : forall lo n,
  lo <= n -> take n l = take lo l ++ take (n - lo) (drop lo l).
Proof.
  induction l as [|a l IH]; intros lo n Hle.
  - by rewrite drop_nil, !take_nil.
  - destruct lo as [|lo]; [by rewrite Nat.sub_0_r|].
    destruct n as [|n]; [lia|]. simpl. f_equal. apply IH. lia.
Qed.

(** The two loops over a span read the lines of that span only. *)
Lemma find_existingIndent_ext nl lines : forall n j,
  (forall k, j <= k < j + n -> nl !! k = lines !! k) ->
  find_existingIndent nl j n = find_existingIndent lines j n.
Proof.
  induction n as [|n IH]; intros j Hagree; simpl; [done|].
  rewrite (Hagree j) by lia.
  destruct (lines !! j) as [line|]; [|done].
  rewrite (IH (S j)) by (intros; apply Hagree; lia). done.
Qed.

Lemma find_preserved_ext nl lines ind : forall n j,
  (forall k, j <= k < j + n -> nl !! k = lines !! k) ->
  find_preserved nl ind j n = find_preserved lines ind j n.
Proof.
  induction n as [|n IH]; intros j Hagree; simpl; [done|].
  rewrite (Hagree j) by lia.
  destruct (lines !! j) as [line|]; [|done].
  rewrite (IH (S j)) by (intros; apply Hagree; lia). done.
Qed.

Lemma replacement_ext reg b nl lines :
  (forall k, startLine b < k < endLine b -> nl !! k = lines !! k) ->
  replacement reg b nl = replacement reg b lines.
Proof.
  intros Hagree. unfold replacement.
  rewrite (find_existingIndent_ext nl lines) by (intros; apply Hagree; lia).
  rewrite (find_preserved_ext nl lines) by (intros; apply Hagree; lia).
  done.
Qed.

Lemma find_existingIndent_total lines : forall n j,
  j + n <= length lines -> exists ind, find_existingIndent lines j n = Ok ind.
Proof.
  induction n as [|n IH]; intros j Hlen; simpl; [eauto|].
  destruct (lookup_lt_is_Some_2 lines j) as [line ->]; [lia|].
  rewrite re_match_indent.
  destruct (_ && _); [eauto|]. apply IH. lia.
Qed.

Lemma preserves_total base line : exists keep, preserves (Some base) line = Ok keep.
Proof.
  unfold preserves.
  destruct (startsWith _ _); [|eauto].
  destruct (truthy _); [|eauto]. simpl.
  destruct (_ <=? _); [|eauto].
  destruct (re_match _ _); eauto.
Qed.

Lemma find_preserved_total lines base : forall n j,
  j + n <= length lines ->
  exists pres, find_preserved lines (Some base) j n = Ok pres.
Proof.
  induction n as [|n IH]; intros j Hlen; simpl; [eauto|].
  destruct (lookup_lt_is_Some_2 lines j) as [line ->]; [lia|].
  destruct (preserves_total base line) as [keep ->]. simpl.
  destruct keep; [|eauto].
  destruct (IH (S j)) as [pres ->]; [lia|]. simpl. eauto.
Qed.

Lemma replacement_total reg lines b :
  occurrence lines b -> exists r, replacement reg b lines = Ok r.
Proof.
  intros (Hs & He & [base Hbase])%occurrence_bounds. unfold replacement.
  destruct (find_existingIndent_total lines (endLine b - (startLine b + 1))
              (startLine b + 1)) as [ind ->]; [lia|].
  simpl. rewrite Hbase.
  destruct (find_preserved_total lines base (endLine b - (startLine b + 1))
              (startLine b + 1)) as [pres Hpres]; [lia|].
  destruct (b_type b); rewrite ?Hpres; simpl; eauto.
Qed.

Lemma patch_loop_app reg l1 : forall l2 m nl,
  patch_loop reg (l1 ++ l2) m nl =
  '(m', nl') ← patch_loop reg l1 m nl; patch_loop reg l2 m' nl'.
Proof.
  induction l1 as [|b l1 IH]; intros l2 m nl; simpl; [done|].
  destruct (b_type b); try apply IH;
    destruct (patch_block reg b nl); simpl; auto.
Qed.

(** The reverse-order splices rebuild the file from the untouched lines
    around the spans and the replacement of each span, each computed from
    the lines of the file as it was read. *)
Lemma patch_loop_assemble reg lines bs : forall lo m,
  spans_from lo bs -> Forall (occurrence lines) bs ->
  exists repls,
    Forall2 (fun b r => replacement reg b lines = Ok r) bs repls /\
    patch_loop reg (rev bs) m lines
    = Ok (match bs with [] => m | _ => true end,
          take lo lines ++ assemble lines lo bs repls).
Proof.
  induction bs as [|b bs IH]; intros lo m Hs Hocc.
  - exists []. split; [constructor|]. simpl. by rewrite take_drop.
  - destruct Hs as (Hlo & Hse & Hs).
    apply Forall_cons in Hocc as [Hb Hocc].
    destruct (IH (endLine b) m) as (repls & Hrepls & Hloop);
      [eapply spans_from_weaken; [|exact Hs]; lia | exact Hocc |].
    destruct (replacement_total reg lines b Hb) as [r Hr].
    pose proof (occurrence_bounds _ _ Hb) as (_ & He & _).
    exists (r :: repls). split; [by constructor|].
    simpl rev. rewrite patch_loop_app, Hloop. simpl.
    destruct Hb as (Hty & _ & _).
    assert (patch_block reg b (take (endLine b) lines
                                 ++ assemble lines (endLine b) bs repls)
            = Ok (take lo lines ++ assemble lines lo (b :: bs) (r :: repls)))
      as Hpatch.
    { unfold patch_block. rewrite (replacement_ext _ _ _ lines).
      - rewrite Hr. simpl. f_equal. unfold splice.
        replace (startLine b + 1 + (endLine b - (startLine b + 1)))
          with (endLine b) by lia.
        rewrite take_app_le by (rewrite length_take; lia).
        rewrite take_take, Nat.min_l by lia.
        rewrite drop_app_length' by (rewrite length_take; lia).
        rewrite (app_assoc (take lo lines)). f_equal.
        apply take_split. lia.
      - intros k Hk. rewrite lookup_app_l by (rewrite length_take; lia).
        apply lookup_take_lt. lia. }
    destruct (b_type b); try discriminate; rewrite Hpatch; simpl; done.
Qed.

Lemma patch_file_spec reg fd :
  wf_file fd ->
  exists repls,
    Forall2 (fun b r => replacement reg b (f_lines fd) = Ok r)
      (f_blocks fd) repls /\
    patch_file reg fd
    = Ok (match f_blocks fd with [] => false | _ => true end,
          assemble (f_lines fd) 0 (f_blocks fd) repls).
Proof.
  intros [Hs Hocc]. unfold patch_file.
  destruct (patch_loop_assemble reg (f_lines fd) (f_blocks fd) 0 false Hs Hocc)
    as (repls & Hrepls & ->).
  exists repls. split; [exact Hrepls|]. by rewrite take_0.
Qed.

(** ** Pass 2: the whole run *)

Lemma patch_file_output reg e :
  wf_file e.2 ->
  exists repls,
    Forall2 (fun b r => replacement reg b (f_lines e.2) = Ok r)
      (f_blocks e.2) repls /\
    patch_file reg e.2
    = Ok (match f_blocks e.2 with [] => false | _ => true end,
          assemble (f_lines e.2) 0 (f_blocks e.2) repls) /\
    output_of reg e
    = match f_blocks e.2 with
      | [] => None
      | _ => Some (e.1, join_lines (assemble (f_lines e.2) 0 (f_blocks e.2) repls))
      end.
Proof.
  intros Hwf. destruct (patch_file_spec reg e.2 Hwf) as (repls & Hrepls & Hp).
  exists repls. split; [exact Hrepls|]. split; [exact Hp|].
  unfold output_of. rewrite Hp. by destruct (f_blocks e.2).
Qed.

Lemma generateOutput_loop_spec reg entries : forall log,
  Forall (fun e => wf_file e.2) entries ->
  generateOutput_loop reg entries log
  = {| writes := log ++ omap (output_of reg) entries; status := Ok () |}.
Proof.
  induction entries as [|[fp fd] entries IH]; intros log Hwf; simpl.
  - by rewrite app_nil_r.
  - apply Forall_cons in Hwf as [Hfd Hwf].
    destruct (patch_file_output reg (fp, fd) Hfd) as (repls & _ & Hp & Hout).
    simpl in Hp, Hout. rewrite Hout, Hp.
    destruct (f_blocks fd); rewrite IH by exact Hwf; [done|].
    by rewrite <- app_assoc.
Qed.

Lemma generateOutput_spec this :
  Forall (fun e => wf_file e.2) (files this) ->
  generateOutput this
  = {| writes := omap (output_of (blocks this)) (files this);
       status := Ok () |}.
Proof. intros Hwf. unfold generateOutput. by rewrite generateOutput_loop_spec. Qed.

(** A run either fails in pass 1, before anything is written, or goes
    through both passes. *)
Lemma process_spec inputs :
  inputs <> [] ->
  (exists msg, parseFiles reset inputs = Throw msg /\
               process inputs = {| writes := []; status := Throw msg |}) \/
  (exists this, parseFiles reset inputs = Ok this /\
                Forall (fun e => wf_file e.2) (files this) /\
                process inputs
                = {| writes := omap (output_of (blocks this)) (files this);
                     status := Ok () |}).
Proof.
  intros Hne. unfold process. destruct inputs as [|input inputs]; [done|].
  destruct (parseFiles reset (input :: inputs)) as [this|msg|] eqn:Hp.
  - right. exists this. split; [done|].
    assert (Forall (fun e => wf_file e.2) (files this)) as Hwf
      by (eapply parseFiles_wf; [|exact Hp]; constructor).
    split; [exact Hwf|]. by apply generateOutput_spec.
  - left. eauto.
  - by apply parseFiles_fuel in Hp.
Qed.

(** ** The scanner records every [block_default] and [block] directive *)

Lemma scan_step_recorded lines fp i line st i' st' :
  lines !! i = Some line -> recorded lines i st.2 ->
  scan_step lines fp i line st = Ok (i', st') -> recorded lines i' st'.2.
Proof.
  destruct st as [reg fb], st' as [reg' fb']. simpl.
  intros Hi Hrec (d & Hd & H)%scan_step_inv k l ty id Hk Hl Hkd Hty.
  assert (k < i \/ i <= k) as [Hlt|Hge] by lia.
  { destruct (Hrec k l ty id Hlt Hl Hkd Hty) as (b & Hb & Hin).
    exists b. split; [|exact Hin].
    destruct d as [[ty' id'| |]|]; try (by destruct H as (_ & _ & ->)).
    destruct (is_target ty').
    - destruct H as (e & c & _ & _ & ->). apply elem_of_app. by left.
    - by destruct H as (pc & _ & _ & ->). }
  destruct d as [[ty' id'| |]|];
    try (destruct H as (-> & _ & _); assert (k = i) as -> by lia; congruence).
  destruct (directive_indent _ _ Hd) as [ci Hci].
  destruct (is_target ty') eqn:Hty'.
  - destruct H as (e & c & _ & -> & ->). eexists. split.
    + apply elem_of_app. right. apply list_elem_of_singleton. reflexivity.
    + simpl. lia.
  - destruct H as (pc & Hpc & -> & _). rewrite Hci in Hpc.
    assert (k = i \/ i < k) as [->|Hik] by lia; [congruence|].
    unfold parseTemplateContent in Hpc.
    apply bind_Ok in Hpc as ([[c' n] t'] & Hloop & [= <-]). simpl in Hk.
    apply content_loop_consumed in Hloop as [Hloop _].
    rewrite Forall_lookup in Hloop.
    specialize (Hloop (k - (i + 1)) l).
    rewrite lookup_take_lt, lookup_drop in Hloop by lia.
    replace (i + 1 + (k - (i + 1))) with k in Hloop by lia.
    specialize (Hloop Hl). congruence.
Qed.

Lemma scan_loop_recorded lines fp fuel reg reg' fb' :
  scan_loop fuel lines fp 0 (reg, []) = Ok (reg', fb') ->
  recorded lines (length lines) fb'.
Proof.
  intros H.
  eapply (scan_loop_invariant (fun i st => recorded lines i st.2)) in H
    as (i' & Hi' & Hrec).
  - intros k l ty id Hk. apply Hrec. lia.
  - intros. eapply scan_step_recorded; eauto.
  - intros k l ty id Hk. lia.
Qed.


(** ** Where an exception of pass 1 comes from *)

Lemma parseTemplateLine_message line msg :
  parseTemplateLine line = Throw msg ->
  exists command args,
    directive_parts line = Some (command, args) /\
    is_Some (block_command command) /\ length args <> 1 /\
    msg = invalid_message command.
Proof.
  unfold parseTemplateLine.
  destruct (directive_parts line) as [[command args]|]; [|done].
  destruct (block_command command) as [ty|] eqn:Hc.
  - destruct args as [|a [|a' args]]; intros [= <-]; try done;
      exists command; eexists; repeat split; eauto.
  - by destruct (str_eqb _ _).
Qed.

Lemma content_step_Throw line base c t msg :
  content_step line (Some base) c t = Throw msg ->
  parseTemplateLine line = Throw msg.
Proof.
  unfold content_step.
  destruct (startsWith _ _); [|done].
  intros [H|(d & Hd & H)]%bind_Throw; [exact H|].
  destruct d; [done|].
  destruct (truthy _); [|done]. simpl in H.
  destruct (_ || _); [|done].
  by destruct (re_match _ _).
Qed.

Lemma content_loop_Throw rest : forall i base c t msg,
  content_loop rest i (Some base) c t = Throw msg ->
  exists l, l ∈ rest /\ parseTemplateLine l = Throw msg.
Proof.
  induction rest as [|line rest IH]; intros i base c t msg; simpl; [done|].
  intros [H|(r & _ & H)]%bind_Throw.
  - exists line. split; [apply list_elem_of_here | by eapply content_step_Throw].
  - destruct r as [[c1 t1]|]; [|done].
    apply IH in H as (l & Hl & H). exists l. split; [by apply list_elem_of_further | exact H].
Qed.

Lemma parseTemplateContent_Throw lines s base msg :
  parseTemplateContent lines s (Some base) = Throw msg ->
  exists l, l ∈ lines /\ parseTemplateLine l = Throw msg.
Proof.
  unfold parseTemplateContent.
  intros [H|([[c i] t] & _ & H)]%bind_Throw; [|done].
  apply content_loop_Throw in H as (l & Hl & H).
  exists l. split; [|exact H].
  apply list_elem_of_lookup in Hl as [k Hk]. rewrite lookup_drop in Hk.
  by eapply list_elem_of_lookup_2.
Qed.

Lemma find_endblock_Throw rest : forall e msg,
  find_endblock rest e = Throw msg ->
  exists l, l ∈ rest /\ parseTemplateLine l = Throw msg.
Proof.
  induction rest as [|line rest IH]; intros e msg; simpl; [done|].
  intros [H|(d & _ & H)]%bind_Throw.
  - exists line. split; [apply list_elem_of_here | exact H].
  - assert (find_endblock rest (S e) = Throw msg) as H'
      by (destruct d as [[]|]; done).
    apply IH in H' as (l & Hl & H'). exists l.
    split; [by apply list_elem_of_further | exact H'].
Qed.

Lemma scan_step_Throw lines fp i line st msg :
  lines !! i = Some line ->
  scan_step lines fp i line st = Throw msg ->
  exists l, l ∈ lines /\ parseTemplateLine l = Throw msg.
Proof.
  intros Hi. destruct st as [reg fb]. unfold scan_step.
  intros [H|(d & Hd & H)]%bind_Throw.
  { exists line. split; [by eapply list_elem_of_lookup_2 | exact H]. }
  destruct d as [[ty id| |]|]; try done.
  destruct (directive_indent _ _ Hd) as [ci Hci]. rewrite Hci in H.
  assert (forall e', find_endblock (drop (i + 1) lines) (i + 1) = Throw e' ->
                     exists l, l ∈ lines /\ parseTemplateLine l = Throw e') as Hfe.
  { intros e' (l & Hl & H')%find_endblock_Throw. exists l. split; [|exact H'].
    apply list_elem_of_lookup in Hl as [k Hk]. rewrite lookup_drop in Hk.
    by eapply list_elem_of_lookup_2. }
  destruct ty.
  - apply bind_Throw in H as [H|(e & _ & H)]; [by apply Hfe|].
    apply bind_Throw in H as [H|(c & _ & H)]; [|done].
    apply bind_Throw in H as [H|(pc & _ & H)]; [|done].
    by eapply parseTemplateContent_Throw.
  - apply bind_Throw in H as [H|(pc & _ & H)]; [|done].
    by eapply parseTemplateContent_Throw.
  - apply bind_Throw in H as [H|(pc & _ & H)]; [|done].
    by eapply parseTemplateContent_Throw.
  - apply bind_Throw in H as [H|(e & _ & H)]; [by apply Hfe|].
    apply bind_Throw in H as [H|(c & _ & H)]; done.
Qed.

Lemma scan_loop_Throw lines fp : forall fuel i st msg,
  scan_loop fuel lines fp i st = Throw msg ->
  exists l, l ∈ lines /\ parseTemplateLine l = Throw msg.
Proof.
  induction fuel as [|fuel IH]; intros i st msg; simpl;
    destruct (lines !! i) as [line|] eqn:Hi; try done.
  intros [H|([i1 st1] & _ & H)]%bind_Throw.
  - by eapply scan_step_Throw.
  - by eapply IH.
Qed.

Lemma parseFiles_Throw inputs : forall this msg,
  parseFiles this inputs = Throw msg ->
  exists l, in_inputs inputs l /\ parseTemplateLine l = Throw msg.
Proof.
  induction inputs as [|[fp content] inputs IH]; intros this msg; simpl;
    [done|].
  intros [H|(this1 & _ & H)]%bind_Throw.
  - unfold parseFile in H.
    apply bind_Throw in H as [H|([reg fb] & _ & H)]; [|done].
    apply scan_loop_Throw in H as (l & Hl & H).
    exists l. split; [|exact H]. exists fp, content.
    split; [apply list_elem_of_here | exact Hl].
  - apply IH in H as (l & (fp' & content' & Hin & Hl) & H).
    exists l. split; [|exact H]. exists fp', content'.
    split; [by apply list_elem_of_further | exact Hl].
Qed.

Lemma all_parse_spec inputs :
  all_parse inputs <-> forall l, in_inputs inputs l -> ~ malformed l.
Proof.
  unfold all_parse. rewrite Forall_forall. split.
  - intros Hall l (fp & content & Hin & Hl).
    apply parses_not_malformed.
    specialize (Hall _ Hin). rewrite Forall_forall in Hall. by apply Hall.
  - intros Hall [fp content] Hin. apply Forall_forall. intros l Hl.
    apply parses_not_malformed, Hall. by exists fp, content.
Qed.

(** ** The records of a run *)

Lemma parseFile_scanned this fp content this' :
  parseFile this fp content = Ok this' ->
  exists fd, files this' = files_set (files this) fp fd /\ scanned content fd.
Proof.
  unfold parseFile. intros ([reg fb] & H & [= <-])%bind_Ok. simpl.
  eexists. split; [reflexivity|]. split; [reflexivity|]. simpl.
  split; [by eapply scan_loop_spans | by eapply scan_loop_recorded].
Qed.

Lemma files_set_elem_inv files fp fd fp' fd' :
  (fp', fd') ∈ files_set files fp fd ->
  (fp', fd') ∈ files \/ (fp' = fp /\ fd' = fd).
Proof.
  induction files as [|[p d] files IH]; simpl.
  - intros [= -> ->]%list_elem_of_singleton. by right.
  - unfold str_eqb. case_bool_decide as Hp.
    + intros [[= -> ->]|H]%elem_of_cons; [by right|].
      left. by apply list_elem_of_further.
    + intros [[= -> ->]|H]%elem_of_cons; [left; apply list_elem_of_here|].
      apply IH in H as [H|H]; [left; by apply list_elem_of_further | by right].
Qed.

Lemma files_set_keys files fp fd fp' :
  fp' ∈ (files_set files fp fd).*1 <-> fp' ∈ files.*1 \/ fp' = fp.
Proof.
  induction files as [|[p d] files IH]; simpl.
  - rewrite list_elem_of_singleton. split; [by right | by intros [[]%elem_of_nil|]].
  - unfold str_eqb. case_bool_decide as Hp; simpl.
    + subst p. rewrite elem_of_cons. tauto.
    + rewrite !elem_of_cons, IH. tauto.
Qed.

Lemma files_set_NoDup files fp fd :
  NoDup files.*1 -> NoDup (files_set files fp fd).*1.
Proof.
  induction files as [|[p d] files IH]; simpl.
  - intros _. apply NoDup_singleton.
  - intros [Hp Hnd]%NoDup_cons. unfold str_eqb.
    case_bool_decide as Hpeq; simpl; apply NoDup_cons; split; auto.
    rewrite files_set_keys. intros [?|?]; [by apply Hp | by apply Hpeq].
Qed.

Lemma parseFiles_entries inputs : forall this this',
  parseFiles this inputs = Ok this' ->
  NoDup (files this).*1 ->
  NoDup (files this').*1 /\
  forall fp fd,
    (fp, fd) ∈ files this' ->
    (fp, fd) ∈ files this \/
    exists content, (fp, content) ∈ inputs /\ scanned content fd.
Proof.
  induction inputs as [|[fp0 content0] inputs IH]; intros this this'; simpl.
  - intros [= <-] Hnd. split; [exact Hnd | by left].
  - intros (this1 & H1 & H)%bind_Ok Hnd.
    apply parseFile_scanned in H1 as (fd0 & Hfiles & Hsc).
    destruct (IH _ _ H) as [Hnd' Hent];
      [rewrite Hfiles; by apply files_set_NoDup|].
    split; [exact Hnd'|]. intros fp fd Hin.
    destruct (Hent fp fd Hin) as [H1|(content & Hc & Hs)].
    + rewrite Hfiles in H1.
      apply files_set_elem_inv in H1 as [H1|[-> ->]]; [by left|].
      right. exists content0. split; [apply list_elem_of_here | exact Hsc].
    + right. exists content. split; [by apply list_elem_of_further | exact Hs].
Qed.

(** * The claims *)

(** ** Scanner termination *)

(** C10.  The scanning loop of [parseFile] terminates on every list of
    lines: an iteration at line [i] that returns moves the index to [i + 1]
    on a line that opens no block, to [endLine + 1 >= i + 2] on
    [block_default] and [block], and to [nextLine >= i + 1] on
    [block_replace] and [block_append]; [parseTemplateContent] never returns
    a [nextLine] below its start index; so with [lines.length - i]
    iterations allowed the loop from line [i] is never cut off, and allowing
    more changes nothing. *)
Theorem scanner_terminates (lines : list jsstring) (filePath : jsstring) :
  (forall i line st i' st',
      lines !! i = Some line ->
      scan_step lines filePath i line st = Ok (i', st') ->
      exists d, parseTemplateLine line = Ok d /\
      match d with
      | Some (DBlock ty _) =>
          if is_target ty then
            exists endLine,
              find_endblock (drop (i + 1) lines) (i + 1) = Ok endLine /\
              i' = endLine + 1 /\ i + 2 <= i'
          else
            exists pc,
              parseTemplateContent lines (i + 1) (getCommentIndent line)
              = Ok pc /\
              i' = pc_nextLine pc /\ i + 1 <= i'
      | _ => i' = i + 1
      end) /\
  (forall startIdx baseIndent pc,
      parseTemplateContent lines startIdx baseIndent = Ok pc ->
      startIdx <= pc_nextLine pc) /\
  (forall fuel i st,
      length lines - i <= fuel ->
      scan_loop fuel lines filePath i st <> OutOfFuel /\
      scan_loop fuel lines filePath i st
      = scan_loop (length lines - i) lines filePath i st).
Proof.
  split; [|split].
  - intros i line [reg fb] i' [reg' fb'] Hi (d & Hd & H)%scan_step_inv.
    exists d. split; [exact Hd|].
    destruct d as [[ty id| |]|]; try tauto.
    destruct (is_target ty).
    + destruct H as (e & c & He & -> & _). exists e.
      apply find_endblock_range in He as He'. repeat split; auto; lia.
    + destruct H as (pc & Hpc & -> & _). exists pc.
      apply parseTemplateContent_nextLine in Hpc as Hpc'. repeat split; auto; lia.
  - intros s b pc Hpc. by apply parseTemplateContent_nextLine in Hpc as [? _].
  - intros fuel i st Hfuel. split.
    + by apply scan_loop_enough_fuel.
    + by apply scan_loop_fuel_irrelevant.
Qed.

(** A file of three lines, with one block. *)
Definition three_lines : list jsstring :=
  [js "// @block_default X"; js "x"; js "// @endblock"].

Lemma scanner_terminates_witness :
  scan_loop 5 three_lines (js "a.c") 0 (∅, []) <> OutOfFuel /\
  scan_loop 5 three_lines (js "a.c") 0 (∅, [])
  = scan_loop (length three_lines - 0) three_lines (js "a.c") 0 (∅, []).
Proof.
  apply (proj2 (proj2 (scanner_terminates three_lines (js "a.c")))).
  simpl. lia.
Defined.

(** ** Disjoint spans *)

Lemma files_set_elem files fp fd : (fp, fd) ∈ files_set files fp fd.
Proof.
  induction files as [|[p d] files IH]; simpl.
  - apply list_elem_of_singleton. reflexivity.
  - unfold str_eqb. case_bool_decide as Hp.
    + subst p. apply list_elem_of_here.
    + by apply list_elem_of_further.
Qed.

Lemma spans_from_last_bound lines bs : forall lo,
  spans_from lo bs -> Forall (occurrence lines) bs -> bs <> [] ->
  lo < length lines.
Proof.
  destruct bs as [|b bs]; [done|]. intros lo (Hlo & Hse & _) Hocc _.
  apply Forall_cons in Hocc as [Hb%occurrence_bounds _]. lia.
Qed.

Lemma spans_from_app bs1 : forall bs2 lo,
  spans_from lo (bs1 ++ bs2) ->
  spans_from lo bs1 /\ spans_from (spans_end lo bs1) bs2.
Proof.
  unfold spans_end.
  induction bs1 as [|a bs1 IH]; intros bs2 lo; simpl; [tauto|].
  intros (Hlo & Ha & Hs). apply IH in Hs as [Hs1 Hs2].
  rewrite last_cons. destruct (last bs1); tauto.
Qed.

(** C9.  In the record [parseFile] makes of a file, the blocks are in
    strictly increasing order of [startLine] and their spans are disjoint:
    each one ends before the next one starts (and lies within the file).
    Hence, when the reverse loop of [generateOutput] comes to a block, having
    spliced all the later ones, the lines up to and including the end of
    that block are still those of the file as it was read. *)
Theorem scanner_spans_disjoint (this : Parser) (filePath content : jsstring)
  (this' : Parser) :
  parseFile this filePath content = Ok this' ->
  exists fd,
    (filePath, fd) ∈ files this' /\ f_lines fd = split_lines content /\
    (forall k1 k2 b1 b2,
        k1 < k2 -> f_blocks fd !! k1 = Some b1 -> f_blocks fd !! k2 = Some b2 ->
        startLine b1 < startLine b2 /\ endLine b1 < startLine b2) /\
    (forall b, b ∈ f_blocks fd ->
               is_target (b_type b) = true /\
               startLine b < endLine b <= length (f_lines fd)) /\
    (forall reg bs1 b bs2 modified,
        f_blocks fd = bs1 ++ b :: bs2 ->
        exists modified' newLines,
          patch_loop reg (rev bs2) modified (f_lines fd)
          = Ok (modified', newLines) /\
          take (endLine b + 1) newLines = take (endLine b + 1) (f_lines fd)).
Proof.
  intros (_ & fd & Hfiles & Hlines & Hs & Hocc)%parseFile_inv.
  exists fd. rewrite Hfiles. split; [apply files_set_elem|].
  split; [exact Hlines|]. split; [|split].
  - intros k1 k2 b1 b2 Hk H1 H2.
    destruct (spans_from_lookup _ _ _ _ _ _ Hs Hk H1 H2). lia.
  - intros b Hb. rewrite Forall_forall in Hocc.
    pose proof (Hocc b Hb) as Hob.
    pose proof (occurrence_bounds _ _ Hob) as (? & ? & _).
    destruct Hob as (? & _). auto.
  - intros reg bs1 b bs2 m Hsplit. rewrite Hsplit in Hs, Hocc.
    apply spans_from_app in Hs as [_ Hs]. destruct Hs as (_ & _ & Hs).
    apply Forall_app in Hocc as [_ Hocc].
    apply Forall_cons in Hocc as [Hb Hocc].
    destruct (patch_loop_assemble reg (f_lines fd) bs2 (endLine b + 1) m Hs Hocc)
      as (repls & _ & ->).
    do 2 eexists. split; [reflexivity|].
    destruct bs2 as [|b2 bs2].
    + simpl. by rewrite take_drop.
    + assert (endLine b + 1 < length (f_lines fd))
        by (eapply spans_from_last_bound; eauto).
      rewrite take_app_le by (rewrite length_take; lia).
      rewrite take_take. f_equal. lia.
Qed.

(** A file with two blocks, and what [parseFile] makes of it. *)
Definition two_blocks : jsstring := js "// @block A
a
// @endblock
// @block_default B
//   b
// @endblock".

Definition two_blocks_parsed : Parser :=
  Eval vm_compute in
    match parseFile reset (js "a.c") two_blocks with
    | Ok this => this
    | _ => reset
    end.

Lemma scanner_spans_disjoint_witness :
  exists fd,
    (js "a.c", fd) ∈ files two_blocks_parsed /\
    f_lines fd = split_lines two_blocks /\
    (forall k1 k2 b1 b2,
        k1 < k2 -> f_blocks fd !! k1 = Some b1 -> f_blocks fd !! k2 = Some b2 ->
        startLine b1 < startLine b2 /\ endLine b1 < startLine b2) /\
    (forall b, b ∈ f_blocks fd ->
               is_target (b_type b) = true /\
               startLine b < endLine b <= length (f_lines fd)) /\
    (forall reg bs1 b bs2 modified,
        f_blocks fd = bs1 ++ b :: bs2 ->
        exists modified' newLines,
          patch_loop reg (rev bs2) modified (f_lines fd)
          = Ok (modified', newLines) /\
          take (endLine b + 1) newLines = take (endLine b + 1) (f_lines fd)).
Proof.
  apply (scanner_spans_disjoint reset (js "a.c") two_blocks two_blocks_parsed).
  vm_compute. reflexivity.
Defined.

(** ** Block resolution *)

Lemma foldl_appends (base : list Item) (apps : list Entry) :
  foldl (fun result append => result ++ e_content append) base apps
  = base ++ concat (map e_content apps).
Proof.
  revert base. induction apps as [|a apps IH]; intros base; simpl.
  - by rewrite app_nil_r.
  - by rewrite IH, <- app_assoc.
Qed.

(** The last replace if there is one, else the default if there is one,
    then every append in order. *)
Lemma resolve_spec (info : BlockInfo) :
  resolve info
  = match last (replaces info) with
    | Some r => e_content r
    | None => from_option e_content [] (bi_default info)
    end ++ concat (map e_content (appends info)).
Proof.
  unfold resolve. rewrite foldl_appends.
  destruct (last (replaces info)); [done|]. by destruct (bi_default info).
Qed.

(** C1.  [generateBlockContent] follows the precedence of the registry
    entry: with a default [D], replaces [R1; R2] and appends [A1; A2] it
    returns the lines of [R2 ++ A1 ++ A2]; with no replace, those of
    [D ++ A1 ++ A2]; with neither default nor replace, those of [A1 ++ A2];
    and the empty list for an identifier that has no entry.  Each content
    line is returned as [generateBlockContent] emits it: the empty string
    for a blank one, else [existingIndent] followed by its [finalContent]. *)
Theorem block_resolution_precedence (reg : gmap jsstring BlockInfo)
  (blockId existingIndent : jsstring) (D R1 R2 A1 A2 : Entry) :
  (reg !! blockId
   = Some {| bi_default := Some D; replaces := [R1; R2]; appends := [A1; A2] |} ->
   generateBlockContent reg blockId existingIndent
   = map (render existingIndent)
       (e_content R2 ++ e_content A1 ++ e_content A2)) /\
  (reg !! blockId
   = Some {| bi_default := Some D; replaces := []; appends := [A1; A2] |} ->
   generateBlockContent reg blockId existingIndent
   = map (render existingIndent)
       (e_content D ++ e_content A1 ++ e_content A2)) /\
  (reg !! blockId
   = Some {| bi_default := None; replaces := []; appends := [A1; A2] |} ->
   generateBlockContent reg blockId existingIndent
   = map (render existingIndent) (e_content A1 ++ e_content A2)) /\
  (reg !! blockId = None ->
   generateBlockContent reg blockId existingIndent = []).
Proof.
  unfold generateBlockContent.
  repeat split; intros ->; rewrite ?resolve_spec; simpl;
    by rewrite ?app_nil_r.
Qed.

(** Three files, scanned in this order: a default with two appends, and
    two replaces of the same block. *)
Definition precedence_inputs : list (jsstring * jsstring) :=
  [(js "main.c", js "// @block_default X
//   d
// @endblock
// @block_append X
//   a1
// @block_append X
//   a2");
   (js "r1.c", js "// @block_replace X
//   r1");
   (js "r2.c", js "// @block_replace X
//   r2")].

Definition precedence_registry : gmap jsstring BlockInfo :=
  match parseFiles reset precedence_inputs with
  | Ok this => blocks this
  | _ => ∅
  end.

Definition precedence_entry : BlockInfo :=
  Eval vm_compute in default {| bi_default := None; replaces := []; appends := [] |}
                       (precedence_registry !! js "X").

Definition entry_D : Entry :=
  Eval vm_compute in default {| e_content := []; e_filePath := []; e_indent := None |} (bi_default precedence_entry).
Definition entry_R (n : nat) : Entry :=
  default {| e_content := []; e_filePath := []; e_indent := None |}
    (replaces precedence_entry !! n).
Definition entry_A (n : nat) : Entry :=
  default {| e_content := []; e_filePath := []; e_indent := None |}
    (appends precedence_entry !! n).

Lemma block_resolution_precedence_witness :
  generateBlockContent precedence_registry (js "X") (js "    ")
  = [js "    r2"; js "    a1"; js "    a2"]
  /\ generateBlockContent (<[js "X" := {| bi_default := Some entry_D; replaces := [];
                                          appends := [entry_A 0; entry_A 1] |}]> ∅)
       (js "X") (js "    ")
     = [js "    d"; js "    a1"; js "    a2"]
  /\ generateBlockContent (<[js "X" := {| bi_default := None; replaces := [];
                                          appends := [entry_A 0; entry_A 1] |}]> ∅)
       (js "X") (js "    ")
     = [js "    a1"; js "    a2"]
  /\ generateBlockContent precedence_registry (js "Y") (js "    ") = [].
Proof.
  split; [|split; [|split]].
  - rewrite (proj1 (block_resolution_precedence precedence_registry (js "X")
                      (js "    ") entry_D (entry_R 0) (entry_R 1)
                      (entry_A 0) (entry_A 1))); [|vm_compute]; reflexivity.
  - rewrite (proj1 (proj2 (block_resolution_precedence _ (js "X")
                      (js "    ") entry_D (entry_R 0) (entry_R 1)
                      (entry_A 0) (entry_A 1)))); [|vm_compute]; reflexivity.
  - rewrite (proj1 (proj2 (proj2 (block_resolution_precedence _ (js "X")
                      (js "    ") entry_D (entry_R 0) (entry_R 1)
                      (entry_A 0) (entry_A 1))))); [|vm_compute]; reflexivity.
  - apply (proj2 (proj2 (proj2 (block_resolution_precedence precedence_registry
                      (js "Y") (js "    ") entry_D (entry_R 0) (entry_R 1)
                      (entry_A 0) (entry_A 1))))).
    vm_compute. reflexivity.
Defined.

(** ** Malformed directives *)

Lemma process_completes inputs :
  all_parse inputs -> status (process inputs) = Ok ().
Proof.
  intros Hall. destruct inputs as [|input inputs]; [reflexivity|].
  destruct (process_spec (input :: inputs)) as
    [(msg & Hp & _)|(this & _ & _ & ->)]; [done| |reflexivity].
  destruct (parseFiles_total (input :: inputs) reset Hall) as [this Hthis].
  congruence.
Qed.

(** C6.  If any line of any file of the run is a block command
    ([@block_default], [@block], [@block_replace], [@block_append]) with no
    argument or with more than one, [parseFiles] throws the error of
    [parseTemplateLine] for such a line, so the run fails in pass 1 and
    writes no file; when no line is one, the run completes. *)
Theorem malformed_directive_aborts (inputs : list (jsstring * jsstring)) :
  ((exists line, in_inputs inputs line /\ malformed line) ->
   exists line command args,
     in_inputs inputs line /\
     directive_parts line = Some (command, args) /\
     is_Some (block_command command) /\ length args <> 1 /\
     parseFiles reset inputs = Throw (invalid_message command) /\
     process inputs
     = {| writes := []; status := Throw (invalid_message command) |}) /\
  ((forall line, in_inputs inputs line -> ~ malformed line) ->
   status (process inputs) = Ok ()).
Proof.
  split.
  - intros (line & Hin & Hmal).
    assert (inputs <> []) as Hne.
    { destruct Hin as (fp & content & Hin & _). intros ->.
      by apply elem_of_nil in Hin. }
    destruct (process_spec inputs Hne) as
      [(msg & Hp & Hproc)|(this & Hp & _)].
    + destruct (parseFiles_Throw _ _ _ Hp) as (l & Hl & Hthrow).
      apply parseTemplateLine_message in Hthrow
        as (command & args & Hparts & Hcmd & Hlen & ->).
      exists l, command, args. auto 10.
    + apply parseFiles_parses in Hp.
      pose proof (proj1 (all_parse_spec inputs) Hp line Hin). done.
  - intros Hall. by apply process_completes, all_parse_spec.
Qed.

(** A run over two files, the second with a [@block_default] that has no
    identifier. *)
Definition malformed_inputs : list (jsstring * jsstring) :=
  [(js "a.c", js "// @block A
x
// @endblock");
   (js "b.c", js "y
// @block_default")].

Lemma malformed_directive_aborts_witness :
  exists line command args,
    in_inputs malformed_inputs line /\
    directive_parts line = Some (command, args) /\
    is_Some (block_command command) /\ length args <> 1 /\
    parseFiles reset malformed_inputs = Throw (invalid_message command) /\
    process malformed_inputs
    = {| writes := []; status := Throw (invalid_message command) |}.
Proof.
  apply (proj1 (malformed_directive_aborts malformed_inputs)).
  exists (js "// @block_default"). split.
  - exists (js "b.c"), (js "y
// @block_default"). split.
    + apply list_elem_of_further, list_elem_of_here.
    + vm_compute. apply list_elem_of_further, list_elem_of_here.
  - exists (js "@block_default"), []. split; [vm_compute; reflexivity|].
    split; [eexists; vm_compute; reflexivity | simpl; lia].
Defined.

(** ** Unterminated blocks *)

Lemma spans_last lines bs : forall lo b,
  spans_from lo bs -> Forall (occurrence lines) bs ->
  b ∈ bs -> endLine b = length lines -> last bs = Some b.
Proof.
  intros lo b Hs Hocc Hb He.
  apply list_elem_of_split in Hb as (l1 & l2 & ->).
  apply spans_from_app in Hs as [_ (_ & _ & Hs)].
  apply Forall_app in Hocc as [_ [_ Hocc]%Forall_cons].
  destruct l2 as [|b2 l2]; [by rewrite last_snoc|].
  eapply spans_from_last_bound in Hs; [|exact Hocc|done]. lia.
Qed.

(** C8.  A [block_default] or [block] directive with no [@endblock] line
    after it is no error.  In a file without malformed directives,
    [parseFile] returns, and the block whose span holds the directive (the
    one it opens, or an earlier one that is unterminated as well and has
    swallowed it) is the last of the file and ends at [lines.length]; the
    run over the file completes. *)
Theorem unterminated_block_extends (this : Parser)
  (filePath content : jsstring) (k : nat) (line : jsstring)
  (ty : BlockType) (id : jsstring) :
  (forall l, l ∈ split_lines content -> ~ malformed l) ->
  split_lines content !! k = Some line ->
  parseTemplateLine line = Ok (Some (DBlock ty id)) ->
  is_target ty = true ->
  (forall k' l, k < k' -> split_lines content !! k' = Some l ->
                parseTemplateLine l <> Ok (Some DEndblock)) ->
  (exists this' fd b,
      parseFile this filePath content = Ok this' /\
      (filePath, fd) ∈ files this' /\
      f_lines fd = split_lines content /\
      last (f_blocks fd) = Some b /\
      startLine b <= k /\ endLine b = length (split_lines content)) /\
  status (process [(filePath, content)]) = Ok ().
Proof.
  intros Hwell Hk Hline Hty Hnoend.
  assert (Forall parses (split_lines content)) as Hall.
  { apply Forall_forall. intros l Hl. by apply parses_not_malformed, Hwell. }
  split; [|apply process_completes; by repeat constructor].
  destruct (parseFile_total this filePath content Hall) as [this' Hthis'].
  destruct (parseFile_scanned _ _ _ _ Hthis')
    as (fd & Hfiles & Hlines & [Hs Hocc] & Hrec).
  rewrite Hlines in *.
  destruct (Hrec k line ty id) as (b & Hb & Hsk & Hke); auto.
  { by apply lookup_lt_Some in Hk. }
  exists this', fd, b. split; [exact Hthis'|].
  rewrite Hfiles. split; [apply files_set_elem|]. split; [exact Hlines|].
  assert (endLine b = length (split_lines content)) as He.
  { rewrite Forall_forall in Hocc.
    pose proof (Hocc b Hb) as Hob.
    pose proof (occurrence_bounds _ _ Hob) as (Hse & Hel & _).
    destruct Hob as (_ & _ & Hfe).
    destruct (decide (endLine b = length (split_lines content))) as [|Hne];
      [done|].
    destruct (lookup_lt_is_Some_2 (split_lines content) (endLine b))
      as [l Hl]; [lia|].
    apply find_endblock_scanned in Hfe as [_ Hfe].
    specialize (Hfe l). rewrite lookup_drop in Hfe.
    replace (startLine b + 1 + (endLine b - (startLine b + 1)))
      with (endLine b) in Hfe by lia.
    specialize (Hfe Hl).
    assert (k = endLine b \/ k < endLine b) as [->|Hlt] by lia.
    - congruence.
    - by destruct (Hnoend (endLine b) l Hlt Hl). }
  split; [|split; [exact Hsk | exact He]].
  eapply spans_last; [exact Hs | exact Hocc | exact Hb | exact He].
Qed.

(** A file whose only block is never closed. *)
Definition unterminated_file : jsstring := js "int x;
// @block_default X
//   a
old();
int y;".

Lemma unterminated_block_extends_witness :
  (exists this' fd b,
      parseFile reset (js "a.c") unterminated_file = Ok this' /\
      (js "a.c", fd) ∈ files this' /\
      f_lines fd = split_lines unterminated_file /\
      last (f_blocks fd) = Some b /\
      startLine b <= 1 /\ endLine b = length (split_lines unterminated_file)) /\
  status (process [(js "a.c", unterminated_file)]) = Ok ().
Proof.
  apply (unterminated_block_extends reset (js "a.c") unterminated_file 1
           (js "// @block_default X") block_default (js "X")).
  - intros l Hl. apply parses_not_malformed. vm_compute in Hl.
    repeat (apply elem_of_cons in Hl as [->|Hl];
            [eexists; vm_compute; reflexivity|]).
    by apply elem_of_nil in Hl.
  - vm_compute. reflexivity.
  - vm_compute. reflexivity.
  - reflexivity.
  - intros k' l Hk' Hl.
    do 5 (destruct k' as [|k']; [vm_compute in Hl; try lia; injection Hl as <-; by vm_compute|]).
    by vm_compute in Hl.
Defined.

(** ** Which files are written, and with what *)

Lemma NoDup_keys_elem {A B} (l : list (A * B)) k a b :
  NoDup l.*1 -> (k, a) ∈ l -> (k, b) ∈ l -> a = b.
Proof.
  induction l as [|[k' c] l IH]; simpl; [by intros _ ?%elem_of_nil|].
  intros [Hk Hnd]%NoDup_cons Ha Hb.
  apply elem_of_cons in Ha as [Ha|Ha]; apply elem_of_cons in Hb as [Hb|Hb].
  - congruence.
  - injection Ha as <- <-. destruct Hk. apply list_elem_of_fmap. by exists (k, b).
  - injection Hb as <- <-. destruct Hk. apply list_elem_of_fmap. by exists (k, a).
  - by apply IH.
Qed.

Lemma Forall2_Ok_functional {A B} (f : A -> result B) (l : list A) :
  forall rs rs',
    Forall2 (fun a r => f a = Ok r) l rs ->
    Forall2 (fun a r => f a = Ok r) l rs' -> rs = rs'.
Proof.
  induction l as [|a l IH]; intros rs rs' H1 H2;
    inversion H1 as [|? r1 ? rs1 Hr1 Hrest1]; subst;
    inversion H2 as [|? r2 ? rs2 Hr2 Hrest2]; subst; [done|].
  f_equal; [congruence | by apply IH].
Qed.

Lemma scanned_blocks content fd :
  scanned content fd ->
  (f_blocks fd <> [] <->
   exists i line ty id,
     f_lines fd !! i = Some line /\
     parseTemplateLine line = Ok (Some (DBlock ty id)) /\
     is_target ty = true).
Proof.
  intros (_ & [_ Hocc] & Hrec). split.
  - destruct (f_blocks fd) as [|b bs]; [done|]. intros _.
    apply Forall_cons in Hocc as [(Hty & (line & Hl & Hd & _) & _) _].
    by exists (startLine b), line, (b_type b), (b_blockId b).
  - intros (i & line & ty & id & Hl & Hd & Hty) Hnil.
    destruct (Hrec i line ty id) as (b & Hb & _); auto.
    { by apply lookup_lt_Some in Hl. }
    rewrite Hnil in Hb. by apply elem_of_nil in Hb.
Qed.

(** The writes of a run that passed pass 1: one for each record with a
    block, with the assembled lines joined by line feeds. *)
Lemma process_writes inputs this :
  parseFiles reset inputs = Ok this ->
  status (process inputs) = Ok () /\
  NoDup (files this).*1 /\
  (forall fp fd, (fp, fd) ∈ files this ->
                 exists content, (fp, content) ∈ inputs /\ scanned content fd) /\
  (forall fp text,
      (fp, text) ∈ writes (process inputs) <->
      exists fd repls,
        (fp, fd) ∈ files this /\ f_blocks fd <> [] /\
        Forall2 (fun b r => replacement (blocks this) b (f_lines fd) = Ok r)
          (f_blocks fd) repls /\
        text = join_lines (assemble (f_lines fd) 0 (f_blocks fd) repls)).
Proof.
  intros Hp.
  destruct (parseFiles_entries inputs reset this Hp) as [Hnd Hent];
    [constructor|].
  assert (forall fp fd, (fp, fd) ∈ files this ->
            exists content, (fp, content) ∈ inputs /\ scanned content fd)
    as Hent'.
  { intros fp fd Hin. destruct (Hent fp fd Hin) as [H|H]; [|exact H].
    by apply elem_of_nil in H. }
  assert (process inputs
          = {| writes := omap (output_of (blocks this)) (files this);
               status := Ok () |}) as ->.
  { destruct inputs as [|input inputs].
    - injection Hp as <-. reflexivity.
    - destruct (process_spec (input :: inputs)) as
        [(msg & Hp' & _)|(this' & Hp' & _ & ->)]; [done|congruence|].
      congruence. }
  simpl. repeat split; auto.
  - intros ([fp' fd] & Hin & Hout)%list_elem_of_omap.
    destruct (Hent' _ _ Hin) as (content & _ & _ & Hwf & _).
    destruct (patch_file_output (blocks this) (fp', fd) Hwf)
      as (repls & Hrepls & _ & Hout').
    rewrite Hout in Hout'. simpl in *.
    destruct (f_blocks fd) as [|b bs] eqn:Hbs; [done|].
    injection Hout' as -> ->. exists fd, repls. rewrite Hbs. auto.
  - intros (fd & repls & Hin & Hne & Hrepls & ->).
    apply list_elem_of_omap. exists (fp, fd). split; [exact Hin|].
    destruct (Hent' _ _ Hin) as (content & _ & _ & Hwf & _).
    destruct (patch_file_output (blocks this) (fp, fd) Hwf)
      as (repls' & Hrepls' & _ & ->).
    simpl in *.
    rewrite (Forall2_Ok_functional _ _ _ _ Hrepls' Hrepls).
    by destruct (f_blocks fd).
Qed.

(** C4, as amended.  A file of a run that passes pass 1 is written exactly
    when the scanner recorded a block for it, which is exactly when one of
    its lines is a [block_default] or [block] directive; whether its text
    changes plays no part ([modified] is set at every block). *)
Theorem written_iff_has_block (inputs : list (jsstring * jsstring))
  (this : Parser) :
  parseFiles reset inputs = Ok this ->
  status (process inputs) = Ok () /\
  forall filePath fd,
    (filePath, fd) ∈ files this ->
    (exists content,
        (filePath, content) ∈ inputs /\ f_lines fd = split_lines content) /\
    ((exists text, (filePath, text) ∈ writes (process inputs))
     <-> f_blocks fd <> []) /\
    (f_blocks fd <> [] <->
     exists i line ty id,
       f_lines fd !! i = Some line /\
       parseTemplateLine line = Ok (Some (DBlock ty id)) /\
       is_target ty = true).
Proof.
  intros Hp.
  destruct (process_writes inputs this Hp) as (Hst & Hnd & Hent & Hw).
  split; [exact Hst|]. intros fp fd Hin.
  destruct (Hent fp fd Hin) as (content & Hc & Hsc).
  split; [exists content; split; [exact Hc | by destruct Hsc]|].
  split; [|by eapply scanned_blocks].
  split.
  - intros (text & (fd' & repls & Hin' & Hne & _)%Hw).
    by rewrite (NoDup_keys_elem _ _ _ _ Hnd Hin Hin').
  - intros Hne. destruct Hsc as (_ & Hwf & _).
    destruct (patch_file_output (blocks this) (fp, fd) Hwf)
      as (repls & Hrepls & _ & _). simpl in *.
    eexists. apply Hw. exists fd, repls. eauto.
Qed.

(** A file whose block is empty and resolves to nothing: patching leaves
    its text as it is. *)
Definition empty_block_file : jsstring := js "// @block X
// @endblock".

Definition empty_block_parsed : Parser :=
  Eval vm_compute in
    match parseFiles reset [(js "a.c", empty_block_file)] with
    | Ok this => this
    | _ => reset
    end.

Lemma written_iff_has_block_witness :
  status (process [(js "a.c", empty_block_file)]) = Ok () /\
  forall filePath fd,
    (filePath, fd) ∈ files empty_block_parsed ->
    (exists content,
        (filePath, content) ∈ [(js "a.c", empty_block_file)] /\
        f_lines fd = split_lines content) /\
    ((exists text,
         (filePath, text) ∈ writes (process [(js "a.c", empty_block_file)]))
     <-> f_blocks fd <> []) /\
    (f_blocks fd <> [] <->
     exists i line ty id,
       f_lines fd !! i = Some line /\
       parseTemplateLine line = Ok (Some (DBlock ty id)) /\
       is_target ty = true).
Proof.
  apply (written_iff_has_block [(js "a.c", empty_block_file)] empty_block_parsed).
  vm_compute. reflexivity.
Defined.

(** C4 as stated fails: the file is written although the text written is
    the text read. *)
Lemma written_unchanged_counterexample :
  process [(js "a.c", empty_block_file)]
  = {| writes := [(js "a.c", empty_block_file)]; status := Ok () |}.
Proof. vm_compute. reflexivity. Qed.

(** ** Frame preservation *)

(** C3, as amended.  The text written for a file is its lines, joined by
    line feeds, with only the lines strictly between the opening directive
    and the end of each recorded block replaced: the lines up to and
    including the opening directive of the first block, its replacement,
    the lines from the line where that block ends ([@endblock], if it has
    one) up to and including the next opening directive, and so on to the
    end of the file.  Lines are kept as lines: the line breaks of the file,
    [\r\n] or [\n], are all written as [\n]. *)
Theorem frame_preserved_lines (inputs : list (jsstring * jsstring))
  (this : Parser) :
  parseFiles reset inputs = Ok this ->
  forall filePath text,
    (filePath, text) ∈ writes (process inputs) ->
    exists content fd repls,
      (filePath, content) ∈ inputs /\ (filePath, fd) ∈ files this /\
      f_lines fd = split_lines content /\
      Forall (occurrence (f_lines fd)) (f_blocks fd) /\
      spans_from 0 (f_blocks fd) /\
      length repls = length (f_blocks fd) /\
      text = join_lines (assemble (f_lines fd) 0 (f_blocks fd) repls).
Proof.
  intros Hp fp text Hin.
  destruct (process_writes inputs this Hp) as (_ & _ & Hent & Hw).
  apply Hw in Hin as (fd & repls & Hin & _ & Hrepls & ->).
  destruct (Hent fp fd Hin) as (content & Hc & Hlines & [Hs Hocc] & _).
  exists content, fd, repls. repeat split; auto.
  symmetry. by eapply Forall2_length.
Qed.

(** The first test of the suite: what was parsed, and the write. *)
Definition test1_parsed : Parser :=
  Eval vm_compute in
    match parseFiles reset [(js "a.c", test1)] with
    | Ok this => this
    | _ => reset
    end.

Lemma frame_preserved_lines_witness :
  exists content fd repls,
    (js "a.c", content) ∈ [(js "a.c", test1)] /\
    (js "a.c", fd) ∈ files test1_parsed /\
    f_lines fd = split_lines content /\
    Forall (occurrence (f_lines fd)) (f_blocks fd) /\
    spans_from 0 (f_blocks fd) /\
    length repls = length (f_blocks fd) /\
    test1_expected = join_lines (assemble (f_lines fd) 0 (f_blocks fd) repls).
Proof.
  apply (frame_preserved_lines [(js "a.c", test1)] test1_parsed).
  - vm_compute. reflexivity.
  - vm_compute. apply list_elem_of_here.
Defined.

(** A file with [\r\n] line breaks: [x], then an empty block. *)
Definition crlf_file : jsstring :=
  js "x" ++ [13; 10]%N ++ js "// @block X" ++ [13; 10]%N ++ js "// @endblock".

(** C3 as stated fails on bytes: the block opens on the second line, so
    the first three bytes, [x\r\n], are outside its span, and they are
    written as [x\n/]. *)
Lemma frame_bytes_counterexample :
  exists text,
    process [(js "a.c", crlf_file)]
    = {| writes := [(js "a.c", text)]; status := Ok () |} /\
    (exists this fd,
        parseFiles reset [(js "a.c", crlf_file)] = Ok this /\
        files this = [(js "a.c", fd)] /\
        map startLine (f_blocks fd) = [1] /\ map endLine (f_blocks fd) = [2]) /\
    take 3 crlf_file = [120; 13; 10]%N /\
    take 3 text = [120; 10; 47]%N.
Proof.
  eexists. split; [vm_compute; reflexivity|].
  split; [|split; vm_compute; reflexivity].
  do 2 eexists. split; [vm_compute; reflexivity|].
  split; [reflexivity|]. split; reflexivity.
Qed.

(** ** The acceptance rule of the content extractor *)

Lemma drop_while_nil {A} (p : A -> bool) s :
  drop_while p s = [] <-> Forall (fun c => p c = true) s.
Proof.
  induction s as [|c s IH]; simpl; [split; [constructor | done]|].
  destruct (p c) eqn:Hc.
  - rewrite IH. split; [by constructor | by intros [_ ?]%Forall_cons].
  - split; [done | intros [? _]%Forall_cons; congruence].
Qed.

Lemma ws_is_dot c : is_ws c = false -> is_dot c = true.
Proof.
  unfold is_ws, is_dot. intros [_ ->]%orb_false_iff. reflexivity.
Qed.

Lemma trim_nonblank c s : is_ws c = false -> trim (c :: s) <> [].
Proof.
  intros Hc. unfold trim. cbn [drop_while]. rewrite Hc.
  by rewrite rtrim_cons.
Qed.

(** A comment line that is [//] alone once trimmed has nothing but white
    space after the slashes. *)
Lemma trim_slashes line r :
  drop_while is_ws line = js "//" ++ r ->
  (trim line = js "//" <-> drop_while is_ws r = []).
Proof.
  rewrite js_slashes. intros Hd. unfold trim. rewrite Hd. cbn [app].
  rewrite !rtrim_cons by done. split.
  - intros [= H]. apply (f_equal (@rev _)) in H.
    rewrite rev_involutive in H. simpl in H.
    apply drop_while_nil, Forall_rev in H. rewrite rev_involutive in H.
    by apply drop_while_nil.
  - intros H%drop_while_nil%Forall_rev%drop_while_nil. by rewrite H.
Qed.

(** C5, as amended.  A comment line that is no directive is accepted into
    the run exactly when the length of its comment prefix (the white space
    before [//], the [//] and the white space after it: what
    [getCommentIndent] returns) is at least the length of the opening
    directive's, or the trimmed line is [//] alone; an accepted line is
    recorded as blank exactly when the trimmed line is [//] alone, and a
    blank line has the empty string as its content. *)
Theorem content_line_acceptance (line base : jsstring)
  (content : list RawItem) (templateIndent : option jsstring) :
  startsWith (trim line) (js "//") = true ->
  parseTemplateLine line = Ok None ->
  exists commentIndent,
    getCommentIndent line = Some commentIndent /\
    commentIndent
    = take_while is_ws line ++ js "//"
        ++ take_while is_ws (drop 2 (drop_while is_ws line)) /\
    ((length base <= length commentIndent \/ trim line = js "//") ->
     exists item templateIndent',
       content_step line (Some base) content templateIndent
       = Ok (Some (content ++ [item], templateIndent')) /\
       r_originalLine item = line /\
       (r_isEmpty item = true <-> trim line = js "//") /\
       (r_isEmpty item = true ->
        forall t, finalContent (apply_indent t item) = [])) /\
    (~ (length base <= length commentIndent \/ trim line = js "//") ->
     content_step line (Some base) content templateIndent = Ok None).
Proof.
  intros Hcomment Hdir.
  destruct (proj1 (comment_line_spec line) Hcomment) as [r Hr].
  pose proof (trim_slashes line r Hr) as Hslashes.
  assert (strip_prefix (js "//") (drop_while is_ws line) = Some r) as Hstrip
    by (by apply strip_prefix_Some).
  exists (take_while is_ws line ++ js "//" ++ take_while is_ws r).
  split; [by rewrite getCommentIndent_spec, Hstrip|].
  split; [by rewrite Hr|].
  unfold content_step. rewrite Hcomment, Hdir. simpl.
  rewrite getCommentIndent_spec, Hstrip, re_match_content, Hstrip.
  assert (truthy (Some (take_while is_ws line ++ js "//" ++ take_while is_ws r))
          = true) as -> by (rewrite js_slashes; by destruct (take_while is_ws line)).
  simpl. unfold str_eqb.
  split.
  - intros Hacc.
    assert ((length base <=? length (take_while is_ws line ++ js "//"
                                         ++ take_while is_ws r))
            || bool_decide (trim line = js "//") = true) as ->.
    { destruct Hacc as [Hlen|Hs].
      - apply Nat.leb_le in Hlen. by rewrite Hlen.
      - rewrite bool_decide_eq_true_2 by done. apply orb_true_r. }
    do 2 eexists. split; [reflexivity|]. simpl. split; [done|].
    unfold group. simpl.
    assert (is_blank (take_while is_dot (drop_while is_ws r)) = true
            <-> trim line = js "//") as Hblank.
    { rewrite Hslashes. unfold is_blank, str_eqb.
      destruct (drop_while is_ws r) as [|c s] eqn:Hd.
      - split; [done|]. intros _. by apply bool_decide_eq_true.
      - apply drop_while_head in Hd as Hc. cbn [take_while].
        rewrite (ws_is_dot c Hc). rewrite bool_decide_eq_true.
        split; [|done]. intros H. by apply trim_nonblank in H. }
    split; [exact Hblank|].
    intros Hempty t. unfold apply_indent. simpl. by rewrite Hempty.
  - intros Hrej.
    assert ((length base <=? length (take_while is_ws line ++ js "//"
                                         ++ take_while is_ws r))
            || bool_decide (trim line = js "//") = false) as ->; [|done].
    apply orb_false_iff. split.
    + apply Nat.leb_gt. destruct (Nat.le_gt_cases (length base)
        (length (take_while is_ws line ++ js "//" ++ take_while is_ws r)));
        [|done]. destruct Hrej. by left.
    + apply bool_decide_eq_false. intros ?. apply Hrej. by right.
Qed.

Lemma content_line_acceptance_witness :
  exists commentIndent,
    getCommentIndent (js "    //x") = Some commentIndent /\
    commentIndent
    = take_while is_ws (js "    //x") ++ js "//"
        ++ take_while is_ws (drop 2 (drop_while is_ws (js "    //x"))) /\
    ((length (js "// ") <= length commentIndent \/ trim (js "    //x") = js "//") ->
     exists item templateIndent',
       content_step (js "    //x") (Some (js "// ")) [] None
       = Ok (Some ([] ++ [item], templateIndent')) /\
       r_originalLine item = js "    //x" /\
       (r_isEmpty item = true <-> trim (js "    //x") = js "//") /\
       (r_isEmpty item = true ->
        forall t, finalContent (apply_indent t item) = [])) /\
    (~ (length (js "// ") <= length commentIndent \/ trim (js "    //x") = js "//") ->
     content_step (js "    //x") (Some (js "// ")) [] None = Ok None).
Proof.
  apply (content_line_acceptance (js "    //x") (js "// ") [] None);
    vm_compute; reflexivity.
Defined.

(** C5 as stated fails in both directions.  After [// @block_append X],
    whose [//] is followed by one space, the line [    //x] has no space
    after its [//] and is accepted; after [    //  @block_replace X], with
    two spaces, the line [//   x] has three and is not. *)
Lemma acceptance_by_spaces_counterexample :
  (parseTemplateLine (js "// @block_append X")
   = Ok (Some (DBlock block_append (js "X"))) /\
   comment_spaces (js "// @block_append X") = Some (js " ") /\
   comment_spaces (js "    //x") = Some [] /\
   (pc_nextLine <$> parseTemplateContent
      [js "// @block_append X"; js "    //x"] 1
      (getCommentIndent (js "// @block_append X"))) = Ok 2) /\
  (parseTemplateLine (js "    //  @block_replace X")
   = Ok (Some (DBlock block_replace (js "X"))) /\
   comment_spaces (js "    //  @block_replace X") = Some (js "  ") /\
   comment_spaces (js "//   x") = Some (js "   ") /\
   (pc_nextLine <$> parseTemplateContent
      [js "    //  @block_replace X"; js "//   x"] 1
      (getCommentIndent (js "    //  @block_replace X"))) = Ok 1).
Proof. vm_compute. repeat split. Qed.

(** ** Indentation round trip *)

Lemma take_while_app_stop {A} (p : A -> bool) l r :
  Forall (fun x => p x = true) l ->
  match r with x :: _ => p x = false | [] => True end ->
  take_while p (l ++ r) = l /\ drop_while p (l ++ r) = r.
Proof.
  intros Hl Hr. induction Hl as [|x l Hx Hl IH]; simpl.
  - destruct r as [|x r]; [done|]. simpl. by rewrite Hr.
  - rewrite Hx. destruct IH as [-> ->]. done.
Qed.

Lemma take_while_all {A} (p : A -> bool) l :
  Forall (fun x => p x = true) l -> take_while p l = l.
Proof.
  intros Hl. induction Hl as [|x l Hx Hl IH]; simpl; [done|].
  by rewrite Hx, IH.
Qed.

Lemma startsWith_refl s : startsWith s s = true.
Proof. induction s as [|c s IH]; simpl; [done|]. by rewrite N.eqb_refl. Qed.

Lemma startsWith_app p r : startsWith (p ++ r) p = true.
Proof. induction p as [|c p IH]; simpl; [done|]. by rewrite N.eqb_refl. Qed.

Lemma starts_text_blank t : starts_text t -> is_blank t = false.
Proof.
  destruct t as [|ch t]; [done|]. intros Hch.
  unfold is_blank, str_eqb. apply bool_decide_eq_false. by apply trim_nonblank.
Qed.

(** A line made of white space, [//], white space and a text. *)
Section BodyLine.
Variables lead sp t : jsstring.
Hypothesis Hlead : all_ws lead.
Hypothesis Hsp : all_ws sp.
Hypothesis Ht : starts_text t.
Hypothesis Hone : one_line t.

Lemma body_line_lead :
  take_while is_ws (lead ++ js "//" ++ sp ++ t) = lead /\
  drop_while is_ws (lead ++ js "//" ++ sp ++ t) = js "//" ++ sp ++ t.
Proof. apply take_while_app_stop; [exact Hlead | by rewrite js_slashes]. Qed.

Lemma body_line_spaces :
  take_while is_ws (sp ++ t) = sp /\ drop_while is_ws (sp ++ t) = t.
Proof.
  apply take_while_app_stop; [exact Hsp|]. by destruct t.
Qed.

Lemma body_line_match :
  re_match content_re (lead ++ js "//" ++ sp ++ t)
  = Some [(3, t); (2, sp); (1, lead)].
Proof.
  rewrite re_match_content.
  destruct body_line_lead as [-> ->].
  replace (strip_prefix _ _) with (Some (sp ++ t))
    by (symmetry; by apply strip_prefix_Some).
  destruct body_line_spaces as [-> ->].
  rewrite take_while_all; [done|].
  eapply Forall_impl; [exact Hone|]. intros x Hx. unfold is_dot. by rewrite Hx.
Qed.

Lemma body_line_indent :
  getCommentIndent (lead ++ js "//" ++ sp ++ t) = Some (lead ++ js "//" ++ sp).
Proof.
  rewrite getCommentIndent_spec.
  destruct body_line_lead as [-> ->].
  replace (strip_prefix _ _) with (Some (sp ++ t))
    by (symmetry; by apply strip_prefix_Some).
  by destruct body_line_spaces as [-> _].
Qed.

Lemma body_line_comment :
  startsWith (trim (lead ++ js "//" ++ sp ++ t)) (js "//") = true.
Proof.
  apply comment_line_spec. exists (sp ++ t). by destruct body_line_lead.
Qed.

Lemma body_line_not_blank : is_blank (lead ++ js "//" ++ sp ++ t) = false.
Proof.
  unfold is_blank, str_eqb. apply bool_decide_eq_false. intros H.
  pose proof body_line_comment as Hc. by rewrite H in Hc.
Qed.

(** The extractor takes the line and strips [sp], when [sp] is (or
    becomes) the template indentation. *)
Lemma body_line_step base content templateIndent :
  parseTemplateLine (lead ++ js "//" ++ sp ++ t) = Ok None ->
  length base <= length (lead ++ js "//" ++ sp) ->
  content_step (lead ++ js "//" ++ sp ++ t) (Some base) content templateIndent
  = Ok (Some (content ++
                [{| r_indent := lead; r_commentSpaces := sp;
                    r_contentText := t;
                    r_originalLine := lead ++ js "//" ++ sp ++ t;
                    r_isEmpty := false |}],
              match templateIndent with
              | None => Some sp
              | Some x => Some x
              end)).
Proof.
  intros Hdir Hlen. unfold content_step.
  rewrite body_line_comment, Hdir. simpl.
  rewrite body_line_indent, body_line_match.
  assert (truthy (Some (lead ++ js "//" ++ sp)) = true) as ->
    by (rewrite js_slashes; by destruct lead).
  simpl. apply Nat.leb_le in Hlen. rewrite Hlen. simpl. unfold group. simpl.
  by rewrite (starts_text_blank t Ht).
Qed.

Lemma body_line_final :
  apply_indent (Some sp)
    {| r_indent := lead; r_commentSpaces := sp; r_contentText := t;
       r_originalLine := lead ++ js "//" ++ sp ++ t; r_isEmpty := false |}
  = {| indent := lead; commentSpaces := sp; contentText := t;
       originalLine := lead ++ js "//" ++ sp ++ t; isEmpty := false;
       finalContent := t |}.
Proof.
  unfold apply_indent, with_finalContent, substring. simpl.
  by rewrite startsWith_refl, drop_all.
Qed.

Lemma body_line_preserved base :
  length base <= length (lead ++ js "//" ++ sp) ->
  preserves (Some base) (lead ++ js "//" ++ sp ++ t) = Ok (kept_text t).
Proof.
  intros Hlen. unfold preserves.
  rewrite body_line_comment, body_line_indent, body_line_match.
  assert (truthy (Some (lead ++ js "//" ++ sp)) = true) as ->
    by (rewrite js_slashes; by destruct lead).
  simpl. apply Nat.leb_le in Hlen. by rewrite Hlen.
Qed.
End BodyLine.

(** A line of code: not blank, not a comment. *)
Section CodeLine.
Variables ind c : jsstring.
Hypothesis Hind : all_ws ind.
Hypothesis Hc : starts_text c.
Hypothesis Hcode : startsWith c (js "//") = false.

Lemma code_line_lead :
  take_while is_ws (ind ++ c) = ind /\ drop_while is_ws (ind ++ c) = c.
Proof. apply take_while_app_stop; [exact Hind|]. by destruct c. Qed.

Lemma code_line_comment : startsWith (trim (ind ++ c)) (js "//") = false.
Proof.
  apply not_true_is_false. intros [r Hr]%comment_line_spec.
  destruct code_line_lead as [_ Hd]. rewrite Hd in Hr. subst c.
  by rewrite startsWith_app in Hcode.
Qed.

Lemma code_line_not_blank : is_blank (ind ++ c) = false.
Proof.
  unfold is_blank, str_eqb. apply bool_decide_eq_false.
  unfold trim. destruct code_line_lead as [_ ->].
  destruct c as [|ch c']; [done|]. by rewrite rtrim_cons.
Qed.

Lemma code_line_parse : parseTemplateLine (ind ++ c) = Ok None.
Proof.
  unfold parseTemplateLine.
  destruct (directive_parts (ind ++ c)) as [p|] eqn:Hp; [|done].
  apply directive_parts_comment in Hp. by rewrite code_line_comment in Hp.
Qed.

Lemma code_line_step base content templateIndent :
  content_step (ind ++ c) base content templateIndent = Ok None.
Proof. unfold content_step. by rewrite code_line_comment. Qed.

Lemma code_line_preserved base : preserves base (ind ++ c) = Ok false.
Proof. unfold preserves. by rewrite code_line_comment. Qed.
End CodeLine.

Lemma all_ws_four : all_ws (js "    ").
Proof. change (js "    ") with [32; 32; 32; 32]%N. by repeat constructor. Qed.

(** A first case, from end to end.  A file made of a [block_default]
    directive, a template body of two lines with the same white space [sp]
    between [//] and their texts [t1] and [t2], one line of generated code
    indented by four spaces, and [@endblock]: the run writes the file with
    the code replaced by ["    "] followed by [t1] and ["    "] followed by
    [t2] (after the template comments the patcher keeps). *)
Lemma round_trip_in_a_small_file (filePath content : jsstring)
  (opening closing base id lead1 lead2 sp t1 t2 c : jsstring) :
  parseTemplateLine opening = Ok (Some (DBlock block_default id)) ->
  getCommentIndent opening = Some base ->
  parseTemplateLine closing = Ok (Some DEndblock) ->
  all_ws lead1 -> all_ws lead2 -> all_ws sp ->
  starts_text t1 -> one_line t1 -> starts_text t2 -> one_line t2 ->
  parseTemplateLine (lead1 ++ js "//" ++ sp ++ t1) = Ok None ->
  parseTemplateLine (lead2 ++ js "//" ++ sp ++ t2) = Ok None ->
  length base <= length (lead1 ++ js "//" ++ sp) ->
  length base <= length (lead2 ++ js "//" ++ sp) ->
  starts_text c -> startsWith c (js "//") = false ->
  split_lines content
  = [opening; lead1 ++ js "//" ++ sp ++ t1; lead2 ++ js "//" ++ sp ++ t2;
     js "    " ++ c; closing] ->
  exists this,
    parseFiles reset [(filePath, content)] = Ok this /\
    generateBlockContent (blocks this) id (js "    ")
    = [js "    " ++ t1; js "    " ++ t2] /\
    process [(filePath, content)]
    = {| writes :=
           [(filePath,
              join_lines
                ([opening]
                   ++ (if kept_text t1
                       then (lead1 ++ js "//" ++ sp ++ t1)
                              :: (if kept_text t2
                                  then [lead2 ++ js "//" ++ sp ++ t2]
                                  else [])
                       else [])
                   ++ [js "    " ++ t1; js "    " ++ t2] ++ [closing]))];
         status := Ok () |}.
Proof.
  intros Hopen Hbase Hclose Hl1 Hl2 Hsp Ht1 Ho1 Ht2 Ho2 Hd1 Hd2 Hlen1 Hlen2
    Hc Hcode Hlines.
  set (l1 := lead1 ++ js "//" ++ sp ++ t1) in *.
  set (l2 := lead2 ++ js "//" ++ sp ++ t2) in *.
  set (code := js "    " ++ c) in *.
  set (lines := [opening; l1; l2; code; closing]) in *.
  set (i1 := {| indent := lead1; commentSpaces := sp; contentText := t1;
                originalLine := l1; isEmpty := false; finalContent := t1 |}).
  set (i2 := {| indent := lead2; commentSpaces := sp; contentText := t2;
                originalLine := l2; isEmpty := false; finalContent := t2 |}).
  assert (parseTemplateLine code = Ok None) as Hdc
    by (apply code_line_parse; auto using all_ws_four).
  assert (parseTemplateContent lines 1 (Some base)
          = Ok {| pc_content := [i1; i2]; pc_nextLine := 3;
                  pc_templateIndent := Some sp |}) as Hparse.
  { unfold parseTemplateContent, lines. cbn [drop content_loop].
    unfold l1 at 1. rewrite body_line_step by assumption.
    cbn [mbind result_bind content_loop app].
    unfold l2 at 1. rewrite body_line_step by assumption.
    cbn [mbind result_bind content_loop app].
    unfold code at 1. rewrite code_line_step by (auto using all_ws_four).
    cbn [mbind result_bind map].
    unfold l1, l2. by rewrite !body_line_final by assumption. }
  assert (find_endblock (drop 1 lines) 1 = Ok 4) as Hend.
  { unfold lines. cbn [drop find_endblock]. by rewrite Hd1, Hd2, Hdc, Hclose. }
  set (e := {| e_content := [i1; i2]; e_filePath := filePath;
               e_indent := Some base |}).
  set (b := {| b_type := block_default; b_blockId := id; startLine := 0;
               endLine := 4; b_indent := Some base; b_content := [i1; i2] |}).
  set (reg := alter (set_default e) id (ensure_block id ∅)).
  assert (scan_loop (length lines) lines filePath 0 (∅, []) = Ok (reg, [b]))
    as Hscan.
  { unfold lines at 1. cbn [length scan_loop]. unfold lines at 1.
    cbn [lookup list_lookup]. unfold scan_step.
    rewrite Hopen. cbn [mbind result_bind]. change (0 + 1) with 1.
    rewrite Hend. cbn [mbind result_bind]. rewrite Hbase, Hparse.
    cbn [mbind result_bind pc_content]. change (4 + 1) with 5.
    cbn [scan_loop lookup list_lookup]. reflexivity. }
  assert (reg !! id = Some {| bi_default := Some e; replaces := [];
                              appends := [] |}) as Hreg.
  { unfold reg, ensure_block. rewrite lookup_empty, lookup_alter_eq.
    by rewrite lookup_insert_eq. }
  assert (generateBlockContent reg id (js "    ")
          = [js "    " ++ t1; js "    " ++ t2]) as Hgen.
  { unfold generateBlockContent. by rewrite Hreg. }
  exists {| blocks := reg;
            files := [(filePath, {| f_lines := lines; f_blocks := [b] |})] |}.
  assert (parseFiles reset [(filePath, content)]
          = Ok {| blocks := reg;
                  files := [(filePath, {| f_lines := lines; f_blocks := [b] |})] |})
    as Hfiles.
  { cbn [parseFiles]. unfold parseFile. rewrite Hlines. fold lines.
    cbn [blocks reset]. rewrite Hscan. reflexivity. }
  split; [exact Hfiles|]. split; [exact Hgen|].
  unfold process. rewrite Hfiles. unfold generateOutput.
  cbn [blocks files generateOutput_loop].
  assert (is_blank l1 = false) as Hnb1
    by (apply body_line_not_blank; assumption).
  assert (is_blank l2 = false) as Hnb2
    by (apply body_line_not_blank; assumption).
  assert (startsWith (trim l1) (js "//") = true) as Hcm1
    by (apply body_line_comment; assumption).
  assert (startsWith (trim l2) (js "//") = true) as Hcm2
    by (apply body_line_comment; assumption).
  assert (is_blank code = false) as Hnbc
    by (apply code_line_not_blank; auto using all_ws_four).
  assert (startsWith (trim code) (js "//") = false) as Hcmc
    by (apply code_line_comment; auto using all_ws_four).
  assert (take_while is_ws code = js "    ") as Hlead
    by (apply code_line_lead; auto using all_ws_four).
  assert (preserves (Some base) code = Ok false) as Hpc
    by (apply code_line_preserved; auto using all_ws_four).
  assert (preserves (Some base) l1 = Ok (kept_text t1)) as Hp1
    by (apply body_line_preserved; assumption).
  assert (preserves (Some base) l2 = Ok (kept_text t2)) as Hp2
    by (apply body_line_preserved; assumption).
  assert (find_existingIndent lines 1 3 = Ok (js "    ")) as Hind.
  { unfold lines. cbn [find_existingIndent lookup list_lookup].
    rewrite Hnb1, Hcm1, Hnb2, Hcm2, Hnbc, Hcmc. cbn [negb andb].
    rewrite re_match_indent. unfold group. cbn [cap Nat.eqb default].
    by rewrite Hlead. }
  assert (find_preserved lines (Some base) 1 3
          = Ok (if kept_text t1
                then l1 :: (if kept_text t2 then [l2] else [])
                else [])) as Hpres.
  { unfold lines. cbn [find_preserved lookup list_lookup].
    rewrite Hp1. cbn [mbind result_bind].
    destruct (kept_text t1); [|reflexivity].
    rewrite Hp2. cbn [mbind result_bind].
    destruct (kept_text t2); [|reflexivity].
    rewrite Hpc. reflexivity. }
  unfold patch_file. cbn [f_blocks f_lines rev app patch_loop b_type b].
  unfold patch_block, replacement.
  cbn [startLine endLine b_type b_indent b_blockId b].
  change (0 + 1) with 1. change (4 - 1) with 3.
  rewrite Hind. cbn [mbind result_bind]. rewrite Hpres. cbn [mbind result_bind].
  rewrite Hgen. unfold splice, lines. cbn [take drop Nat.add].
  cbn [app]. by rewrite <- app_assoc.
Qed.

(** ** Running the engine again *)

(** [scan_step], by the kind of line. *)
Lemma scan_step_eq lines fp i line reg fb :
  scan_step lines fp i line (reg, fb)
  = d ← parseTemplateLine line;
    match d with
    | Some (DBlock ty id) =>
        if is_target ty then
          e ← find_endblock (drop (i + 1) lines) (i + 1);
          content ← block_content ty lines i (getCommentIndent line);
          Ok (e + 1,
              (register_target ty id content fp (getCommentIndent line) reg,
               fb ++ [{| b_type := ty; b_blockId := id; startLine := i;
                         endLine := e; b_indent := getCommentIndent line;
                         b_content := content |}]))
        else
          pc ← parseTemplateContent lines (i + 1) (getCommentIndent line);
          Ok (pc_nextLine pc,
              (register_source ty id (pc_content pc) fp
                 (getCommentIndent line) reg, fb))
    | _ => Ok (i + 1, (reg, fb))
    end.
Proof.
  unfold scan_step. destruct (parseTemplateLine line) as [d| |]; [|done..].
  destruct d as [[[] id| |]|]; reflexivity.
Qed.

Lemma not_comment_parse line : not_comment line -> parseTemplateLine line = Ok None.
Proof.
  intros Hnc. unfold parseTemplateLine.
  destruct (directive_parts line) as [p|] eqn:Hp; [|done].
  apply directive_parts_comment in Hp. unfold not_comment in Hnc. congruence.
Qed.

Lemma not_comment_step line base c t :
  not_comment line -> content_step line base c t = Ok None.
Proof. intros Hnc. unfold content_step. by rewrite Hnc. Qed.

Lemma not_comment_preserved line base :
  not_comment line -> preserves base line = Ok false.
Proof. intros Hnc. unfold preserves. by rewrite Hnc. Qed.

(** *** The search for [@endblock], over a list put together *)

Lemma find_endblock_skip pre rest : forall e,
  Forall (fun l => exists d, parseTemplateLine l = Ok d /\ d <> Some DEndblock)
    pre ->
  find_endblock (pre ++ rest) e = find_endblock rest (e + length pre).
Proof.
  induction pre as [|l pre IH]; intros e Hpre; simpl.
  - by rewrite Nat.add_0_r.
  - apply Forall_cons in Hpre as [(d & Hd & Hne) Hpre]. rewrite Hd. simpl.
    rewrite IH by exact Hpre. replace (S e + length pre) with (e + S (length pre)) by lia.
    destruct d as [[]|]; done.
Qed.

Lemma find_endblock_here l rest e :
  parseTemplateLine l = Ok (Some DEndblock) -> find_endblock (l :: rest) e = Ok e.
Proof. intros Hl. simpl. by rewrite Hl. Qed.

(** *** The content extractor, over a list put together *)

(** The result depends on the lines up to the one where the loop stops. *)
Lemma content_loop_prefix p : forall rest1 rest2 i i2 base c t c' n t',
  content_loop (p ++ rest1) i base c t = Ok (c', n, t') ->
  n - i < length p ->
  content_loop (p ++ rest2) i2 base c t = Ok (c', i2 + (n - i), t').
Proof.
  induction p as [|l p IH]; intros rest1 rest2 i i2 base c t c' n t' H Hn;
    [simpl in Hn; lia|].
  simpl in *. apply bind_Ok in H as (r & Hr & H). rewrite Hr. simpl.
  destruct r as [[c1 t1]|].
  - pose proof (content_loop_range _ _ _ _ _ _ _ _ H) as Hrange.
    eapply (IH _ rest2 _ (S i2)) in H; [|lia]. rewrite H.
    do 3 f_equal. lia.
  - injection H as <- <- <-. do 3 f_equal. lia.
Qed.

(** The loop over the lines it takes, alone. *)
Lemma content_loop_taken rest : forall i i2 base c t c' n t',
  content_loop rest i base c t = Ok (c', n, t') ->
  content_loop (take (n - i) rest) i2 base c t = Ok (c', i2 + (n - i), t').
Proof.
  induction rest as [|l rest IH]; intros i i2 base c t c' n t' H; simpl in *.
  - injection H as <- <- <-. rewrite take_nil. simpl. do 3 f_equal. lia.
  - apply bind_Ok in H as (r & Hr & H). destruct r as [[c1 t1]|].
    + pose proof (content_loop_range _ _ _ _ _ _ _ _ H) as Hrange.
      replace (n - i) with (S (n - S i)) by lia. simpl. rewrite Hr. simpl.
      erewrite IH by exact H. do 3 f_equal. lia.
    + injection H as <- <- <-. rewrite Nat.sub_diag. simpl.
      do 3 f_equal. lia.
Qed.

(** Lines that are all taken, then the rest. *)
Lemma content_loop_through pre : forall rest i base c t c' t',
  content_loop pre i base c t = Ok (c', i + length pre, t') ->
  content_loop (pre ++ rest) i base c t
  = content_loop rest (i + length pre) base c' t'.
Proof.
  induction pre as [|l pre IH]; intros rest i base c t c' t' H; simpl in *.
  - injection H as <- _ <-. by rewrite Nat.add_0_r.
  - apply bind_Ok in H as (r & Hr & H). rewrite Hr. simpl.
    destruct r as [[c1 t1]|].
    + replace (i + S (length pre)) with (S i + length pre) in * by lia.
      by apply IH.
    + injection H as _ Hi _. lia.
Qed.

Lemma content_loop_stop l rest i base c t :
  content_step l base c t = Ok None ->
  content_loop (l :: rest) i base c t = Ok (c, i, t).
Proof. intros H. simpl. by rewrite H. Qed.

Lemma endblock_step l base c t :
  parseTemplateLine l = Ok (Some DEndblock) ->
  content_step l base c t = Ok None.
Proof.
  intros Hl. unfold content_step.
  destruct (startsWith _ _); [|done]. by rewrite Hl.
Qed.

Lemma content_loop_stays X : forall n base c t c' t' X2 n2,
  content_loop X n base c t = Ok (c', n, t') ->
  head X2 = head X ->
  content_loop X2 n2 base c t = Ok (c', n2, t').
Proof.
  intros n base c t c' t' X2 n2 H Hhead.
  destruct X as [|l X]; simpl in *.
  - destruct X2; [|done]. by injection H as <- <-.
  - destruct X2 as [|l2 X2]; [done|]. injection Hhead as ->.
    apply bind_Ok in H as (r & Hr & H). simpl. rewrite Hr. simpl.
    destruct r as [[c1 t1]|].
    + apply content_loop_range in H. lia.
    + by injection H as <- <-.
Qed.

(** *** The lines of a patched file *)

Lemma assemble_nil lines i rs : assemble lines i [] rs = drop i lines.
Proof. reflexivity. Qed.

Lemma assemble_advance lines i k bs rs :
  match bs with b :: _ => i + k <= startLine b | [] => True end ->
  assemble lines i bs rs
  = take k (drop i lines) ++ assemble lines (i + k) bs rs.
Proof.
  intros Hk. destruct bs as [|b bs], rs as [|r rs]; simpl;
    try (by rewrite <- drop_drop, take_drop).
  rewrite (take_split (drop i lines) k (startLine b + 1 - i)) by lia.
  rewrite drop_drop, <- app_assoc. do 3 f_equal. lia.
Qed.

Lemma assemble_at lines b bs r rs line :
  lines !! startLine b = Some line ->
  assemble lines (startLine b) (b :: bs) (r :: rs)
  = line :: r ++ assemble lines (endLine b) bs rs.
Proof.
  intros Hl. simpl. replace (startLine b + 1 - startLine b) with 1 by lia.
  by rewrite (drop_S _ _ _ Hl).
Qed.

Lemma take_one_drop {A} (l : list A) i x :
  l !! i = Some x -> take 1 (drop i l) = [x].
Proof. intros Hl. by rewrite (drop_S _ _ _ Hl). Qed.

Lemma assemble_head lines i bs rs :
  match bs with
  | b :: _ => i <= startLine b /\ startLine b < length lines
  | [] => True
  end ->
  head (assemble lines i bs rs) = lines !! i.
Proof.
  intros Hi. destruct bs as [|b bs], rs as [|r rs]; simpl;
    try (by rewrite head_lookup, lookup_drop, Nat.add_0_r).
  destruct Hi as [Hi Hs].
  destruct (lookup_lt_is_Some_2 lines i) as [x Hx]; [lia|].
  rewrite Hx, <- (take_drop_middle _ _ _ Hx), drop_app_length'
    by (rewrite length_take; apply lookup_lt_Some in Hx; lia).
  by replace (startLine b + 1 - i) with (S (startLine b - i)) by lia.
Qed.

(** *** The blocks already recorded play no part in the scan *)

Lemma scan_loop_prefix_indep lines fp : forall fuel i reg fb,
  scan_loop fuel lines fp i (reg, fb)
  = (fun st : ScanState => (st.1, fb ++ st.2))
      <$> scan_loop fuel lines fp i (reg, []).
Proof.
  induction fuel as [|fuel IH]; intros i reg fb; cbn [scan_loop].
  - destruct (lines !! i); [done|]. cbn. by rewrite app_nil_r.
  - destruct (lines !! i) as [line|]; [|cbn; by rewrite app_nil_r].
    rewrite !scan_step_eq.
    destruct (parseTemplateLine line) as [d| |]; [|done..].
    cbn [mbind result_bind].
    destruct d as [[ty id| |]|]; try apply IH.
    destruct (is_target ty).
    + destruct (find_endblock _ _) as [e| |]; [|done..].
      cbn [mbind result_bind].
      destruct (block_content _ _ _ _) as [content| |]; [|done..].
      cbn [mbind result_bind].
      cbn [app]. rewrite (IH _ _ (fb ++ [_])), (IH _ _ [_]).
      destruct (scan_loop fuel lines fp (e + 1) _) as [[r bs]| |]; [|done..].
      cbn. by rewrite <- app_assoc.
    + destruct (parseTemplateContent _ _ _) as [pc| |]; [|done..].
      apply IH.
Qed.

Lemma scan_loop_from_spans lines fp fuel i reg regN bs :
  scan_loop fuel lines fp i (reg, []) = Ok (regN, bs) ->
  spans_from i bs /\ Forall (occurrence lines) bs.
Proof.
  intros H.
  eapply (scan_loop_invariant (scan_inv lines i)) in H as (i' & _ & Hs & _ & Hall).
  - auto.
  - intros. eapply scan_step_spans; eauto.
  - repeat split; simpl; auto.
Qed.

(** *** The scan of the patched file follows the scan of the file *)

Lemma drop_nil_lookup {A} (l : list A) i : drop i l = [] -> l !! i = None.
Proof.
  intros H. apply lookup_ge_None. apply (f_equal length) in H.
  rewrite length_drop in H. simpl in H. lia.
Qed.

Lemma drop_cons_lookup {A} (l : list A) i x t :
  drop i l = x :: t -> l !! i = Some x /\ drop (i + 1) l = t.
Proof.
  intros H. split.
  - by rewrite <- (Nat.add_0_r i), <- lookup_drop, H.
  - by rewrite <- drop_drop, H.
Qed.

Lemma replays_lines b r :
  replays b r ->
  Forall (fun l => exists d, parseTemplateLine l = Ok d /\ d <> Some DEndblock) r.
Proof.
  intros (pres & gen & -> & Hgen & Hpres & _). apply Forall_app. split.
  - eapply Forall_impl; [exact Hpres|]. intros l Hl. by exists None.
  - eapply Forall_impl; [exact Hgen|]. intros l Hl%not_comment_parse. by exists None.
Qed.

(** The content of a [block_default] read again, after the lines [r] have
    taken the place of its span and are followed by [tail]. *)
Lemma replays_content b r tail i2 base :
  replays b r -> b_type b = block_default -> b_indent b = base ->
  match tail with
  | l :: _ => parseTemplateLine l = Ok (Some DEndblock)
  | [] => True
  end ->
  exists craw n t,
    content_loop (r ++ tail) i2 base [] None = Ok (craw, n, t) /\
    map (apply_indent t) craw = b_content b.
Proof.
  intros (pres & gen & -> & Hgen & Hpres & Hc) Hty <- Htail.
  rewrite Hty in Hc. destruct Hc as (craw & t & Hloop & Hmap).
  exists craw, (i2 + length pres), t. split; [|exact Hmap].
  apply (content_loop_taken _ _ i2) in Hloop.
  rewrite Nat.sub_0_r, firstn_all in Hloop.
  rewrite <- app_assoc. rewrite (content_loop_through _ _ _ _ _ _ _ _ Hloop).
  destruct gen as [|g gen].
  - destruct tail as [|l tail]; [done|].
    apply content_loop_stop. by apply endblock_step.
  - apply Forall_cons in Hgen as [Hg _].
    apply content_loop_stop. by apply not_comment_step.
Qed.

Lemma classic_block (d : option Directive) :
  (exists ty id, d = Some (DBlock ty id)) \/
  (forall ty id, d <> Some (DBlock ty id)).
Proof. destruct d as [[]|]; eauto; by right. Qed.

(** What follows the span of a block in the patched file: the [@endblock]
    line and the rest, or nothing. *)
Lemma assemble_tail lines e bs rs :
  spans_from (e + 1) bs -> Forall (occurrence lines) bs ->
  (forall l, lines !! e = Some l -> parseTemplateLine l = Ok (Some DEndblock)) ->
  match assemble lines e bs rs with
  | l :: _ => parseTemplateLine l = Ok (Some DEndblock)
  | [] => True
  end /\
  drop 1 (assemble lines e bs rs) = assemble lines (e + 1) bs rs /\
  forall x, find_endblock (assemble lines e bs rs) x = Ok x.
Proof.
  intros Hs Hocc Hend.
  destruct (lines !! e) as [l|] eqn:He.
  - rewrite (assemble_advance _ _ 1)
      by (destruct bs as [|b ?]; [done|]; by destruct Hs).
    rewrite (take_one_drop _ _ _ He). cbn [app drop].
    split; [by apply Hend|]. split; [done|].
    intros x. apply find_endblock_here. by apply Hend.
  - apply lookup_ge_None in He.
    assert (bs = []) as ->.
    { destruct bs as [|b bs]; [done|].
      eapply spans_from_last_bound in Hs; [|exact Hocc|done]. lia. }
    rewrite !assemble_nil.
    rewrite (drop_ge lines e), (drop_ge lines (e + 1)) by lia. by repeat split.
Qed.

Lemma scan_sim fp lines lines2 : forall fuel i reg regN bs rs i2,
  scan_loop fuel lines fp i (reg, []) = Ok (regN, bs) ->
  Forall2 replays bs rs ->
  drop i2 lines2 = assemble lines i bs rs ->
  exists bs2,
    scan_loop fuel lines2 fp i2 (reg, []) = Ok (regN, bs2) /\
    Forall3 (block_rel lines2) bs rs bs2.
Proof.
  assert (forall fuel i reg regN bs rs i2,
    lines !! i = None ->
    scan_loop fuel lines fp i (reg, []) = Ok (regN, bs) ->
    Forall2 replays bs rs ->
    drop i2 lines2 = assemble lines i bs rs ->
    exists bs2,
      scan_loop fuel lines2 fp i2 (reg, []) = Ok (regN, bs2) /\
      Forall3 (block_rel lines2) bs rs bs2) as Hend.
  { intros fuel i reg regN bs rs i2 Hi Hrun Hrep Hdrop.
    assert (scan_loop fuel lines fp i (reg, []) = Ok (reg, [])) as Hrun'
      by (destruct fuel; cbn [scan_loop]; by rewrite Hi).
    rewrite Hrun' in Hrun. injection Hrun as <- <-.
    inversion Hrep; subst. rewrite assemble_nil in Hdrop.
    apply lookup_ge_None in Hi. rewrite (drop_ge lines i) in Hdrop by lia.
    apply drop_nil_lookup in Hdrop.
    exists []. split; [|constructor].
    destruct fuel; cbn [scan_loop]; by rewrite Hdrop. }
  induction fuel as [|fuel IH]; intros i reg regN bs rs i2 Hrun Hrep Hdrop.
  { destruct (lines !! i) eqn:Hi; [by cbn [scan_loop] in Hrun; rewrite Hi in Hrun|].
    by eapply Hend. }
  destruct (lines !! i) as [line|] eqn:Hi; [|by eapply Hend].
  pose proof (scan_loop_from_spans _ _ _ _ _ _ _ Hrun) as [Hspans Hocc].
  cbn [scan_loop] in Hrun. rewrite Hi, scan_step_eq in Hrun.
  apply bind_Ok in Hrun as ([i1 [reg1 fb1]] & Hstep & Hrest).
  apply bind_Ok in Hstep as (d & Hd & Hstep).
  rewrite scan_loop_prefix_indep in Hrest.
  destruct (scan_loop fuel lines fp i1 (reg1, [])) as [[regN' bs1]| |] eqn:Hrest';
    [|done..].
  cbn in Hrest. injection Hrest as -> <-.
  pose proof (scan_loop_from_spans _ _ _ _ _ _ _ Hrest') as [Hspans1 Hocc1].
  destruct d as [[ty id| |]|].
  2-4: injection Hstep as <- <- <-; cbn [app] in *;
    rewrite (assemble_advance _ _ 1) in Hdrop
      by (destruct bs1 as [|b ?]; [done|]; by destruct Hspans1);
    rewrite (take_one_drop _ _ _ Hi) in Hdrop;
    apply drop_cons_lookup in Hdrop as [Hi2 Hdrop];
    destruct (IH _ _ _ _ _ _ Hrest' Hrep Hdrop) as (bs2 & Hrun2 & Hrel);
    exists bs2; (split; [|exact Hrel]);
    cbn [scan_loop]; rewrite Hi2, scan_step_eq, Hd; exact Hrun2.
  destruct (is_target ty) eqn:Hty.
  - (* [block_default] or [block] *)
    apply bind_Ok in Hstep as (e & He & Hstep).
    apply bind_Ok in Hstep as (content & Hcontent & Hstep).
    injection Hstep as <- <- <-.
    set (b := {| b_type := ty; b_blockId := id; startLine := i; endLine := e;
                 b_indent := getCommentIndent line; b_content := content |}) in *.
    cbn [app] in *.
    inversion Hrep as [|? r ? rs1 Hr Hrep1]; subst.
    change i with (startLine b) in Hdrop at 1.
    rewrite (assemble_at _ _ _ _ _ line) in Hdrop by exact Hi.
    apply drop_cons_lookup in Hdrop as [Hi2 Hdrop]. cbn [endLine b] in Hdrop.
    pose proof (find_endblock_range _ _ _ He) as Hrange.
    destruct (assemble_tail lines e bs1 rs1 Hspans1 Hocc1)
      as (Htail & Hdrop1 & Hfind).
    { intros l Hl. apply find_endblock_scanned in He as [_ He].
      apply He. rewrite lookup_drop.
      by replace (i + 1 + (e - (i + 1))) with e by lia. }
    assert (find_endblock (drop (i2 + 1) lines2) (i2 + 1)
            = Ok (i2 + 1 + length r)) as He2.
    { rewrite Hdrop, find_endblock_skip by (by eapply replays_lines).
      apply Hfind. }
    assert (block_content ty lines2 i2 (getCommentIndent line) = Ok content)
      as Hcontent2.
    { destruct ty; try done; cbn [block_content] in *.
      apply bind_Ok in Hcontent as (pc & _ & [= Hpc]).
      destruct (replays_content b r (assemble lines e bs1 rs1) (i2 + 1)
                  (getCommentIndent line) Hr eq_refl eq_refl Htail)
        as (craw & n & t & Hloop & Hmap).
      unfold parseTemplateContent. rewrite Hdrop, Hloop.
      cbn [mbind result_bind pc_content]. by rewrite Hmap. }
    assert (drop (i2 + 1 + length r + 1) lines2
            = assemble lines (e + 1) bs1 rs1) as Hdrop2.
    { rewrite <- Hdrop1, <- drop_drop, <- drop_drop, Hdrop.
      by rewrite drop_app_length. }
    destruct (IH _ _ _ _ _ _ Hrest' Hrep1 Hdrop2) as (bs2 & Hrun2 & Hrel).
    eexists (_ :: bs2). split.
    + cbn [scan_loop]. rewrite Hi2, scan_step_eq, Hd. cbn [mbind result_bind].
      rewrite Hty, He2. cbn [mbind result_bind]. rewrite Hcontent2.
      cbn [mbind result_bind]. rewrite scan_loop_prefix_indep, Hrun2.
      reflexivity.
    + constructor; [|exact Hrel]. repeat split; cbn; try done.
      rewrite Hdrop. by rewrite take_app_length.
  - (* [block_replace] or [block_append] *)
    apply bind_Ok in Hstep as (pc & Hpc & Hstep).
    injection Hstep as <- <- <-. cbn [app] in *.
    pose proof (parseTemplateContent_nextLine _ _ _ _ Hpc) as [Hnext Hnext'].
    assert (match bs1 with b :: _ => pc_nextLine pc <= startLine b | [] => True end)
      as Hfirst by (destruct bs1 as [|b ?]; [done|]; by destruct Hspans1).
    rewrite (assemble_advance _ _ 1) in Hdrop
      by (destruct bs1 as [|b ?]; [done|]; lia).
    rewrite (take_one_drop _ _ _ Hi) in Hdrop.
    apply drop_cons_lookup in Hdrop as [Hi2 Hdrop].
    unfold parseTemplateContent in Hpc.
    apply bind_Ok in Hpc as ([[craw n] t] & Hloop & [= <-]).
    cbn [pc_nextLine pc_content] in *.
    apply lookup_lt_Some in Hi as Hilt.
    set (k := n - (i + 1)).
    set (pre := take k (drop (i + 1) lines)).
    assert (length pre = k) as Hpre
      by (unfold pre; rewrite length_take, length_drop; lia).
    assert (drop (i + 1) lines = pre ++ drop n lines) as Hsplit.
    { unfold pre. rewrite <- (take_drop k (drop (i + 1) lines)) at 1.
      rewrite drop_drop. do 2 f_equal. lia. }
    pose proof (content_loop_taken _ _ (i2 + 1) _ _ _ _ _ _ Hloop) as Htaken.
    fold k in Htaken. fold pre in Htaken. rewrite <- Hpre in Htaken.
    pose proof (content_loop_taken _ _ (i + 1) _ _ _ _ _ _ Hloop) as Htaken1.
    fold k in Htaken1. fold pre in Htaken1. rewrite <- Hpre in Htaken1.
    rewrite Hsplit, (content_loop_through _ _ _ _ _ _ _ _ Htaken1) in Hloop.
    replace (i + 1 + length pre) with n in Hloop by lia.
    assert (drop (i2 + 1) lines2 = pre ++ assemble lines n bs1 rs) as Hdrop'.
    { rewrite Hdrop, (assemble_advance _ _ k).
      - unfold pre. do 3 f_equal. lia.
      - destruct bs1 as [|b ?]; [done|]. lia. }
    assert (content_loop (drop (i2 + 1) lines2) (i2 + 1)
              (getCommentIndent line) [] None
            = Ok (craw, i2 + 1 + k, t)) as Hloop2.
    { rewrite Hdrop', (content_loop_through _ _ _ _ _ _ _ _ Htaken), Hpre.
      eapply content_loop_stays; [exact Hloop|].
      rewrite assemble_head, head_lookup, lookup_drop, Nat.add_0_r; [done|].
      destruct bs1 as [|b ?]; [done|]. split; [done|].
      apply Forall_cons in Hocc1 as [Hb%occurrence_bounds _]. lia. }
    assert (drop (i2 + 1 + k) lines2 = assemble lines n bs1 rs) as Hdrop2.
    { rewrite <- drop_drop, Hdrop', <- Hpre. by rewrite drop_app_length. }
    destruct (IH _ _ _ _ _ _ Hrest' Hrep Hdrop2) as (bs2 & Hrun2 & Hrel).
    exists bs2. split; [|exact Hrel].
    cbn [scan_loop]. rewrite Hi2, scan_step_eq, Hd. cbn [mbind result_bind].
    rewrite Hty. unfold parseTemplateContent. rewrite Hloop2.
    cbn [mbind result_bind pc_nextLine pc_content]. exact Hrun2.
Qed.

(** * Further properties of the code *)

(** ** The patcher's loops, over the lines of a span *)

Lemma find_existingIndent_span lines : forall n j span,
  take n (drop j lines) = span -> length span = n ->
  find_existingIndent lines j n = Ok (indent_of span).
Proof.
  induction n as [|n IH]; intros j span Hspan Hlen.
  - destruct span; [done|]. simpl in Hlen. lia.
  - destruct span as [|l span]; [done|].
    destruct (drop j lines) as [|l' rest] eqn:Hd; [done|].
    simpl in Hspan. injection Hspan as -> Hspan. injection Hlen as Hlen.
    apply drop_cons_lookup in Hd as [Hl Hd].
    cbn [find_existingIndent indent_of]. rewrite Hl, re_match_indent.
    rewrite (IH (S j) span); [by destruct (_ && _)| |done].
    by rewrite <- Nat.add_1_r, Hd.
Qed.

Lemma find_preserved_span lines ind : forall n j span,
  take n (drop j lines) = span -> length span = n ->
  find_preserved lines ind j n = kept_of ind span.
Proof.
  induction n as [|n IH]; intros j span Hspan Hlen.
  - destruct span; [done|]. simpl in Hlen. lia.
  - destruct span as [|l span]; [done|].
    destruct (drop j lines) as [|l' rest] eqn:Hd; [done|].
    simpl in Hspan. injection Hspan as -> Hspan. injection Hlen as Hlen.
    apply drop_cons_lookup in Hd as [Hl Hd].
    cbn [find_preserved kept_of]. rewrite Hl.
    rewrite (IH (S j) span); [done| |done].
    by rewrite <- Nat.add_1_r, Hd.
Qed.

Lemma preserves_comment ind l :
  preserves ind l = Ok true -> startsWith (trim l) (js "//") = true.
Proof. unfold preserves. by destruct (startsWith _ _). Qed.

Lemma kept_of_spec ind span : forall pres,
  kept_of ind span = Ok pres ->
  Forall (fun l => preserves ind l = Ok true) pres /\
  pres = take (length pres) span.
Proof.
  induction span as [|l span IH]; intros pres; simpl.
  - by intros [= <-].
  - intros (keep & Hkeep & H)%bind_Ok. destruct keep.
    + apply bind_Ok in H as (p & Hp & [= <-]).
      apply IH in Hp as [Hall Htake]. simpl. split; [by constructor|].
      by rewrite <- Htake.
    + by injection H as <-.
Qed.

Lemma kept_of_again ind pres gen :
  Forall (fun l => preserves ind l = Ok true) pres ->
  Forall not_comment gen ->
  kept_of ind (pres ++ gen) = Ok pres.
Proof.
  intros Hpres Hgen. induction Hpres as [|l pres Hl _ IH]; simpl.
  - destruct gen as [|g gen]; [done|]. simpl.
    apply Forall_cons in Hgen as [Hg _].
    by rewrite (not_comment_preserved g ind Hg).
  - by rewrite Hl, IH.
Qed.

Lemma indent_of_kept ind pres gen :
  Forall (fun l => preserves ind l = Ok true) pres ->
  indent_of (pres ++ gen) = indent_of gen.
Proof.
  intros Hpres. induction Hpres as [|l pres Hl _ IH]; simpl; [done|].
  by rewrite (preserves_comment _ _ Hl), andb_false_r.
Qed.

Lemma take_while_ws_all s : all_ws (take_while is_ws s).
Proof.
  induction s as [|c s IH]; simpl; [constructor|].
  destruct (is_ws c) eqn:Hc; [by constructor | constructor].
Qed.

Lemma indent_of_ws span : all_ws (indent_of span).
Proof.
  induction span as [|l span IH]; simpl; [constructor|].
  destruct (_ && _); [apply take_while_ws_all | exact IH].
Qed.

Lemma not_comment_code ind c :
  all_ws ind -> starts_text c -> not_comment (ind ++ c) ->
  startsWith c (js "//") = false.
Proof.
  intros Hind Hc Hnc. apply not_true_is_false.
  intros [r Hr%strip_prefix_Some]%startsWith_strip.
  unfold not_comment in Hnc. apply not_true_iff_false in Hnc. apply Hnc.
  apply comment_line_spec. exists r.
  by destruct (take_while_app_stop is_ws ind c Hind) as [_ ->];
    [destruct c|].
Qed.

(** Read from the lines it has produced, the indentation produces the
    same lines. *)
Lemma indent_of_rendered ind items :
  all_ws ind -> head_ok items ->
  Forall not_comment (map (render ind) items) ->
  map (render (indent_of (map (render ind) items))) items
  = map (render ind) items.
Proof.
  intros Hind. induction items as [|item items IH]; intros Hok Hnc; [done|].
  cbn [map head_ok] in *. apply Forall_cons in Hnc as [Hnc1 Hnc].
  assert (indent_of (render ind item :: map (render ind) items)
          = if isEmpty item then indent_of (map (render ind) items) else ind)
    as ->.
  { unfold render at 1. unfold render in Hnc1. cbn [indent_of].
    destruct (isEmpty item); [done|].
    pose proof (not_comment_code _ _ Hind Hok Hnc1) as Hcode.
    rewrite (code_line_not_blank ind (finalContent item) Hind Hok Hcode).
    unfold not_comment in Hnc1. rewrite Hnc1. cbn [negb andb].
    by destruct (code_line_lead ind (finalContent item) Hind Hok Hcode)
      as [-> _]. }
  destruct (isEmpty item) eqn:Hempty; [|done].
  rewrite IH by done. f_equal. unfold render. by rewrite Hempty.
Qed.

(** *** The template comments the patcher keeps *)

Lemma drop_while_app_stop {A} (p : A -> bool) l c m :
  p c = false -> drop_while p (l ++ c :: m) = drop_while p l ++ c :: m.
Proof.
  intros Hc. induction l as [|d l IH]; simpl; [by rewrite Hc|].
  by destruct (p d).
Qed.

Lemma rtrim_text s c m :
  drop_while is_ws s = c :: m ->
  exists m', rev (drop_while is_ws (rev s)) = take_while is_ws s ++ c :: m'.
Proof.
  intros Hd. pose proof (drop_while_head _ _ _ _ Hd) as Hc.
  exists (rev (drop_while is_ws (rev m))).
  rewrite <- (take_drop_while is_ws s) at 1. rewrite Hd.
  rewrite rev_app_distr. cbn [rev]. rewrite <- app_assoc. cbn [app].
  rewrite drop_while_app_stop by done.
  rewrite rev_app_distr. cbn [rev]. by rewrite rev_involutive, <- app_assoc.
Qed.

(** A comment whose text does not start with [@] is no directive. *)
Lemma text_no_directive line r c m :
  drop_while is_ws line = js "//" ++ r ->
  drop_while is_ws r = c :: m -> c <> 64%N ->
  directive_parts line = None.
Proof.
  rewrite js_slashes. intros Hd Hr Hc. unfold directive_parts, trim.
  rewrite Hd. cbn [app]. rewrite !rtrim_cons by done.
  destruct (rtrim_text r c m Hr) as [m' ->].
  unfold re_match, directive_re. cbn [rmatch]. rewrite !N.eqb_refl.
  rewrite star_longest.
  - pose proof (drop_while_head _ _ _ _ Hr) as Hws.
    rewrite drop_while_app_stop by done.
    rewrite (proj2 (drop_while_nil is_ws _) (take_while_ws_all r)).
    cbn [app]. apply N.eqb_neq in Hc. rewrite N.eqb_sym in Hc.
    by rewrite Hc.
  - intros ch s' Hch. destruct (64 =? ch)%N eqn:Heq; [|done].
    apply N.eqb_eq in Heq as <-. discriminate.
Qed.

Lemma js_at : js "@" = [64]%N.
Proof. reflexivity. Qed.

(** The text of a kept comment starts with a character that is neither
    white space nor [@]. *)
Lemma kept_text_head r :
  kept_text (take_while is_dot (drop_while is_ws r)) = true ->
  exists c m, drop_while is_ws r = c :: m /\ c <> 64%N.
Proof.
  unfold kept_text. rewrite js_at.
  destruct (drop_while is_ws r) as [|c m] eqn:Hr; [done|].
  pose proof (drop_while_head _ _ _ _ Hr) as Hc.
  cbn [take_while]. rewrite (ws_is_dot c Hc).
  intros [_ Hat%negb_true_iff]%andb_true_iff.
  exists c, m. split; [done|]. intros ->.
  unfold trim in Hat. cbn [drop_while] in Hat. rewrite Hc in Hat.
  rewrite rtrim_cons in Hat by done. by cbn in Hat.
Qed.

(** A comment the patcher keeps is one the extractor takes, as one more
    content line, and is no directive. *)
Lemma preserves_step blockIndent line :
  preserves blockIndent line = Ok true ->
  parseTemplateLine line = Ok None /\
  forall content templateIndent, exists item templateIndent',
    content_step line blockIndent content templateIndent
    = Ok (Some (content ++ [item], templateIndent')).
Proof.
  unfold preserves, content_step.
  destruct (startsWith (trim line) (js "//")) eqn:Hc; [|done].
  pose proof Hc as [r Hr]%comment_line_spec.
  destruct (comment_line_indent line Hc) as (ci & -> & ->).
  intros (n & Hn & H)%bind_Ok. rewrite Hn. cbn [mbind result_bind].
  destruct (n <=? length (default [] (Some ci))) eqn:Hle; [|done].
  rewrite re_match_content in *. rewrite Hr in *.
  replace (strip_prefix (js "//") (js "//" ++ r)) with (Some r) in *
    by (symmetry; by apply strip_prefix_Some).
  injection H as H. apply kept_text_head in H as (c & m & Hm & Hat).
  assert (parseTemplateLine line = Ok None) as Hdir.
  { unfold parseTemplateLine.
    by rewrite (text_no_directive line r c m Hr Hm Hat). }
  split; [exact Hdir|]. intros content templateIndent. rewrite Hdir.
  cbn [mbind result_bind orb]. eauto.
Qed.

(** *** The first content line carries no indentation of its own *)

Lemma raw_ok_push t c item :
  raw_ok t c ->
  (r_isEmpty item = false -> starts_text (r_contentText item)) ->
  raw_ok (match t with
          | None => if negb (r_isEmpty item) then Some (r_commentSpaces item)
                    else None
          | Some x => Some x
          end) (c ++ [item]).
Proof.
  intros Hc Hitem. induction c as [|x c IH]; simpl in *.
  - subst t. destruct (r_isEmpty item); simpl; auto.
  - destruct (r_isEmpty x); [by apply IH|]. by destruct Hc as [-> ?].
Qed.

Lemma content_text_starts r :
  is_blank (take_while is_dot (drop_while is_ws r)) = false ->
  starts_text (take_while is_dot (drop_while is_ws r)).
Proof.
  destruct (drop_while is_ws r) as [|c m] eqn:Hr; [done|].
  pose proof (drop_while_head _ _ _ _ Hr) as Hc.
  cbn [take_while]. by rewrite (ws_is_dot c Hc).
Qed.

Lemma content_step_raw_ok line base c t c' t' :
  content_step line base c t = Ok (Some (c', t')) ->
  raw_ok t c -> raw_ok t' c'.
Proof.
  unfold content_step.
  destruct (startsWith (trim line) (js "//")) eqn:Hc; [|done].
  pose proof Hc as [r Hr]%comment_line_spec.
  intros (d & _ & H)%bind_Ok. destruct d; [done|].
  destruct (truthy _); [|done].
  apply bind_Ok in H as (n & _ & H).
  destruct (_ || _); [|done].
  rewrite re_match_content, Hr in H.
  replace (strip_prefix (js "//") (js "//" ++ r)) with (Some r) in H
    by (symmetry; by apply strip_prefix_Some).
  injection H as <- <-. intros Hok.
  match goal with
  | |- raw_ok _ (c ++ [?x]) => apply (raw_ok_push t c x Hok)
  end.
  cbn [r_isEmpty r_contentText]. apply content_text_starts.
Qed.

Lemma content_loop_raw_ok rest : forall i base c t c' n t',
  content_loop rest i base c t = Ok (c', n, t') ->
  raw_ok t c -> raw_ok t' c'.
Proof.
  induction rest as [|l rest IH]; intros i base c t c' n t'; simpl.
  - by intros [= <- _ <-].
  - intros (r & Hr & H)%bind_Ok Hok. destruct r as [[c1 t1]|].
    + eapply IH; [exact H|]. by eapply content_step_raw_ok.
    + by injection H as <- _ <-.
Qed.

Lemma apply_indent_isEmpty t item :
  isEmpty (apply_indent t item) = r_isEmpty item.
Proof.
  unfold apply_indent. destruct (r_isEmpty item) eqn:He; [by rewrite <- He|].
  destruct t as [t|].
  - destruct (startsWith _ _); [by rewrite <- He|].
    destruct (_ && _); [by rewrite <- He|].
    destruct (_ && _); by rewrite <- He.
  - destruct (_ && _); by rewrite <- He.
Qed.

Lemma raw_ok_head t c : raw_ok t c -> head_ok (map (apply_indent t) c).
Proof.
  induction c as [|x c IH]; simpl; [done|].
  rewrite apply_indent_isEmpty.
  destruct (r_isEmpty x) eqn:He; [exact IH|].
  intros [-> Htext]. unfold apply_indent. rewrite He, startsWith_refl.
  unfold substring. by rewrite drop_all.
Qed.

Lemma parseTemplateContent_head lines s base pc :
  parseTemplateContent lines s base = Ok pc -> head_ok (pc_content pc).
Proof.
  unfold parseTemplateContent.
  intros ([[c n] t] & H & [= <-])%bind_Ok. simpl.
  eapply raw_ok_head, content_loop_raw_ok; [exact H | done].
Qed.

Lemma head_ok_app a b : head_ok a -> head_ok b -> head_ok (a ++ b).
Proof.
  intros Ha Hb. induction a as [|x a IH]; simpl in *; [done|].
  destruct (isEmpty x); auto.
Qed.

(** ** Reading a file as lines and writing the lines back *)

(** The cases of [split_lines_go], one character at a time. *)
Lemma split_lines_go_cons c s cur :
  split_lines_go (c :: s) cur
  = if (c =? 10)%N then rev cur :: split_lines_go s []
    else
      match s with
      | d :: s' =>
          if (c =? 13)%N && (d =? 10)%N then rev cur :: split_lines_go s' []
          else split_lines_go s (c :: cur)
      | [] => split_lines_go [] (c :: cur)
      end.
Proof.
  destruct c as [|p]; [by destruct s|].
  do 4 (try destruct p as [p|p|]); try (by destruct s).
  destruct s as [|d s']; [done|].
  destruct d as [|q]; [done|].
  do 4 (try destruct q as [q|q|]); done.
Qed.

Lemma split_lines_go_nonempty s : forall cur, split_lines_go s cur <> [].
Proof.
  induction s as [|c s IH]; intros cur; [done|].
  rewrite split_lines_go_cons.
  destruct (c =? 10)%N; [done|].
  destruct s as [|d s']; [done|].
  destruct (_ && _); [done | apply IH].
Qed.

Lemma join_lines_cons l ls :
  ls <> [] -> join_lines (l :: ls) = l ++ 10%N :: join_lines ls.
Proof. by destruct ls. Qed.

Lemma replace_crlf_cons c d s :
  replace_crlf (c :: d :: s)
  = if (c =? 13)%N && (d =? 10)%N then 10%N :: replace_crlf s
    else c :: replace_crlf (d :: s).
Proof. reflexivity. Qed.

Lemma join_split_go n : forall s cur,
  length s <= n ->
  join_lines (split_lines_go s cur) = rev cur ++ replace_crlf s.
Proof.
  induction n as [|n IH]; intros s cur Hn.
  - destruct s; [|simpl in Hn; lia]. simpl. by rewrite app_nil_r.
  - destruct s as [|c s]; [simpl; by rewrite app_nil_r|].
    simpl in Hn. rewrite split_lines_go_cons.
    destruct (c =? 10)%N eqn:Hc.
    + apply N.eqb_eq in Hc as ->.
      rewrite join_lines_cons by apply split_lines_go_nonempty.
      rewrite (IH s []) by lia. simpl. by destruct s.
    + destruct s as [|d s'].
      * done.
      * simpl in Hn. rewrite replace_crlf_cons.
        destruct ((c =? 13)%N && (d =? 10)%N) eqn:Hcd.
        -- rewrite join_lines_cons by apply split_lines_go_nonempty.
           by rewrite (IH s' []) by lia.
        -- rewrite (IH (d :: s') (c :: cur)) by (simpl; lia).
           simpl. by rewrite <- app_assoc.
Qed.

Lemma replace_crlf_id n : forall s,
  length s <= n -> 13%N ∉ s -> replace_crlf s = s.
Proof.
  induction n as [|n IH]; intros s Hn Hs.
  - destruct s; [done|]. simpl in Hn. lia.
  - destruct s as [|c [|d s']]; [done..|].
    simpl in Hn. rewrite replace_crlf_cons.
    apply not_elem_of_cons in Hs as [Hc Hs].
    apply N.eqb_neq in Hc. rewrite N.eqb_sym in Hc. rewrite Hc. cbn [andb].
    by rewrite (IH (d :: s')) by (simpl; lia || done).
Qed.

Lemma replace_cr_id s : 13%N ∉ s -> replace_cr s = s.
Proof.
  induction s as [|c s IH]; [done|].
  intros [Hc Hs]%not_elem_of_cons. simpl.
  apply N.eqb_neq in Hc. rewrite N.eqb_sym in Hc. rewrite Hc.
  by rewrite IH.
Qed.

Lemma replace_cr_free s : 13%N ∉ replace_cr s.
Proof.
  induction s as [|c s IH]; simpl; [apply not_elem_of_nil|].
  apply not_elem_of_cons. split; [|exact IH].
  destruct (c =? 13)%N eqn:Hc; [done|].
  apply N.eqb_neq in Hc. congruence.
Qed.

Lemma split_lines_go_line l : forall cur,
  10%N ∉ l -> last l <> Some 13%N ->
  split_lines_go l cur = [rev cur ++ l].
Proof.
  induction l as [|c l IH]; intros cur Hlf Hcr.
  - simpl. by rewrite app_nil_r.
  - apply not_elem_of_cons in Hlf as [Hc Hlf].
    rewrite split_lines_go_cons.
    apply N.eqb_neq in Hc. rewrite N.eqb_sym in Hc. rewrite Hc.
    destruct l as [|d l'].
    + done.
    + pose proof Hlf as [Hd _]%not_elem_of_cons.
      apply N.eqb_neq in Hd. rewrite N.eqb_sym in Hd.
      rewrite Hd, andb_false_r.
      rewrite IH by (done || by rewrite last_cons_cons in Hcr).
      simpl. by rewrite <- app_assoc.
Qed.

Lemma split_lines_go_break l t : forall cur,
  10%N ∉ l -> last l <> Some 13%N ->
  split_lines_go (l ++ 10%N :: t) cur
  = (rev cur ++ l) :: split_lines_go t [].
Proof.
  induction l as [|c l IH]; intros cur Hlf Hcr.
  - cbn [app]. rewrite split_lines_go_cons. simpl. by rewrite app_nil_r.
  - apply not_elem_of_cons in Hlf as [Hc Hlf].
    cbn [app]. rewrite split_lines_go_cons.
    apply N.eqb_neq in Hc. rewrite N.eqb_sym in Hc. rewrite Hc.
    destruct l as [|d l'].
    + cbn [app]. assert (c <> 13%N) as Hc13 by (intros ->; by apply Hcr).
      apply N.eqb_neq in Hc13. rewrite Hc13. cbn [andb].
      by rewrite split_lines_go_cons.
    + pose proof Hlf as [Hd _]%not_elem_of_cons.
      apply N.eqb_neq in Hd. rewrite N.eqb_sym in Hd.
      cbn [app]. rewrite Hd, andb_false_r.
      change (d :: l' ++ 10%N :: t) with ((d :: l') ++ 10%N :: t).
      rewrite IH by (done || by rewrite last_cons_cons in Hcr).
      simpl. by rewrite <- app_assoc.
Qed.

Lemma split_lines_go_count n : forall s cur,
  length s <= n ->
  length (split_lines_go s cur) = S (count_lf s).
Proof.
  unfold count_lf.
  induction n as [|n IH]; intros s cur Hn.
  - destruct s; [done|]. simpl in Hn. lia.
  - destruct s as [|c s]; [done|]. simpl in Hn.
    rewrite split_lines_go_cons, filter_cons.
    destruct (c =? 10)%N eqn:Hc.
    + apply N.eqb_eq in Hc as ->. rewrite decide_True by done.
      simpl. by rewrite IH by lia.
    + apply N.eqb_neq in Hc. rewrite decide_False by done.
      destruct s as [|d s']; [done|]. simpl in Hn.
      destruct ((c =? 13)%N && (d =? 10)%N) eqn:Hcd.
      * apply andb_true_iff in Hcd as [_ ->%N.eqb_eq].
        rewrite filter_cons, decide_True by done.
        simpl. by rewrite IH by lia.
      * by rewrite (IH (d :: s')) by (simpl; lia).
Qed.

Lemma elem_of_rev {A} (x : A) l : x ∈ rev l <-> x ∈ l.
Proof. rewrite rev_alt. apply elem_of_reverse. Qed.

Lemma split_lines_go_no_lf n : forall s cur,
  length s <= n -> 10%N ∉ cur ->
  Forall (fun l => 10%N ∉ l) (split_lines_go s cur).
Proof.
  induction n as [|n IH]; intros s cur Hn Hcur.
  - destruct s; [|simpl in Hn; lia]. simpl.
    constructor; [by rewrite elem_of_rev | constructor].
  - destruct s as [|c s].
    { simpl. constructor; [by rewrite elem_of_rev | constructor]. }
    simpl in Hn. rewrite split_lines_go_cons.
    destruct (c =? 10)%N eqn:Hc.
    + constructor; [by rewrite elem_of_rev|].
      apply IH; [lia | apply not_elem_of_nil].
    + apply N.eqb_neq in Hc.
      assert (10%N ∉ c :: cur) as Hcur'
        by (apply not_elem_of_cons; split; [congruence | done]).
      destruct s as [|d s'].
      { simpl. constructor; [|constructor].
        rewrite elem_of_app, elem_of_rev, list_elem_of_singleton.
        intros [?|?]; [done | congruence]. }
      simpl in Hn. destruct ((c =? 13)%N && (d =? 10)%N).
      * constructor; [by rewrite elem_of_rev|].
        apply IH; [lia | apply not_elem_of_nil].
      * apply IH; [simpl; lia | done].
Qed.

(** X1.  What [parseFile] reads as lines and [generateOutput] joins with
    [\n] is the text with every [\r\n] replaced by [\n], the first step of
    the test harness's [normalizeLineEndings]; a text without carriage
    return is read and written back unchanged. *)
Theorem lines_written_back (content : jsstring) :
  join_lines (split_lines content) = replace_crlf content /\
  (13%N ∉ content -> join_lines (split_lines content) = content).
Proof.
  assert (join_lines (split_lines content) = replace_crlf content) as H.
  { unfold split_lines. by rewrite (join_split_go (length content)). }
  split; [exact H|]. intros Hcr. rewrite H.
  by apply (replace_crlf_id (length content)).
Qed.

(** X2.  [content.split(/\r?\n/)] gives one line more than the text has
    line feeds (so at least one line, also for the empty text), and no
    line holds a line feed. *)
Theorem split_lines_shape (content : jsstring) :
  length (split_lines content) = S (count_lf content) /\
  Forall (fun line => 10%N ∉ line) (split_lines content).
Proof.
  unfold split_lines. split.
  - by apply (split_lines_go_count (length content)).
  - apply (split_lines_go_no_lf (length content)); [done|].
    apply not_elem_of_nil.
Qed.

Lemma split_join_eq (lines : list jsstring) :
  lines <> [] -> Forall rereadable lines ->
  split_lines (join_lines lines) = lines.
Proof.
  unfold split_lines. intros Hne Hall.
  induction Hall as [|l ls [Hlf Hcr] Hls IH]; [done|].
  destruct ls as [|l' ls'].
  - simpl. by rewrite split_lines_go_line.
  - rewrite join_lines_cons by done.
    rewrite split_lines_go_break by done. by rewrite IH.
Qed.

(** X3.  Lines that hold no line feed and do not end with a carriage
    return, joined with [\n] as [generateOutput] writes them, are read back
    by [parseFile] as the same lines. *)
Theorem split_join_lines (lines : list jsstring) :
  lines <> [] -> Forall rereadable lines ->
  split_lines (join_lines lines) = lines /\
  join_lines (split_lines (join_lines lines)) = join_lines lines.
Proof.
  intros Hne Hall.
  assert (split_lines (join_lines lines) = lines) as H
    by (by apply split_join_eq).
  split; [exact H | by rewrite H].
Qed.

Lemma split_join_lines_witness :
  split_lines (join_lines [js "a"; []; js "b c"]) = [js "a"; []; js "b c"] /\
  join_lines (split_lines (join_lines [js "a"; []; js "b c"]))
  = join_lines [js "a"; []; js "b c"].
Proof.
  apply split_join_lines; [done|].
  repeat constructor; vm_compute; try discriminate;
    intros H; repeat (apply elem_of_cons in H as [H|H]; [discriminate|]);
    by apply elem_of_nil in H.
Defined.

(** X4.  [normalizeLineEndings] of the test harness leaves no carriage
    return, changes nothing in a text that has none, and changes nothing
    when applied a second time. *)
Theorem normalizeLineEndings_spec (text : jsstring) :
  (13%N ∉ normalizeLineEndings text) /\
  (13%N ∉ text -> normalizeLineEndings text = text) /\
  normalizeLineEndings (normalizeLineEndings text) = normalizeLineEndings text.
Proof.
  assert (forall t, 13%N ∉ t -> normalizeLineEndings t = t) as Hid.
  { intros t Ht. unfold normalizeLineEndings.
    rewrite (replace_crlf_id (length t)) by done. by apply replace_cr_id. }
  split; [apply replace_cr_free|]. split; [apply Hid|].
  apply Hid, replace_cr_free.
Qed.

(** ** Directive lines, whatever stands around them *)

Lemma drop_while_all_app {A} (p : A -> bool) l r :
  Forall (fun x => p x = true) l -> drop_while p (l ++ r) = drop_while p r.
Proof.
  induction 1 as [|x l Hx _ IH]; simpl; [done|]. by rewrite Hx.
Qed.

Lemma Forall_rev_ws s : all_ws s -> all_ws (rev s).
Proof.
  unfold all_ws. rewrite !Forall_forall. intros H x Hx.
  apply H. by apply elem_of_rev.
Qed.

(** White space around a text does not count for [trim]. *)
Lemma trim_pad pre s post :
  all_ws pre -> all_ws post -> trim (pre ++ s ++ post) = trim s.
Proof.
  intros Hpre Hpost. unfold trim.
  rewrite drop_while_all_app by exact Hpre.
  destruct (drop_while is_ws s) as [|c m] eqn:Hs.
  - apply drop_while_nil in Hs.
    rewrite (proj2 (drop_while_nil is_ws (s ++ post))); [done|].
    by apply Forall_app.
  - pose proof (drop_while_head _ _ _ _ Hs) as Hc.
    rewrite <- (take_drop_while is_ws s) at 1. rewrite Hs, <- app_assoc.
    rewrite drop_while_all_app by apply take_while_ws_all.
    cbn [app drop_while]. rewrite Hc.
    change (c :: m ++ post) with ((c :: m) ++ post).
    rewrite rev_app_distr.
    by rewrite drop_while_all_app by by apply Forall_rev_ws.
Qed.

(** A text with no white space at either end is its own [trim]. *)
Lemma trim_core c m :
  is_ws c = false ->
  match last (c :: m) with Some d => is_ws d = false | None => True end ->
  trim (c :: m) = c :: m.
Proof.
  intros Hc Hlast. unfold trim. cbn [drop_while]. rewrite Hc.
  destruct (rev (c :: m)) as [|d r] eqn:Hrev.
  - apply (f_equal (@length _)) in Hrev. rewrite length_rev in Hrev. done.
  - assert (last (c :: m) = Some d) as Hd.
    { rewrite <- (rev_involutive (c :: m)), Hrev. simpl.
      by rewrite last_snoc. }
    rewrite Hd in Hlast. cbn [drop_while]. rewrite Hlast, <- Hrev.
    apply rev_involutive.
Qed.

Lemma parseTemplateLine_pad_eq pre line post :
  all_ws pre -> all_ws post ->
  parseTemplateLine (pre ++ line ++ post) = parseTemplateLine line.
Proof.
  intros Hpre Hpost. unfold parseTemplateLine, directive_parts.
  by rewrite trim_pad.
Qed.

(** X5.  [parseTemplateLine] looks at the trimmed line only: white space
    before and after a line changes neither the directive it returns nor
    the exception it throws. *)
Theorem parseTemplateLine_padding (pre line post : jsstring) :
  all_ws pre -> all_ws post ->
  parseTemplateLine (pre ++ line ++ post) = parseTemplateLine line.
Proof.
  intros Hpre Hpost. unfold parseTemplateLine, directive_parts.
  by rewrite trim_pad.
Qed.

Lemma parseTemplateLine_padding_witness :
  parseTemplateLine (js "    " ++ js "// @block X" ++ js "  ")
  = parseTemplateLine (js "// @block X").
Proof.
  apply parseTemplateLine_padding; vm_compute; by repeat constructor.
Defined.

(** X6.  A line on which [parseTemplateLine] returns a directive, or
    throws, reads, once trimmed: [//], white space, [@], a word
    character.  Any other line gives [null]. *)
Theorem directive_shape (line : jsstring) :
  parseTemplateLine line <> Ok None ->
  exists sp w rest,
    all_ws sp /\ is_word w = true /\
    trim line = js "//" ++ sp ++ 64%N :: w :: rest.
Proof.
  intros H. unfold parseTemplateLine in H.
  destruct (directive_parts line) as [p|] eqn:Hp; [clear H | done].
  unfold directive_parts in Hp.
  destruct (re_match directive_re (trim line)) as [m|] eqn:Hm; [clear Hp | done].
  rewrite js_slashes. unfold re_match, directive_re in Hm.
  destruct (trim line) as [|c [|d t]]; cbn [rmatch] in Hm; try done.
  - by destruct (47 =? c)%N.
  - destruct (47 =? c)%N eqn:Hc; [|done].
    destruct (47 =? d)%N eqn:Hd; [|done].
    apply N.eqb_eq in Hc as <-. apply N.eqb_eq in Hd as <-.
    rewrite star_longest in Hm.
    + destruct (drop_while is_ws t) as [|a [|w rest]] eqn:Ht; try done.
      * by destruct (64 =? a)%N.
      * destruct (64 =? a)%N eqn:Ha; [|done].
        apply N.eqb_eq in Ha as <-.
        destruct (is_word w) eqn:Hw; [|done].
        exists (take_while is_ws t), w, rest.
        split; [apply take_while_ws_all|]. split; [done|].
        cbn [app]. by rewrite <- Ht, take_drop_while.
    + intros ch s' Hch. destruct (64 =? ch)%N eqn:Heq; [|done].
      apply N.eqb_eq in Heq as <-. discriminate.
Qed.

Lemma directive_shape_witness :
  exists sp w rest,
    all_ws sp /\ is_word w = true /\
    trim (js "  // @endblock") = js "//" ++ sp ++ 64%N :: w :: rest.
Proof. apply directive_shape. vm_compute. discriminate. Defined.

(** X7.  [getCommentIndent] returns [null] exactly on the lines that are
    no comment lines.  On a comment line it returns a prefix of the line,
    which ends with the white space after [//]: what follows it in the
    line does not start with white space. *)
Theorem getCommentIndent_prefix (line : jsstring) :
  (getCommentIndent line = None <-> not_comment line) /\
  forall commentIndent,
    getCommentIndent line = Some commentIndent ->
    2 <= length commentIndent /\
    exists sp rest,
      all_ws sp /\ commentIndent = take_while is_ws line ++ js "//" ++ sp /\
      line = commentIndent ++ rest /\
      match rest with ch :: _ => is_ws ch = false | [] => True end.
Proof.
  rewrite getCommentIndent_spec. split.
  - unfold not_comment. split.
    + intros Hnone. apply not_true_is_false.
      intros [r Hr]%comment_line_spec. rewrite Hr in Hnone.
      by rewrite (proj2 (strip_prefix_Some _ _ r)) in Hnone.
    + intros Hnc.
      destruct (strip_prefix _ _) as [r|] eqn:Hr; [|done].
      apply strip_prefix_Some in Hr.
      assert (startsWith (trim line) (js "//") = true)
        by (apply comment_line_spec; eauto).
      congruence.
  - intros ci Hci.
    destruct (strip_prefix _ _) as [r|] eqn:Hr; [|done].
    injection Hci as <-. apply strip_prefix_Some in Hr.
    split; [rewrite !length_app, js_slashes; simpl; lia|].
    exists (take_while is_ws r), (drop_while is_ws r).
    split; [apply take_while_ws_all|]. split; [done|]. split.
    + rewrite <- !app_assoc, take_drop_while, <- Hr.
      by rewrite take_drop_while.
    + destruct (drop_while is_ws r) as [|ch m] eqn:Hd; [done|].
      by apply drop_while_head in Hd.
Qed.

(** ** Well-formed directives are recognised *)

Lemma split_ws_go_word a : forall r cur in_sep,
  no_ws a -> a <> [] ->
  split_ws_go (a ++ r) cur in_sep = split_ws_go r (rev a ++ cur) false.
Proof.
  induction a as [|c a IH]; intros r cur in_sep Ha Hne; [done|].
  apply Forall_cons in Ha as [Hc Ha]. cbn [app split_ws_go]. rewrite Hc.
  destruct a as [|d a'].
  - done.
  - rewrite IH by done. cbn [rev]. by rewrite <- !app_assoc.
Qed.

Lemma split_ws_go_sep sep : forall r cur,
  all_ws sep ->
  split_ws_go (sep ++ r) cur true = split_ws_go r cur true.
Proof.
  induction sep as [|c sep IH]; intros r cur Hsep; [done|].
  apply Forall_cons in Hsep as [Hc Hsep]. cbn [app split_ws_go].
  by rewrite Hc, IH.
Qed.

Lemma split_ws_two a sep b :
  no_ws a -> a <> [] -> all_ws sep -> sep <> [] -> no_ws b -> b <> [] ->
  split_ws (a ++ sep ++ b) = [a; b].
Proof.
  intros Ha Hane Hsep Hsne Hb Hbne. unfold split_ws.
  rewrite split_ws_go_word by done.
  destruct sep as [|c sep]; [done|].
  apply Forall_cons in Hsep as [Hc Hsep].
  cbn [app split_ws_go]. rewrite Hc, split_ws_go_sep by done.
  rewrite <- (app_nil_r b), split_ws_go_word by done.
  simpl. by rewrite !app_nil_r, !rev_involutive.
Qed.

Lemma ws_not_word c : is_ws c = true -> is_word c = false.
Proof.
  unfold is_ws, is_lt, is_word. intros H.
  apply not_true_is_false. intros Hw.
  repeat (apply orb_true_iff in H as [H|H]);
    try (apply andb_true_iff in H as [H H']; apply N.leb_le in H, H');
    try apply N.eqb_eq in H;
    repeat (apply orb_true_iff in Hw as [Hw|Hw]);
    try (apply andb_true_iff in Hw as [Hw Hw']; apply N.leb_le in Hw, Hw');
    try apply N.eqb_eq in Hw; lia.
Qed.

Lemma drop_while_stop {A} (p : A -> bool) l r :
  Forall (fun x => p x = true) l ->
  match r with x :: _ => p x = false | [] => True end ->
  drop_while p (l ++ r) = r.
Proof. intros Hl Hr. by destruct (take_while_app_stop p l r Hl Hr). Qed.

(** The expression of [parseTemplateLine] on a command and one argument. *)
Lemma directive_re_two sp w cmd s0 sep i0 id :
  all_ws sp -> Forall (fun x => is_word x = true) (w :: cmd) ->
  all_ws (s0 :: sep) -> is_ws i0 = false ->
  Forall (fun x => is_dot x = true) id ->
  exists m,
    re_match directive_re
      (js "//" ++ sp ++ 64%N :: (w :: cmd) ++ (s0 :: sep) ++ i0 :: id)
    = Some m /\
    cap 1 m = Some (64%N :: (w :: cmd) ++ (s0 :: sep) ++ i0 :: id).
Proof.
  intros Hsp [Hw Hcmd]%Forall_cons [Hs0 Hsep]%Forall_cons Hi0 Hid.
  rewrite js_slashes. unfold re_match, directive_re.
  cbn [rmatch app]. rewrite !N.eqb_refl.
  eexists. split.
  - apply star_greedy. rewrite drop_while_stop by done.
    rewrite N.eqb_refl, Hw.
    apply star_greedy.
    rewrite drop_while_stop by (done || by apply ws_not_word).
    rewrite Hs0.
    erewrite (star_greedy is_ws); [reflexivity|].
    rewrite drop_while_stop by done.
    rewrite (ws_is_dot i0 Hi0).
    erewrite (star_greedy is_dot); [reflexivity|].
    by rewrite (proj2 (drop_while_nil is_dot id)).
  - unfold cap. simpl. by rewrite take_ge.
Qed.

Lemma command_name_shape ty :
  exists w cmd,
    command_name ty = 64%N :: w :: cmd /\
    Forall (fun x => is_word x = true) (w :: cmd) /\
    no_ws (command_name ty) /\
    block_command (command_name ty) = Some ty.
Proof.
  destruct ty; vm_compute; do 2 eexists;
    (split; [reflexivity|]); (split; [by repeat constructor|]);
    (split; [by repeat constructor | reflexivity]).
Qed.

Lemma trim_between c mid b :
  is_ws c = false -> no_ws b -> b <> [] ->
  trim (c :: mid ++ b) = c :: mid ++ b.
Proof.
  intros Hc Hb Hne. apply trim_core; [done|].
  rewrite app_comm_cons, last_app.
  destruct (last b) as [d|] eqn:Hd.
  - apply last_Some_elem_of in Hd.
    by apply (proj1 (Forall_forall _ _) Hb).
  - by apply last_None in Hd.
Qed.

(** X8.  A comment line that holds a block command, white space and one
    identifier without white space is recognised as that directive,
    whatever white space stands before the [//], after it, between the
    command and the identifier, and at the end of the line. *)
Theorem well_formed_directive_parses (ty : BlockType)
  (lead sp sep blockId trail : jsstring) :
  all_ws lead -> all_ws sp -> all_ws sep -> sep <> [] -> all_ws trail ->
  no_ws blockId -> blockId <> [] ->
  parseTemplateLine
    (lead ++ js "//" ++ sp ++ command_name ty ++ sep ++ blockId ++ trail)
  = Ok (Some (DBlock ty blockId)).
Proof.
  intros Hlead Hsp Hsep Hsne Htrail Hid Hine.
  destruct (command_name_shape ty) as (w & cmd & Hname & Hword & Hnows & Hcmd).
  replace (lead ++ js "//" ++ sp ++ command_name ty ++ sep ++ blockId ++ trail)
    with (lead ++ (js "//" ++ sp ++ command_name ty ++ sep ++ blockId) ++ trail)
    by (by rewrite <- !app_assoc).
  rewrite parseTemplateLine_pad_eq by done.
  destruct sep as [|s0 sep]; [done|]. destruct blockId as [|i0 idr]; [done|].
  destruct (directive_re_two sp w cmd s0 sep i0 idr) as (m & Hm & Hcap);
    [done | done | done | by apply Forall_cons in Hid as [? _] |
     apply Forall_cons in Hid as [_ Hid]; eapply Forall_impl; [exact Hid|];
     intros x; apply ws_is_dot |].
  unfold parseTemplateLine, directive_parts.
  assert (trim (js "//" ++ sp ++ command_name ty ++ (s0 :: sep) ++ i0 :: idr)
          = js "//" ++ sp ++ command_name ty ++ (s0 :: sep) ++ i0 :: idr) as ->.
  { rewrite js_slashes.
    replace ([47%N; 47%N] ++ sp ++ command_name ty ++ (s0 :: sep) ++ i0 :: idr)
      with (47%N :: (47%N :: sp ++ command_name ty ++ s0 :: sep) ++ i0 :: idr)
      by (cbn [app]; by rewrite <- !app_assoc).
    by apply trim_between. }
  rewrite Hname. cbn [app]. cbn [app] in Hm. rewrite Hm, Hcap.
  cbn [default from_option id app].
  assert (trim (64%N :: w :: cmd ++ s0 :: sep ++ i0 :: idr)
          = command_name ty ++ (s0 :: sep) ++ i0 :: idr) as ->.
  { rewrite Hname.
    replace (64%N :: w :: cmd ++ s0 :: sep ++ i0 :: idr)
      with (64%N :: (w :: cmd ++ s0 :: sep) ++ i0 :: idr)
      by (cbn [app]; by rewrite <- !app_assoc).
    rewrite trim_between by done. cbn [app]. by rewrite <- !app_assoc. }
  rewrite split_ws_two by (done || by rewrite Hname).
  cbn [head tail default from_option id]. by rewrite Hcmd.
Qed.

Lemma well_formed_directive_parses_witness :
  parseTemplateLine
    (js "  " ++ js "//" ++ js " " ++ command_name block_replace ++ js "  "
       ++ js "ARRAY_DEF" ++ js " ")
  = Ok (Some (DBlock block_replace (js "ARRAY_DEF"))).
Proof.
  apply well_formed_directive_parses;
    try (vm_compute; by repeat constructor); vm_compute; discriminate.
Defined.

(** ** [@endblock] lines *)

Lemma word_not_ws c : is_word c = true -> is_ws c = false.
Proof.
  intros Hw. destruct (is_ws c) eqn:Hc; [|done].
  apply ws_not_word in Hc. congruence.
Qed.

Lemma directive_re_one sp w cmd :
  all_ws sp -> Forall (fun x => is_word x = true) (w :: cmd) ->
  exists m,
    re_match directive_re (js "//" ++ sp ++ 64%N :: w :: cmd) = Some m /\
    cap 1 m = Some (64%N :: w :: cmd).
Proof.
  intros Hsp [Hw Hcmd]%Forall_cons.
  rewrite js_slashes. unfold re_match, directive_re.
  cbn [rmatch app]. rewrite !N.eqb_refl.
  eexists. split.
  - apply star_greedy. rewrite drop_while_stop by done.
    rewrite N.eqb_refl, Hw.
    apply star_greedy.
    rewrite (proj2 (drop_while_nil is_word cmd)) by done.
    reflexivity.
  - unfold cap. simpl. by rewrite take_ge.
Qed.

Lemma split_ws_head a sep r :
  no_ws a -> a <> [] -> all_ws sep -> sep <> [] ->
  head (split_ws (a ++ sep ++ r)) = Some a.
Proof.
  intros Ha Hane Hsep Hsne. unfold split_ws.
  rewrite split_ws_go_word by done.
  destruct sep as [|c sep]; [done|].
  apply Forall_cons in Hsep as [Hc Hsep].
  cbn [app split_ws_go]. rewrite Hc. simpl.
  by rewrite app_nil_r, rev_involutive.
Qed.

(** X9.  A comment line that holds [@endblock] is an [@endblock]
    directive, whatever white space stands around it; so is one where
    [@endblock] is followed by white space and any text on the same line:
    what follows the command is ignored. *)
Theorem endblock_parses (lead sp trail : jsstring) :
  all_ws lead -> all_ws sp -> all_ws trail ->
  parseTemplateLine (lead ++ js "//" ++ sp ++ js "@endblock" ++ trail)
  = Ok (Some DEndblock) /\
  forall sep c rest,
    all_ws sep -> sep <> [] -> is_ws c = false -> one_line rest ->
    match last (c :: rest) with Some d => is_ws d = false | None => True end ->
    parseTemplateLine
      (lead ++ js "//" ++ sp ++ js "@endblock" ++ sep ++ (c :: rest) ++ trail)
    = Ok (Some DEndblock).
Proof.
  intros Hlead Hsp Htrail.
  assert (exists w cmd,
             js "@endblock" = 64%N :: w :: cmd /\
             Forall (fun x => is_word x = true) (w :: cmd)) as
    (w & cmd & Hname & Hword).
  { vm_compute. do 2 eexists. split; [reflexivity | by repeat constructor]. }
  assert (no_ws (64%N :: w :: cmd)) as Hnows.
  { constructor; [done|]. eapply Forall_impl; [exact Hword|].
    intros x. apply word_not_ws. }
  assert (forall args,
             match block_command (js "@endblock") with
             | Some ty =>
                 match args with
                 | [blockId] => Ok (Some (DBlock ty blockId))
                 | _ => Throw (js "Invalid " ++ js "@endblock"
                                 ++ js ": expected exactly one identifier")
                 end
             | None =>
                 if str_eqb (js "@endblock") (js "@endblock")
                 then Ok (Some DEndblock)
                 else Ok (Some (DOther (substring 1 (js "@endblock")) args))
             end = Ok (Some DEndblock)) as Hswitch by done.
  split.
  - replace (lead ++ js "//" ++ sp ++ js "@endblock" ++ trail)
      with (lead ++ (js "//" ++ sp ++ js "@endblock") ++ trail)
      by (by rewrite <- !app_assoc).
    rewrite parseTemplateLine_pad_eq by done.
    destruct (directive_re_one sp w cmd Hsp Hword) as (m & Hm & Hcap).
    unfold parseTemplateLine, directive_parts.
    assert (trim (js "//" ++ sp ++ js "@endblock")
            = js "//" ++ sp ++ js "@endblock") as ->.
    { rewrite js_slashes.
      replace ([47%N; 47%N] ++ sp ++ js "@endblock")
        with (47%N :: (47%N :: sp) ++ js "@endblock") by done.
      apply trim_between; [done | by rewrite Hname | by rewrite Hname]. }
    rewrite Hname, Hm, Hcap. cbn [default from_option id].
    assert (trim (64%N :: w :: cmd) = 64%N :: w :: cmd) as ->.
    { apply (trim_between 64%N [] (w :: cmd)); [done| |done].
      by apply Forall_cons in Hnows as [_ ?]. }
    rewrite <- (app_nil_r (64%N :: w :: cmd)).
    unfold split_ws. rewrite split_ws_go_word by done.
    cbn [split_ws_go head tail default from_option id].
    rewrite app_nil_r, rev_involutive. rewrite <- Hname.
    rewrite app_nil_r. apply (Hswitch []).
  - intros sep c rest Hsep Hsne Hc Hrest Hlast.
    replace (lead ++ js "//" ++ sp ++ js "@endblock" ++ sep ++ (c :: rest) ++ trail)
      with (lead ++ (js "//" ++ sp ++ js "@endblock" ++ sep ++ c :: rest) ++ trail)
      by (by rewrite <- !app_assoc).
    rewrite parseTemplateLine_pad_eq by done.
    destruct sep as [|s0 sep]; [done|].
    destruct (directive_re_two sp w cmd s0 sep c rest) as (m & Hm & Hcap);
      [done | done | done | done | |].
    { eapply Forall_impl; [exact Hrest|]. intros x Hx. unfold is_dot.
      by rewrite Hx. }
    unfold parseTemplateLine, directive_parts.
    assert (forall pre,
               match last (pre ++ c :: rest) with
               | Some d => is_ws d = false
               | None => True
               end) as Hlast'.
    { intros pre. rewrite last_app.
      destruct (last (c :: rest)) eqn:Hl; [done|]. by apply last_None in Hl. }
    assert (trim (js "//" ++ sp ++ js "@endblock" ++ (s0 :: sep) ++ c :: rest)
            = js "//" ++ sp ++ js "@endblock" ++ (s0 :: sep) ++ c :: rest) as ->.
    { rewrite js_slashes. cbn [app]. apply trim_core; [done|].
      replace (47%N :: 47%N :: sp ++ js "@endblock" ++ s0 :: sep ++ c :: rest)
        with ((47%N :: 47%N :: sp ++ js "@endblock" ++ s0 :: sep) ++ c :: rest)
        by (cbn [app]; by rewrite <- !app_assoc).
      apply Hlast'. }
    rewrite Hname. cbn [app] in *. rewrite Hm, Hcap.
    cbn [default from_option id].
    assert (trim (64%N :: w :: cmd ++ s0 :: sep ++ c :: rest)
            = (64%N :: w :: cmd) ++ (s0 :: sep) ++ c :: rest) as ->.
    { cbn [app]. apply trim_core; [done|].
      replace (64%N :: w :: cmd ++ s0 :: sep ++ c :: rest)
        with ((64%N :: w :: cmd ++ s0 :: sep) ++ c :: rest)
        by (cbn [app]; by rewrite <- !app_assoc).
      apply Hlast'. }
    rewrite split_ws_head by done.
    cbn [default from_option id]. rewrite <- Hname. apply Hswitch.
Qed.

Lemma endblock_parses_witness :
  parseTemplateLine (js "  " ++ js "//" ++ js " " ++ js "@endblock" ++ js " ")
  = Ok (Some DEndblock) /\
  forall sep c rest,
    all_ws sep -> sep <> [] -> is_ws c = false -> one_line rest ->
    match last (c :: rest) with Some d => is_ws d = false | None => True end ->
    parseTemplateLine
      (js "  " ++ js "//" ++ js " " ++ js "@endblock" ++ sep ++ (c :: rest)
         ++ js " ")
    = Ok (Some DEndblock).
Proof.
  apply endblock_parses; vm_compute; by repeat constructor.
Defined.

(** ** The items of a template body *)

(** A line the extractor takes gives one item. *)
Lemma content_step_push line base c t c' t' :
  content_step line base c t = Ok (Some (c', t')) ->
  startsWith (trim line) (js "//") = true /\
  parseTemplateLine line = Ok None /\
  exists item,
    c' = c ++ [item] /\ r_originalLine item = line /\ raw_line item.
Proof.
  unfold content_step.
  destruct (startsWith (trim line) (js "//")) eqn:Hc; [|done].
  pose proof Hc as [r Hr]%comment_line_spec.
  intros (d & Hd & H)%bind_Ok. destruct d; [done|].
  destruct (truthy _); [|done].
  apply bind_Ok in H as (n & _ & H).
  destruct (_ || _); [|done].
  rewrite re_match_content, Hr in H.
  replace (strip_prefix (js "//") (js "//" ++ r)) with (Some r) in H
    by (symmetry; by apply strip_prefix_Some).
  injection H as <- <-. split; [done|]. split; [done|].
  eexists. split; [reflexivity|]. split; [reflexivity|].
  exists r. by repeat split.
Qed.

Lemma content_loop_items rest : forall i base c t c' i' t',
  content_loop rest i base c t = Ok (c', i', t') ->
  exists ext,
    c' = c ++ ext /\ map r_originalLine ext = take (i' - i) rest /\
    Forall raw_line ext /\
    Forall (fun l => startsWith (trim l) (js "//") = true /\
                     parseTemplateLine l = Ok None) (take (i' - i) rest).
Proof.
  induction rest as [|l rest IH]; intros i base c t c' i' t'; simpl.
  - intros [= <- <- <-]. exists []. rewrite app_nil_r, take_nil.
    by repeat split.
  - intros (r & Hr & H)%bind_Ok. destruct r as [[c1 t1]|].
    + pose proof (content_loop_range _ _ _ _ _ _ _ _ H) as Hrange.
      apply content_step_push in Hr as (Hc & Hd & item & -> & Hline & Hitem).
      apply IH in H as (ext & -> & Hmap & Hall & Hlines).
      exists (item :: ext). rewrite <- app_assoc.
      replace (i' - i) with (S (i' - S i)) by lia. simpl.
      rewrite Hline, Hmap. repeat split; by constructor.
    + injection H as <- <- <-. exists [].
      rewrite app_nil_r, Nat.sub_diag, take_0. by repeat split.
Qed.

Lemma apply_indent_originalLine t item :
  originalLine (apply_indent t item) = r_originalLine item.
Proof.
  unfold apply_indent. destruct (r_isEmpty item); [done|].
  destruct t as [t|].
  - destruct (startsWith _ _); [done|].
    destruct (_ && _); [done|]. by destruct (_ && _).
  - by destruct (_ && _).
Qed.

(** X10.  [parseTemplateContent] returns one item for each line from
    [startIdx] up to [nextLine], in order; each of these lines is a comment
    line and no directive, and [nextLine] stays within the file. *)
Theorem parseTemplateContent_lines (lines : list jsstring) (startIdx : nat)
  (baseIndent : option jsstring) (pc : ParsedContent) :
  parseTemplateContent lines startIdx baseIndent = Ok pc ->
  startIdx <= pc_nextLine pc <= max startIdx (length lines) /\
  map originalLine (pc_content pc)
  = take (pc_nextLine pc - startIdx) (drop startIdx lines) /\
  Forall (fun item =>
            startsWith (trim (originalLine item)) (js "//") = true /\
            parseTemplateLine (originalLine item) = Ok None)
    (pc_content pc).
Proof.
  intros H. pose proof (parseTemplateContent_nextLine _ _ _ _ H) as Hrange.
  split; [exact Hrange|]. unfold parseTemplateContent in H.
  apply bind_Ok in H as ([[c i] t] & H & [= <-]). simpl.
  apply content_loop_items in H as (ext & -> & Hmap & _ & Hlines).
  simpl. rewrite <- Hmap in *. split.
  - rewrite <- list_fmap_compose. apply list_fmap_ext.
    intros _ item _. apply apply_indent_originalLine.
  - clear Hmap. induction ext as [|item ext IH]; [constructor|].
    apply Forall_cons in Hlines as [Hitem Hlines].
    simpl. constructor; [|by apply IH].
    by rewrite apply_indent_originalLine.
Qed.

Lemma parseTemplateContent_lines_witness :
  1 <= pc_nextLine template_parsed <= max 1 (length template_lines) /\
  map originalLine (pc_content template_parsed)
  = take (pc_nextLine template_parsed - 1) (drop 1 template_lines) /\
  Forall (fun item =>
            startsWith (trim (originalLine item)) (js "//") = true /\
            parseTemplateLine (originalLine item) = Ok None)
    (pc_content template_parsed).
Proof.
  apply (parseTemplateContent_lines template_lines 1 (Some (js "// "))).
  vm_compute. reflexivity.
Defined.

Lemma apply_indent_fields t item :
  raw_line item ->
  item_line (apply_indent t item) /\
  if isEmpty (apply_indent t item) then finalContent (apply_indent t item) = []
  else
    exists sp,
      sp `suffix_of` commentSpaces (apply_indent t item) /\
      finalContent (apply_indent t item)
      = sp ++ contentText (apply_indent t item) /\
      starts_text (contentText (apply_indent t item)).
Proof.
  intros (r & Hr & Hind & Hsp & Htext & Hempty).
  assert (forall fc, item_line (with_finalContent item fc)) as Hline.
  { intros fc. exists r. simpl. rewrite Hind. repeat split; try done.
    - by rewrite <- Hr, take_drop_while.
    - apply take_while_ws_all. }
  assert (r_isEmpty item = false -> starts_text (r_contentText item)) as Hst.
  { rewrite Hempty, Htext. apply content_text_starts. }
  unfold apply_indent. destruct (r_isEmpty item) eqn:He.
  { split; [apply Hline|]. simpl. by rewrite He. }
  specialize (Hst eq_refl).
  assert (forall sp,
             sp `suffix_of` r_commentSpaces item ->
             let it := with_finalContent item (sp ++ r_contentText item) in
             item_line it /\
             if isEmpty it then finalContent it = []
             else exists sp', sp' `suffix_of` commentSpaces it /\
                    finalContent it = sp' ++ contentText it /\
                    starts_text (contentText it)) as Hcase.
  { intros sp Hsuf. split; [apply Hline|]. simpl. rewrite He. eauto. }
  destruct t as [t|].
  - destruct (startsWith _ _).
    { apply Hcase. unfold substring. apply suffix_drop. }
    destruct (_ && _); [apply (Hcase []), suffix_nil|].
    destruct (_ && _); [apply (Hcase []), suffix_nil | by apply Hcase].
  - destruct (_ && _); [apply (Hcase []), suffix_nil | by apply Hcase].
Qed.

(** X11.  Every item of a template body records its line as it is split
    by the content expression: the white space before [//], the white
    space after it, and the text up to the first line terminator.  An item
    is empty when its text is blank, and its [finalContent] is then the
    empty string; otherwise [finalContent] is the text after a final part
    of the white space that followed [//]: the text itself is never
    changed, and it starts with a character that is not white space. *)
Theorem parseTemplateContent_items (lines : list jsstring) (startIdx : nat)
  (baseIndent : option jsstring) (pc : ParsedContent) :
  parseTemplateContent lines startIdx baseIndent = Ok pc ->
  Forall (fun item =>
            item_line item /\
            if isEmpty item then finalContent item = []
            else
              exists sp,
                sp `suffix_of` commentSpaces item /\
                finalContent item = sp ++ contentText item /\
                starts_text (contentText item))
    (pc_content pc).
Proof.
  unfold parseTemplateContent.
  intros ([[c i] t] & H & [= <-])%bind_Ok. simpl.
  apply content_loop_items in H as (ext & -> & _ & Hall & _). simpl.
  induction Hall as [|item ext Hitem _ IH]; constructor; [|exact IH].
  by apply apply_indent_fields.
Qed.

Lemma parseTemplateContent_items_witness :
  Forall (fun item =>
            item_line item /\
            if isEmpty item then finalContent item = []
            else
              exists sp,
                sp `suffix_of` commentSpaces item /\
                finalContent item = sp ++ contentText item /\
                starts_text (contentText item))
    (pc_content template_parsed).
Proof.
  apply (parseTemplateContent_items template_lines 1 (Some (js "// "))).
  vm_compute. reflexivity.
Defined.

Lemma raw_ok_split t c :
  raw_ok t c ->
  match t with
  | None => Forall (fun item => r_isEmpty item = true) c
  | Some ti =>
      exists pre item post,
        c = pre ++ item :: post /\
        Forall (fun x => r_isEmpty x = true) pre /\
        r_isEmpty item = false /\ r_commentSpaces item = ti /\
        starts_text (r_contentText item)
  end.
Proof.
  induction c as [|x c IH]; simpl.
  - intros ->. constructor.
  - destruct (r_isEmpty x) eqn:He.
    + intros H. specialize (IH H). destruct t as [ti|].
      * destruct IH as (pre & item & post & -> & Hpre & Hi & Hsp & Hst).
        exists (x :: pre), item, post. repeat split; try done.
        by constructor.
      * by constructor.
    + intros [-> Hst]. exists [], x, c. by repeat split.
Qed.

(** X12.  [templateIndent] is the white space after [//] on the first
    line of the body whose text is not blank, and [null] when there is no
    such line.  That line is emitted with no indentation of its own: its
    [finalContent] is its text. *)
Theorem template_indent_first_text (lines : list jsstring) (startIdx : nat)
  (baseIndent : option jsstring) (pc : ParsedContent) :
  parseTemplateContent lines startIdx baseIndent = Ok pc ->
  head_ok (pc_content pc) /\
  match pc_templateIndent pc with
  | None => Forall (fun item => isEmpty item = true) (pc_content pc)
  | Some templateIndent =>
      exists pre item post,
        pc_content pc = pre ++ item :: post /\
        Forall (fun x => isEmpty x = true) pre /\
        isEmpty item = false /\ commentSpaces item = templateIndent /\
        finalContent item = contentText item
  end.
Proof.
  intros H. split; [by eapply parseTemplateContent_head|].
  unfold parseTemplateContent in H.
  apply bind_Ok in H as ([[c i] t] & H & [= <-]). simpl.
  apply content_loop_raw_ok in H; [|done].
  apply raw_ok_split in H. destruct t as [ti|].
  - destruct H as (pre & item & post & -> & Hpre & Hi & Hsp & Hst).
    exists (map (apply_indent (Some ti)) pre), (apply_indent (Some ti) item),
      (map (apply_indent (Some ti)) post).
    split; [by rewrite map_app|]. split.
    { apply Forall_fmap. eapply Forall_impl; [exact Hpre|].
      intros x Hx. simpl. by rewrite apply_indent_isEmpty. }
    rewrite apply_indent_isEmpty. split; [done|].
    unfold apply_indent. rewrite Hi, <- Hsp, startsWith_refl.
    unfold substring. by rewrite drop_all.
  - apply Forall_fmap. eapply Forall_impl; [exact H|].
    intros x Hx. simpl. by rewrite apply_indent_isEmpty.
Qed.

Lemma template_indent_first_text_witness :
  head_ok (pc_content template_parsed) /\
  match pc_templateIndent template_parsed with
  | None => Forall (fun item => isEmpty item = true) (pc_content template_parsed)
  | Some templateIndent =>
      exists pre item post,
        pc_content template_parsed = pre ++ item :: post /\
        Forall (fun x => isEmpty x = true) pre /\
        isEmpty item = false /\ commentSpaces item = templateIndent /\
        finalContent item = contentText item
  end.
Proof.
  apply (template_indent_first_text template_lines 1 (Some (js "// "))).
  vm_compute. reflexivity.
Defined.

(** ** What the patcher reads in a span *)

Lemma find_existingIndent_cases lines : forall n j,
  j + n <= length lines ->
  exists existingIndent,
    find_existingIndent lines j n = Ok existingIndent /\
    ((exists k line,
         j <= k < j + n /\ lines !! k = Some line /\
         is_blank line = false /\ not_comment line /\
         existingIndent = take_while is_ws line /\
         forall k' l, j <= k' < k -> lines !! k' = Some l ->
                      is_blank l = true \/ ~ not_comment l) \/
     (existingIndent = [] /\
      forall k' l, j <= k' < j + n -> lines !! k' = Some l ->
                   is_blank l = true \/ ~ not_comment l)).
Proof.
  induction n as [|n IH]; intros j Hlen.
  - exists []. split; [done|]. right. split; [done|]. intros. lia.
  - destruct (lookup_lt_is_Some_2 lines j) as [line Hline]; [lia|].
    cbn [find_existingIndent]. rewrite Hline, re_match_indent.
    destruct (is_blank line) eqn:Hb; cbn [negb andb].
    { destruct (IH (S j)) as (ind & -> & Hcases); [lia|].
      exists ind. split; [done|].
      destruct Hcases as [(k & l & Hk & Hl & Hnb & Hnc & -> & Hbefore)|[-> Hall]].
      - left. exists k, l. repeat split; try done; try lia.
        intros k' l' Hk' Hl'. destruct (decide (k' = j)) as [->|Hne].
        + left. congruence.
        + apply (Hbefore k' l'); [lia | done].
      - right. split; [done|]. intros k' l' Hk' Hl'.
        destruct (decide (k' = j)) as [->|Hne].
        + left. congruence.
        + apply (Hall k' l'); [lia | done]. }
    destruct (startsWith (trim line) (js "//")) eqn:Hc; cbn [negb].
    { destruct (IH (S j)) as (ind & -> & Hcases); [lia|].
      exists ind. split; [done|].
      assert (~ not_comment line) as Hnot
        by (unfold not_comment; congruence).
      destruct Hcases as [(k & l & Hk & Hl & Hnb & Hnc & -> & Hbefore)|[-> Hall]].
      - left. exists k, l. repeat split; try done; try lia.
        intros k' l' Hk' Hl'. destruct (decide (k' = j)) as [->|Hne].
        + right. congruence.
        + apply (Hbefore k' l'); [lia | done].
      - right. split; [done|]. intros k' l' Hk' Hl'.
        destruct (decide (k' = j)) as [->|Hne].
        + right. congruence.
        + apply (Hall k' l'); [lia | done]. }
    exists (take_while is_ws line). split; [done|].
    left. exists j, line. repeat split; try done; try lia.
Qed.

(** X13.  Within the file, the search for the existing indentation of a
    span does not throw.  It returns the white space at the start of the
    first line of the span that is neither blank nor a comment line, and
    the empty string when the span has no such line; what it returns is
    white space only. *)
Theorem existing_indent_spec (lines : list jsstring) (j n : nat) :
  j + n <= length lines ->
  exists existingIndent,
    find_existingIndent lines j n = Ok existingIndent /\
    all_ws existingIndent /\
    ((exists k line,
         j <= k < j + n /\ lines !! k = Some line /\
         is_blank line = false /\ not_comment line /\
         existingIndent = take_while is_ws line /\
         forall k' l, j <= k' < k -> lines !! k' = Some l ->
                      is_blank l = true \/ ~ not_comment l) \/
     (existingIndent = [] /\
      forall k' l, j <= k' < j + n -> lines !! k' = Some l ->
                   is_blank l = true \/ ~ not_comment l)).
Proof.
  intros Hlen.
  destruct (find_existingIndent_cases lines n j Hlen) as (ind & Hind & Hcases).
  exists ind. split; [exact Hind|]. split; [|exact Hcases].
  destruct Hcases as [(k & l & _ & _ & _ & _ & -> & _)|[-> _]].
  - apply take_while_ws_all.
  - constructor.
Qed.

Lemma existing_indent_spec_witness :
  exists existingIndent,
    find_existingIndent [js "// @block X"; js "  // t"; js "    x"; js "// @endblock"] 1 2
    = Ok existingIndent /\
    all_ws existingIndent /\
    ((exists k line,
         1 <= k < 1 + 2 /\
         [js "// @block X"; js "  // t"; js "    x"; js "// @endblock"] !! k
         = Some line /\
         is_blank line = false /\ not_comment line /\
         existingIndent = take_while is_ws line /\
         forall k' l, 1 <= k' < k ->
                      [js "// @block X"; js "  // t"; js "    x"; js "// @endblock"] !! k'
                      = Some l ->
                      is_blank l = true \/ ~ not_comment l) \/
     (existingIndent = [] /\
      forall k' l, 1 <= k' < 1 + 2 ->
                   [js "// @block X"; js "  // t"; js "    x"; js "// @endblock"] !! k'
                   = Some l ->
                   is_blank l = true \/ ~ not_comment l)).
Proof. apply existing_indent_spec. simpl. lia. Defined.

Lemma kept_of_total base span : exists pres, kept_of (Some base) span = Ok pres.
Proof.
  induction span as [|l span [pres IH]]; simpl; [eauto|].
  destruct (preserves_total base l) as [[] ->]; simpl; [|eauto].
  rewrite IH. simpl. eauto.
Qed.

Lemma kept_of_stop base span : forall pres,
  kept_of base span = Ok pres ->
  forall l, span !! length pres = Some l -> preserves base l = Ok false.
Proof.
  induction span as [|x span IH]; intros pres; simpl; [done|].
  intros (keep & Hkeep & H)%bind_Ok. destruct keep.
  - apply bind_Ok in H as (p & Hp & [= <-]). simpl. by apply IH.
  - injection H as <-. simpl. by intros l [= <-].
Qed.

(** X14.  On a [block_default] span within the file the patcher keeps
    the lines at the head of the span, up to the first line it does not
    keep.  Every line it keeps is a comment line and no directive, and is
    a line the content extractor takes as one more item of a template
    with that base indentation. *)
Theorem preserved_lines_spec (lines : list jsstring)
  (blockIndent : jsstring) (j n : nat) :
  j + n <= length lines ->
  exists preservedLines,
    find_preserved lines (Some blockIndent) j n = Ok preservedLines /\
    length preservedLines <= n /\
    preservedLines = take (length preservedLines) (drop j lines) /\
    Forall (fun l =>
              ~ not_comment l /\ parseTemplateLine l = Ok None /\
              forall content templateIndent, exists item templateIndent',
                content_step l (Some blockIndent) content templateIndent
                = Ok (Some (content ++ [item], templateIndent')))
      preservedLines /\
    (length preservedLines < n ->
     exists l, lines !! (j + length preservedLines) = Some l /\
               preserves (Some blockIndent) l = Ok false).
Proof.
  intros Hlen.
  assert (length (take n (drop j lines)) = n) as Hspan
    by (rewrite length_take, length_drop; lia).
  rewrite (find_preserved_span lines (Some blockIndent) n j _ eq_refl Hspan).
  destruct (kept_of_total blockIndent (take n (drop j lines))) as [pres Hpres].
  exists pres. split; [exact Hpres|].
  destruct (kept_of_spec _ _ _ Hpres) as [Hall Htake].
  assert (length pres <= n) as Hle.
  { rewrite Htake, length_take, Hspan. lia. }
  split; [exact Hle|]. split.
  { rewrite Htake at 1. rewrite take_take. f_equal. lia. }
  split.
  - eapply Forall_impl; [exact Hall|]. intros l Hl. simpl in Hl.
    destruct (preserves_step _ _ Hl) as [Hdir Hstep].
    split; [|by split].
    apply preserves_comment in Hl. unfold not_comment. congruence.
  - intros Hlt.
    destruct (lookup_lt_is_Some_2 lines (j + length pres)) as [l Hl]; [lia|].
    exists l. split; [exact Hl|].
    apply (kept_of_stop _ _ _ Hpres).
    by rewrite lookup_take_lt, lookup_drop by lia.
Qed.

Lemma preserved_lines_spec_witness :
  exists preservedLines,
    find_preserved
      [js "// @block_default X"; js "//   a"; js "//"; js "//   b";
       js "// @endblock"] (Some (js "// ")) 1 3
    = Ok preservedLines /\
    length preservedLines <= 3 /\
    preservedLines
    = take (length preservedLines)
        (drop 1 [js "// @block_default X"; js "//   a"; js "//"; js "//   b";
                 js "// @endblock"]) /\
    Forall (fun l =>
              ~ not_comment l /\ parseTemplateLine l = Ok None /\
              forall content templateIndent, exists item templateIndent',
                content_step l (Some (js "// ")) content templateIndent
                = Ok (Some (content ++ [item], templateIndent')))
      preservedLines /\
    (length preservedLines < 3 ->
     exists l,
       [js "// @block_default X"; js "//   a"; js "//"; js "//   b";
        js "// @endblock"] !! (1 + length preservedLines) = Some l /\
       preserves (Some (js "// ")) l = Ok false).
Proof. apply preserved_lines_spec. simpl. lia. Defined.

(** ** The registry during pass 1 *)

Lemma reg_le_refl reg : reg_le reg reg.
Proof. intros id info H. by exists info. Qed.

Lemma reg_le_trans r1 r2 r3 : reg_le r1 r2 -> reg_le r2 r3 -> reg_le r1 r3.
Proof.
  intros H12 H23 id info H.
  destruct (H12 id info H) as (info2 & H2 & Hr2 & Ha2).
  destruct (H23 id info2 H2) as (info3 & H3 & Hr3 & Ha3).
  exists info3. split; [done|]. split; by etrans.
Qed.

Lemma ensure_block_le id reg : reg_le reg (ensure_block id reg).
Proof.
  unfold ensure_block. destruct (reg !! id) eqn:Hid; [apply reg_le_refl|].
  intros id' info H. exists info. split; [|done].
  rewrite lookup_insert_ne; [done | congruence].
Qed.

Lemma ensure_block_has id reg : is_Some (ensure_block id reg !! id).
Proof.
  unfold ensure_block. destruct (reg !! id) eqn:Hid; [by rewrite Hid|].
  rewrite lookup_insert_eq. eauto.
Qed.

Lemma alter_le (f : BlockInfo -> BlockInfo) id reg :
  (forall info, replaces info `prefix_of` replaces (f info) /\
                appends info `prefix_of` appends (f info)) ->
  reg_le reg (alter f id reg).
Proof.
  intros Hf id' info H. destruct (decide (id' = id)) as [->|Hne].
  - exists (f info). rewrite lookup_alter_eq, H. split; [done | apply Hf].
  - exists info. by rewrite lookup_alter_ne.
Qed.

Lemma register_target_le ty id content fp base reg :
  reg_le reg (register_target ty id content fp base reg) /\
  is_Some (register_target ty id content fp base reg !! id).
Proof.
  unfold register_target.
  assert (reg_le reg (alter (set_default {| e_content := content;
                                            e_filePath := fp;
                                            e_indent := base |})
                        id (ensure_block id reg))) as Hle.
  { eapply reg_le_trans; [apply ensure_block_le|]. by apply alter_le. }
  destruct ty; try (split; [apply ensure_block_le | apply ensure_block_has]).
  split; [exact Hle|]. rewrite lookup_alter_eq.
  destruct (ensure_block_has id reg) as [x ->]. simpl. eauto.
Qed.

Lemma register_source_le ty id content fp base reg :
  reg_le reg (register_source ty id content fp base reg).
Proof.
  unfold register_source.
  destruct ty; (eapply reg_le_trans; [apply ensure_block_le|]);
    apply alter_le; intros info; simpl; split;
    try done; by apply prefix_app_r.
Qed.

Lemma block_ok_le reg reg' lines b :
  reg_le reg reg' -> block_ok reg lines b -> block_ok reg' lines b.
Proof.
  intros Hle ([info Hinfo] & Hind & Hc). split; [|done].
  destruct (Hle _ _ Hinfo) as (info' & -> & _). eauto.
Qed.

Lemma scan_step_registry lines fp i line reg fb i' reg' fb' :
  scan_step lines fp i line (reg, fb) = Ok (i', (reg', fb')) ->
  reg_le reg reg' /\
  (Forall (block_ok reg lines) fb -> Forall (block_ok reg' lines) fb').
Proof.
  rewrite scan_step_eq. intros (d & Hd & H)%bind_Ok.
  destruct d as [[ty id| |]|]; try (injection H as <- <- <-);
    try (split; [apply reg_le_refl | done]).
  destruct (is_target ty).
  - apply bind_Ok in H as (e & He & H).
    apply bind_Ok in H as (content & Hc & [= <- <- <-]).
    destruct (register_target_le ty id content fp (getCommentIndent line) reg)
      as [Hle Hhas].
    split; [exact Hle|]. intros Hfb. apply Forall_app. split.
    + eapply Forall_impl; [exact Hfb|]. intros b. by apply block_ok_le.
    + constructor; [|constructor]. split; [exact Hhas|].
      split; [|exact Hc]. simpl. eapply directive_indent, Hd.
  - apply bind_Ok in H as (pc & Hpc & [= <- <- <-]).
    pose proof (register_source_le ty id (pc_content pc) fp
                  (getCommentIndent line) reg) as Hle.
    split; [exact Hle|]. intros Hfb.
    eapply Forall_impl; [exact Hfb|]. intros b. by apply block_ok_le.
Qed.

Lemma scan_loop_registry lines fp fuel i reg fb reg' fb' :
  scan_loop fuel lines fp i (reg, fb) = Ok (reg', fb') ->
  reg_le reg reg' /\
  (Forall (block_ok reg lines) fb -> Forall (block_ok reg' lines) fb').
Proof.
  revert i reg fb. induction fuel as [|fuel IH]; intros i reg fb; simpl.
  - destruct (lines !! i); [done|]. intros [= <- <-].
    split; [apply reg_le_refl | done].
  - destruct (lines !! i) as [line|].
    + intros ([i1 [reg1 fb1]] & H1 & H)%bind_Ok.
      apply scan_step_registry in H1 as [Hle1 Hfb1].
      apply IH in H as [Hle Hfb].
      split; [by eapply reg_le_trans | auto].
    + intros [= <- <-]. split; [apply reg_le_refl | done].
Qed.

Lemma parseFile_registry this fp content this' :
  parseFile this fp content = Ok this' ->
  reg_le (blocks this) (blocks this') /\
  exists fd,
    files this' = files_set (files this) fp fd /\
    f_lines fd = split_lines content /\
    Forall (block_ok (blocks this') (f_lines fd)) (f_blocks fd).
Proof.
  unfold parseFile. intros ([reg fb] & H & [= <-])%bind_Ok. simpl.
  apply scan_loop_registry in H as [Hle Hfb]. split; [exact Hle|].
  eexists. split; [reflexivity|]. split; [reflexivity|]. simpl. by apply Hfb.
Qed.

Lemma parseFiles_registry inputs : forall this this',
  parseFiles this inputs = Ok this' ->
  Forall (fun e => Forall (block_ok (blocks this) (f_lines e.2)) (f_blocks e.2))
    (files this) ->
  reg_le (blocks this) (blocks this') /\
  Forall (fun e => Forall (block_ok (blocks this') (f_lines e.2)) (f_blocks e.2))
    (files this').
Proof.
  induction inputs as [|[fp content] inputs IH]; intros this this'; simpl.
  - intros [= <-] Hfiles. split; [apply reg_le_refl | done].
  - intros (this1 & H1 & H)%bind_Ok Hfiles.
    apply parseFile_registry in H1 as (Hle1 & fd & Hset & _ & Hfd).
    apply IH in H as [Hle Hall].
    + split; [by eapply reg_le_trans | exact Hall].
    + rewrite Hset. apply Forall_forall. intros [fp' fd'] Hin.
      apply files_set_elem_inv in Hin as [Hin|[-> ->]]; [|exact Hfd].
      apply (proj1 (Forall_forall _ _) Hfiles) in Hin. simpl in *.
      eapply Forall_impl; [exact Hin|]. intros b. by apply block_ok_le.
Qed.

(** X15.  Pass 1 never takes anything out of the registry: after
    [parseFiles], every block that was registered is still registered,
    and the replacements and the appends it had are still the first of
    its lists, in the same order. *)
Theorem registry_grows (this this' : Parser)
  (inputs : list (jsstring * jsstring)) :
  parseFiles this inputs = Ok this' ->
  forall blockId info,
    blocks this !! blockId = Some info ->
    exists info',
      blocks this' !! blockId = Some info' /\
      replaces info `prefix_of` replaces info' /\
      appends info `prefix_of` appends info'.
Proof.
  revert this. induction inputs as [|[fp content] inputs IH]; intros this; simpl.
  - intros [= <-] id info H. by exists info.
  - intros (this1 & H1 & H)%bind_Ok id info Hinfo.
    apply parseFile_registry in H1 as [Hle1 _].
    destruct (Hle1 id info Hinfo) as (info1 & Hinfo1 & Hr1 & Ha1).
    destruct (IH _ H id info1 Hinfo1) as (info' & Hinfo' & Hr & Ha).
    exists info'. split; [done|]. split; by etrans.
Qed.

(** X16.  After pass 1, every block recorded for a file has an entry in
    the registry and a comment prefix that is not [null], so that
    [generateOutput] finds its [blockInfo] and [block.indent.length]; its
    content is what [parseTemplateContent] returns on the lines after its
    directive for a [block_default], and empty for a [block]. *)
Theorem recorded_blocks_registered (inputs : list (jsstring * jsstring))
  (this : Parser) :
  parseFiles reset inputs = Ok this ->
  forall filePath fd b,
    (filePath, fd) ∈ files this -> b ∈ f_blocks fd ->
    is_Some (blocks this !! b_blockId b) /\
    is_Some (b_indent b) /\
    match b_type b with
    | block_default =>
        exists pc,
          parseTemplateContent (f_lines fd) (startLine b + 1) (b_indent b)
          = Ok pc /\
          b_content b = pc_content pc
    | _ => b_content b = []
    end.
Proof.
  intros H fp fd b Hfd Hb.
  apply parseFiles_registry in H as [_ Hall]; [|constructor].
  apply (proj1 (Forall_forall _ _) Hall) in Hfd. simpl in Hfd.
  apply (proj1 (Forall_forall _ _) Hfd) in Hb as (Hreg & Hind & Hc).
  split; [exact Hreg|]. split; [exact Hind|].
  unfold block_content in Hc. destruct (b_type b); try by injection Hc.
  apply bind_Ok in Hc as (pc & Hpc & [= <-]). eauto.
Qed.

Lemma registry_grows_witness :
  exists info',
    blocks demo_parsed !! js "ARRAY_DEF" = Some info' /\
    replaces demo_info `prefix_of` replaces info' /\
    appends demo_info `prefix_of` appends info'.
Proof.
  apply (registry_grows demo_first demo_parsed demo_more);
    vm_compute; reflexivity.
Defined.

Lemma recorded_blocks_registered_witness :
  is_Some (blocks demo_parsed !! b_blockId demo_block) /\
  is_Some (b_indent demo_block) /\
  match b_type demo_block with
  | block_default =>
      exists pc,
        parseTemplateContent (f_lines demo_fd) (startLine demo_block + 1)
          (b_indent demo_block)
        = Ok pc /\
        b_content demo_block = pc_content pc
  | _ => b_content demo_block = []
  end.
Proof.
  apply (recorded_blocks_registered demo_inputs demo_parsed eq_refl
           (js "a.c") demo_fd demo_block);
    vm_compute; apply list_elem_of_here.
Defined.

(** ** What a run writes *)

Lemma output_of_path reg e w : output_of reg e = Some w -> w.1 = e.1.
Proof.
  unfold output_of. destruct (patch_file reg e.2) as [[[] nl]| |]; try done.
  by intros [= <-].
Qed.

Lemma omap_output_paths reg entries :
  (omap (output_of reg) entries).*1 `sublist_of` entries.*1.
Proof.
  induction entries as [|e entries IH]; simpl; [done|].
  destruct (output_of reg e) as [w|] eqn:Hw; simpl.
  - rewrite (output_of_path _ _ _ Hw). by apply sublist_skip.
  - by apply sublist_cons.
Qed.

(** X17.  A run writes each file at most once and writes no file that
    was not among its inputs; a run that does not end well has written
    nothing. *)
Theorem writes_confined (inputs : list (jsstring * jsstring)) :
  NoDup (writes (process inputs)).*1 /\
  (forall filePath text,
      (filePath, text) ∈ writes (process inputs) -> filePath ∈ inputs.*1) /\
  (status (process inputs) <> Ok () -> writes (process inputs) = []).
Proof.
  destruct inputs as [|input inputs].
  { simpl. split; [constructor|]. split; [|done].
    intros fp text H. by apply elem_of_nil in H. }
  destruct (process_spec (input :: inputs)) as
    [(msg & _ & ->)|(this & Hp & _ & ->)]; [done| |]; simpl.
  - split; [constructor|]. split; [|done].
    intros fp text H. by apply elem_of_nil in H.
  - destruct (parseFiles_entries _ _ _ Hp) as [Hnd Hent]; [constructor|].
    split; [|split; [|done]].
    + eapply sublist_NoDup; [exact Hnd | apply omap_output_paths].
    + intros fp text Hin.
      apply list_elem_of_omap in Hin as ([fp' fd] & Hin & Hout).
      apply output_of_path in Hout. simpl in Hout. subst fp'.
      destruct (Hent _ _ Hin) as [Hnil|(content & Hc & _)].
      * by apply elem_of_nil in Hnil.
      * exact (list_elem_of_fmap_2 fst (input :: inputs) (fp, content) Hc).
Qed.

(** ** The indentation of generated lines *)

Lemma foldl_head_ok apps : forall result,
  head_ok result -> Forall (fun e => head_ok (e_content e)) apps ->
  head_ok (foldl (fun result append => result ++ e_content append) result apps).
Proof.
  induction apps as [|a apps IH]; intros result Hr Ha; simpl; [done|].
  apply Forall_cons in Ha as [Ha Happs].
  apply IH; [by apply head_ok_app | done].
Qed.

Lemma info_ok_resolve info : info_ok info -> head_ok (resolve info).
Proof.
  intros (Hd & Hr & Ha). unfold resolve. apply foldl_head_ok; [|done].
  destruct (last (replaces info)) as [r|] eqn:Hlast.
  - apply last_Some_elem_of in Hlast.
    by apply (proj1 (Forall_forall _ _) Hr).
  - by destruct (bi_default info).
Qed.

Lemma ensure_block_ok id reg : reg_ok reg -> reg_ok (ensure_block id reg).
Proof.
  intros Hreg. unfold ensure_block. destruct (reg !! id) eqn:Hid; [done|].
  apply map_Forall_insert_2; [|done]. by repeat split.
Qed.

Lemma alter_ok (f : BlockInfo -> BlockInfo) id reg :
  (forall info, info_ok info -> info_ok (f info)) ->
  reg_ok reg -> reg_ok (alter f id reg).
Proof.
  intros Hf Hreg id' info'. destruct (decide (id' = id)) as [->|Hne].
  - rewrite lookup_alter_eq.
    destruct (reg !! id) as [info|] eqn:Hid; [|done].
    intros [= <-]. apply Hf. by apply (Hreg id).
  - rewrite lookup_alter_ne by done. apply Hreg.
Qed.

Lemma register_target_ok ty id content fp base reg :
  head_ok content -> reg_ok reg ->
  reg_ok (register_target ty id content fp base reg).
Proof.
  intros Hc Hreg. unfold register_target.
  destruct ty; try by apply ensure_block_ok.
  apply alter_ok; [|by apply ensure_block_ok].
  intros info (Hd & Hr & Ha). by repeat split.
Qed.

Lemma register_source_ok ty id content fp base reg :
  head_ok content -> reg_ok reg ->
  reg_ok (register_source ty id content fp base reg).
Proof.
  intros Hc Hreg. unfold register_source.
  destruct ty; (apply alter_ok; [|by apply ensure_block_ok]);
    intros info (Hd & Hr & Ha); repeat split; simpl; try done;
    apply Forall_app; split; try done; by repeat constructor.
Qed.

Lemma scan_step_reg_ok lines fp i line reg fb i' reg' fb' :
  scan_step lines fp i line (reg, fb) = Ok (i', (reg', fb')) ->
  reg_ok reg -> reg_ok reg'.
Proof.
  rewrite scan_step_eq. intros (d & Hd & H)%bind_Ok Hreg.
  destruct d as [[ty id| |]|]; try (by injection H as <- <- <-).
  destruct (is_target ty).
  - apply bind_Ok in H as (e & He & H).
    apply bind_Ok in H as (content & Hc & [= <- <- <-]).
    apply register_target_ok; [|done].
    unfold block_content in Hc. destruct ty; try by injection Hc as <-.
    apply bind_Ok in Hc as (pc & Hpc & [= <-]).
    by eapply parseTemplateContent_head.
  - apply bind_Ok in H as (pc & Hpc & [= <- <- <-]).
    apply register_source_ok; [|done].
    by eapply parseTemplateContent_head.
Qed.

Lemma scan_loop_reg_ok lines fp fuel : forall i reg fb reg' fb',
  scan_loop fuel lines fp i (reg, fb) = Ok (reg', fb') ->
  reg_ok reg -> reg_ok reg'.
Proof.
  induction fuel as [|fuel IH]; intros i reg fb reg' fb'; simpl.
  - destruct (lines !! i); [done|]. by intros [= <- <-].
  - destruct (lines !! i) as [line|]; [|by intros [= <- <-]].
    intros ([i1 [reg1 fb1]] & H1 & H)%bind_Ok Hreg.
    eapply IH; [exact H|]. by eapply scan_step_reg_ok.
Qed.

Lemma parseFiles_reg_ok inputs : forall this this',
  parseFiles this inputs = Ok this' ->
  reg_ok (blocks this) -> reg_ok (blocks this').
Proof.
  induction inputs as [|[fp content] inputs IH]; intros this this'; simpl.
  - by intros [= <-].
  - intros (this1 & H1 & H)%bind_Ok Hreg. eapply IH; [exact H|].
    unfold parseFile in H1.
    apply bind_Ok in H1 as ([reg fb] & H1 & [= <-]). simpl.
    by eapply scan_loop_reg_ok.
Qed.

Lemma reset_reg_ok : reg_ok (blocks reset).
Proof. apply map_Forall_empty. Qed.

Lemma generate_again reg id ind :
  reg_ok reg -> all_ws ind ->
  Forall not_comment (generateBlockContent reg id ind) ->
  generateBlockContent reg id
    (indent_of (generateBlockContent reg id ind))
  = generateBlockContent reg id ind.
Proof.
  intros Hreg Hind. unfold generateBlockContent.
  destruct (reg !! id) as [info|] eqn:Hid; [|done].
  intros Hnc. apply indent_of_rendered; [done| |done].
  apply info_ok_resolve. by apply (Hreg id).
Qed.

(** X18.  The lines generated for a block carry their indentation: when
    none of them is a comment line, the existing indentation the patcher
    reads off them gives the same lines again.  This holds for every
    registry pass 1 builds, because the first content line of a template
    that is not blank is stored without indentation of its own. *)
Theorem generated_indent_round_trip (inputs : list (jsstring * jsstring))
  (this : Parser) (blockId existingIndent : jsstring) :
  parseFiles reset inputs = Ok this ->
  all_ws existingIndent ->
  Forall not_comment (generateBlockContent (blocks this) blockId existingIndent) ->
  exists existingIndent',
    find_existingIndent
      (generateBlockContent (blocks this) blockId existingIndent) 0
      (length (generateBlockContent (blocks this) blockId existingIndent))
    = Ok existingIndent' /\
    generateBlockContent (blocks this) blockId existingIndent'
    = generateBlockContent (blocks this) blockId existingIndent.
Proof.
  intros Hp Hind Hnc.
  exists (indent_of (generateBlockContent (blocks this) blockId existingIndent)).
  split.
  - apply find_existingIndent_span; [|done]. by rewrite drop_0, firstn_all.
  - apply generate_again; [|done..].
    eapply parseFiles_reg_ok; [exact Hp | apply reset_reg_ok].
Qed.

Lemma generated_indent_round_trip_witness :
  exists existingIndent',
    find_existingIndent
      (generateBlockContent (blocks demo_parsed) (js "ARRAY_DEF") (js "  ")) 0
      (length (generateBlockContent (blocks demo_parsed) (js "ARRAY_DEF")
                 (js "  ")))
    = Ok existingIndent' /\
    generateBlockContent (blocks demo_parsed) (js "ARRAY_DEF") existingIndent'
    = generateBlockContent (blocks demo_parsed) (js "ARRAY_DEF") (js "  ").
Proof.
  apply (generated_indent_round_trip demo_inputs demo_parsed).
  - vm_compute. reflexivity.
  - vm_compute. by repeat constructor.
  - vm_compute. by repeat constructor.
Defined.

(** ** Where a recorded block starts and ends *)

Lemma find_endblock_first rest : forall e e',
  find_endblock rest e = Ok e' ->
  (forall k l, k < e' - e -> rest !! k = Some l ->
               exists d, parseTemplateLine l = Ok d /\ d <> Some DEndblock) /\
  match rest !! (e' - e) with
  | Some l => parseTemplateLine l = Ok (Some DEndblock)
  | None => e' = e + length rest
  end.
Proof.
  induction rest as [|line rest IH]; intros e e'; simpl.
  - intros [= <-]. rewrite Nat.sub_diag. split; [intros; lia | simpl; lia].
  - intros (d & Hd & H)%bind_Ok.
    assert (d = Some DEndblock /\ e' = e \/
            d <> Some DEndblock /\ find_endblock rest (S e) = Ok e')
      as [[-> ->]|[Hne H']].
    { destruct d as [[]|]; try (right; split; [congruence | exact H]).
      left. split; congruence. }
    + rewrite Nat.sub_diag. split; [intros; lia | done].
    + pose proof (find_endblock_range _ _ _ H') as Hrange.
      apply IH in H' as [H1 H2].
      replace (e' - e) with (S (e' - S e)) by lia. split.
      * intros [|k] l Hk Hl; simpl in Hl.
        -- injection Hl as <-. eauto.
        -- apply (H1 k l); [lia | done].
      * simpl. destruct (rest !! (e' - S e)); [done | lia].
Qed.

(** X19.  Every block recorded for a file starts at a line that holds a
    [block_default] or [block] directive with the block's type and
    identifier, and [indent] is the comment prefix of that line.  The block
    ends at the first [@endblock] line after its directive, whatever block
    directives stand in between, and at [lines.length] when no [@endblock]
    follows. *)
Theorem block_ends_at_first_endblock (inputs : list (jsstring * jsstring))
  (this : Parser) :
  parseFiles reset inputs = Ok this ->
  forall filePath fd b,
    (filePath, fd) ∈ files this -> b ∈ f_blocks fd ->
    (exists line,
        f_lines fd !! startLine b = Some line /\
        parseTemplateLine line = Ok (Some (DBlock (b_type b) (b_blockId b))) /\
        is_target (b_type b) = true /\
        b_indent b = getCommentIndent line) /\
    (forall k l, startLine b < k < endLine b -> f_lines fd !! k = Some l ->
                 exists d, parseTemplateLine l = Ok d /\ d <> Some DEndblock) /\
    match f_lines fd !! endLine b with
    | Some l => parseTemplateLine l = Ok (Some DEndblock)
    | None => endLine b = length (f_lines fd)
    end.
Proof.
  intros Hp fp fd b Hfd Hb.
  assert (Forall (fun e => wf_file e.2) (files this)) as Hwf
    by (eapply parseFiles_wf; [|exact Hp]; constructor).
  apply (proj1 (Forall_forall _ _) Hwf) in Hfd as [_ Hocc]. simpl in Hocc.
  apply (proj1 (Forall_forall _ _) Hocc) in Hb as Hoccb.
  pose proof (occurrence_bounds _ _ Hoccb) as (Hs & He & _).
  destruct Hoccb as (Hty & (line & Hline & Hd & Hind) & Hend).
  split; [by exists line|].
  apply find_endblock_first in Hend as [Hbefore Hat].
  split.
  - intros k l Hk Hl.
    apply (Hbefore (k - (startLine b + 1)) l); [lia|].
    rewrite lookup_drop. by replace (startLine b + 1 + (k - (startLine b + 1)))
                            with k by lia.
  - rewrite lookup_drop in Hat.
    replace (startLine b + 1 + (endLine b - (startLine b + 1)))
      with (endLine b) in Hat by lia.
    destruct (f_lines fd !! endLine b); [done|].
    rewrite length_drop in Hat. lia.
Qed.

Lemma block_ends_at_first_endblock_witness :
  (exists line,
      f_lines demo_fd !! startLine demo_block = Some line /\
      parseTemplateLine line
      = Ok (Some (DBlock (b_type demo_block) (b_blockId demo_block))) /\
      is_target (b_type demo_block) = true /\
      b_indent demo_block = getCommentIndent line) /\
  (forall k l, startLine demo_block < k < endLine demo_block ->
               f_lines demo_fd !! k = Some l ->
               exists d, parseTemplateLine l = Ok d /\ d <> Some DEndblock) /\
  match f_lines demo_fd !! endLine demo_block with
  | Some l => parseTemplateLine l = Ok (Some DEndblock)
  | None => endLine demo_block = length (f_lines demo_fd)
  end.
Proof.
  apply (block_ends_at_first_endblock demo_inputs demo_parsed eq_refl
           (js "a.c") demo_fd demo_block);
    vm_compute; apply list_elem_of_here.
Defined.

(** ** Files without block directives *)

Lemma scan_loop_inert lines fp : forall fuel i st,
  length lines - i <= fuel -> Forall no_block_directive lines ->
  scan_loop fuel lines fp i st = Ok st.
Proof.
  induction fuel as [|fuel IH]; intros i st Hfuel Hall; simpl.
  - destruct (lines !! i) eqn:Hi; [|done].
    apply lookup_lt_Some in Hi. lia.
  - destruct (lines !! i) as [line|] eqn:Hi; [|done].
    pose proof (lookup_lt_Some _ _ _ Hi) as Hlt.
    apply list_elem_of_lookup_2 in Hi.
    apply (proj1 (Forall_forall _ _) Hall) in Hi as (d & Hd & Hnot).
    destruct st as [reg fb]. rewrite scan_step_eq, Hd.
    cbn [mbind result_bind].
    destruct d as [[ty id| |]|]; try (cbn; apply IH; [lia | done]).
    by destruct (Hnot ty id).
Qed.

(** X20.  A file none of whose lines is a block directive (lines with a
    stray [@endblock] or an unknown command included) leaves the registry
    as it was and is recorded without blocks; a run over such a file alone
    writes nothing. *)
Theorem plain_file_inert (this : Parser) (filePath content : jsstring) :
  Forall no_block_directive (split_lines content) ->
  parseFile this filePath content
  = Ok {| blocks := blocks this;
          files := files_set (files this) filePath
                     {| f_lines := split_lines content; f_blocks := [] |} |} /\
  process [(filePath, content)] = {| writes := []; status := Ok () |}.
Proof.
  intros Hall.
  assert (forall this0,
             parseFile this0 filePath content
             = Ok {| blocks := blocks this0;
                     files := files_set (files this0) filePath
                                {| f_lines := split_lines content;
                                   f_blocks := [] |} |}) as Hparse.
  { intros this0. unfold parseFile.
    by rewrite scan_loop_inert by (lia || done). }
  split; [apply Hparse|].
  unfold process. cbn [parseFiles]. rewrite Hparse. reflexivity.
Qed.

Lemma plain_file_inert_witness :
  parseFile demo_parsed (js "c.c") (js "int x;
// @endblock
// @todo later")
  = Ok {| blocks := blocks demo_parsed;
          files := files_set (files demo_parsed) (js "c.c")
                     {| f_lines := split_lines (js "int x;
// @endblock
// @todo later");
                        f_blocks := [] |} |} /\
  process [(js "c.c", js "int x;
// @endblock
// @todo later")] = {| writes := []; status := Ok () |}.
Proof.
  apply plain_file_inert.
  replace (split_lines (js "int x;
// @endblock
// @todo later"))
    with [js "int x;"; js "// @endblock"; js "// @todo later"]
    by (vm_compute; reflexivity).
  repeat constructor; eexists; (split; [vm_compute; reflexivity | done]).
Defined.

(** ** Running the engine on its own output *)

(** *** The template of a block, read from the comments that are kept *)

Lemma content_step_grows line base c t c' t' :
  content_step line base c t = Ok (Some (c', t')) ->
  exists item, c' = c ++ [item].
Proof.
  intros (_ & _ & item & -> & _)%content_step_push. eauto.
Qed.

Lemma content_loop_grows rest : forall i base c t c' n t',
  content_loop rest i base c t = Ok (c', n, t') ->
  length c <= length c' /\ (length c' = length c -> c' = c /\ t' = t).
Proof.
  induction rest as [|l rest IH]; intros i base c t c' n t'; simpl.
  - intros [= <- _ <-]. by split.
  - intros (r & Hr & H)%bind_Ok. destruct r as [[c1 t1]|].
    + apply content_step_grows in Hr as [item ->].
      apply IH in H as [Hle _]. rewrite length_app in Hle. simpl in Hle.
      split; lia.
    + injection H as <- _ <-. by split.
Qed.

(** When the kept comments are as many as the items, they are the lines
    the extractor took. *)
Lemma kept_whole base pres : forall rest i i2 c t c' n t',
  Forall (fun l => preserves base l = Ok true) pres ->
  content_loop (pres ++ rest) i base c t = Ok (c', n, t') ->
  length c' = length c + length pres ->
  content_loop pres i2 base c t = Ok (c', i2 + length pres, t').
Proof.
  induction pres as [|l pres IH]; intros rest i i2 c t c' n t' Hpres H Hlen.
  - simpl in *. apply content_loop_grows in H as [_ H].
    destruct H as [-> ->]; [lia|]. by rewrite Nat.add_0_r.
  - apply Forall_cons in Hpres as [Hl Hpres].
    destruct (preserves_step _ _ Hl) as [_ Hstep].
    destruct (Hstep c t) as (item & t1 & Hitem).
    cbn [app content_loop] in *. rewrite Hitem in *. cbn [mbind result_bind] in *.
    erewrite (IH rest (S i) (S i2)); [|done|exact H|].
    + do 3 f_equal. simpl. lia.
    + rewrite length_app. simpl in *. lia.
Qed.

(** *** The replacement of a stable block *)

Lemma span_length lines b :
  occurrence lines b ->
  length (take (endLine b - (startLine b + 1)) (drop (startLine b + 1) lines))
  = endLine b - (startLine b + 1).
Proof.
  intros (Hs & He & _)%occurrence_bounds.
  rewrite length_take, length_drop. lia.
Qed.

Lemma stable_replacement reg lines b r :
  occurrence lines b -> block_ok reg lines b -> stable_block reg lines b ->
  replacement reg b lines = Ok r ->
  regenerates reg b r /\ replays b r.
Proof.
  intros Hocc (_ & _ & Hcontent) (ind & Hind & Hgen & Hkept) Hr.
  pose proof (span_length _ _ Hocc) as Hlen.
  set (n := endLine b - (startLine b + 1)) in *.
  set (span := take n (drop (startLine b + 1) lines)) in *.
  unfold replacement in Hr. fold n in Hr. rewrite Hind in Hr.
  cbn [mbind result_bind] in Hr.
  apply bind_Ok in Hr as (pres & Hpres & [= <-]).
  assert (ind = indent_of span) as Hind'.
  { rewrite (find_existingIndent_span lines n (startLine b + 1) span eq_refl Hlen)
      in Hind. by injection Hind. }
  assert (Forall (fun l => preserves (b_indent b) l = Ok true) pres /\
          pres = take (length pres) span /\
          (b_type b = block_default \/ pres = [])) as (Hall & Htake & Hty).
  { destruct (b_type b) eqn:Hty;
      try (injection Hpres as <-; split; [constructor|]; split; [done | by right]).
    rewrite (find_preserved_span lines (b_indent b) n (startLine b + 1) span
               eq_refl Hlen) in Hpres.
    destruct (kept_of_spec _ _ _ Hpres) as [Hall Htake].
    split; [done|]. split; [done | by left]. }
  split.
  - exists pres, ind. repeat split; try done.
    rewrite Hind'. apply indent_of_ws.
  - exists pres, (generateBlockContent reg (b_blockId b) ind).
    split; [done|]. split; [done|]. split.
    { eapply Forall_impl; [exact Hall|]. intros l Hl.
      by apply preserves_step in Hl as [Hl _]. }
    destruct (b_type b) eqn:Hb; try done.
    destruct (Hkept eq_refl) as (pres' & Hpres' & Hcount).
    assert (pres' = pres) as -> by congruence.
    unfold block_content in Hcontent.
    apply bind_Ok in Hcontent as (pc & Hpc & [= Hpcc]).
    unfold parseTemplateContent in Hpc.
    apply bind_Ok in Hpc as ([[craw i'] t] & Hloop & [= <-]).
    simpl in Hpcc. exists craw, t. split; [|done].
    assert (drop (startLine b + 1) lines
            = pres ++ drop (length pres) (drop (startLine b + 1) lines)) as Hsplit.
    { rewrite Htake at 1. unfold span. rewrite take_take.
      assert (length pres <= n) as Hle
        by (rewrite Htake, length_take, Hlen; lia).
      rewrite Nat.min_l by lia. by rewrite take_drop. }
    rewrite Hsplit in Hloop.
    apply (kept_whole _ _ _ _ 0) in Hloop; [done | done |].
    rewrite <- Hpcc, length_map in Hcount. simpl. lia.
Qed.

(** The replacement of the block read again is the replacement. *)
Lemma replacement_again reg b r lines2 b2 :
  reg_ok reg -> regenerates reg b r -> block_rel lines2 b r b2 ->
  replacement reg b2 lines2 = Ok r.
Proof.
  intros Hreg (pres & ind & Hr & Hind & Hnc & Hpres & Hty)
    (Hty2 & Hid2 & Hind2 & _ & Hend & Hspan).
  assert (endLine b2 - (startLine b2 + 1) = length r) as Hn by lia.
  unfold replacement. rewrite Hn.
  rewrite (find_existingIndent_span lines2 (length r) (startLine b2 + 1) r)
    by done.
  cbn [mbind result_bind]. rewrite Hid2.
  assert (generateBlockContent reg (b_blockId b) (indent_of r)
          = generateBlockContent reg (b_blockId b) ind) as Hgen.
  { rewrite Hr at 1. rewrite (indent_of_kept (b_indent b)) by done.
    by apply generate_again. }
  rewrite Hgen, Hty2.
  assert (match b_type b with
          | block_default =>
              find_preserved lines2 (b_indent b2) (startLine b2 + 1) (length r)
          | _ => Ok []
          end = Ok pres) as ->.
  { destruct (b_type b) eqn:Hb;
      try (by destruct Hty as [?| ->]).
    rewrite (find_preserved_span lines2 (b_indent b2) (length r)
               (startLine b2 + 1) r) by done.
    rewrite Hind2, Hr. by apply kept_of_again. }
  cbn [mbind result_bind]. by rewrite Hr.
Qed.

(** *** The lines of the file read again *)

Lemma Forall3_length_lm {A B C} (P : A -> B -> C -> Prop) l k k' :
  Forall3 P l k k' -> length l = length k /\ length k = length k'.
Proof. induction 1; simpl; lia. Qed.

(** Put back in their spans, the replacements give the lines again. *)
Lemma assemble_same lines2 bs rs bs2 : forall lo,
  Forall3 (block_rel lines2) bs rs bs2 -> spans_from lo bs2 ->
  assemble lines2 lo bs2 rs = drop lo lines2.
Proof.
  intros lo H. revert lo.
  induction H as [|b r b2 bs rs bs2 Hrel _ IH]; intros lo Hs; [done|].
  destruct Hs as (Hlo & Hse & Hs).
  destruct Hrel as (_ & _ & _ & _ & Hend & Hspan).
  cbn [assemble].
  rewrite (IH (endLine b2))
    by (eapply spans_from_weaken; [|exact Hs]; lia).
  rewrite <- Hspan.
  replace (length r) with (endLine b2 - (startLine b2 + 1)) by lia.
  symmetry.
  rewrite <- (take_drop (startLine b2 + 1 - lo) (drop lo lines2)) at 1.
  f_equal. rewrite drop_drop.
  replace (lo + (startLine b2 + 1 - lo)) with (startLine b2 + 1) by lia.
  rewrite <- (take_drop (endLine b2 - (startLine b2 + 1))
                (drop (startLine b2 + 1) lines2)) at 1.
  f_equal. rewrite drop_drop. f_equal. lia.
Qed.

(** The second run writes to the file what the first run wrote. *)
Lemma rescan_output reg fp fd fd2 :
  reg_ok reg -> wf_file fd -> rescan reg fd fd2 ->
  output_of reg (fp, fd2) = output_of reg (fp, fd) /\
  lines_left reg fd = f_lines fd2 /\
  lines_left reg fd2 = f_lines fd2.
Proof.
  intros Hreg Hwf (rs & Hrs & Hlines & Hrel & Hwf2).
  destruct (patch_file_output reg (fp, fd) Hwf) as (rs1 & Hrs1 & Hp1 & Hout1).
  destruct (patch_file_output reg (fp, fd2) Hwf2) as (rs2 & Hrs2 & Hp2 & Hout2).
  simpl in *.
  assert (rs1 = rs) as ->.
  { eapply Forall2_Ok_functional; [exact Hrs1|].
    eapply Forall2_impl; [exact Hrs|]. by intros b r [? _]. }
  assert (rs2 = rs) as ->.
  { clear Hp2 Hout2 Hlines Hp1 Hout1 Hrs1.
    revert rs2 Hrs2. induction Hrel as [|b r b2 bs rs' bs2 Hb _ IH];
      intros rs2 Hrs2.
    - by inversion Hrs2.
    - apply Forall2_cons_inv_l in Hrs2 as (r2 & rs2' & Hr2 & Hrs2 & ->).
      apply Forall2_cons in Hrs as [[_ Hregen] Hrs].
      rewrite (replacement_again reg b r _ b2 Hreg Hregen Hb) in Hr2.
      injection Hr2 as <-. f_equal. by apply IH. }
  pose proof (assemble_same (f_lines fd2) (f_blocks fd) rs (f_blocks fd2) 0
                Hrel (proj1 Hwf2)) as Hsame.
  rewrite drop_0 in Hsame. split; [|split].
  - rewrite Hout1, Hout2, Hsame, <- Hlines.
    destruct (Forall3_length_lm _ _ _ _ Hrel) as [Hl1 Hl2].
    destruct (f_blocks fd), (f_blocks fd2); try done; simpl in *; lia.
  - unfold lines_left. by rewrite Hp1, Hlines.
  - unfold lines_left. by rewrite Hp2, Hsame.
Qed.

(** *** One file, read again *)

Lemma scan_loop_more_fuel lines fp : forall fuel fuel' i st r,
  scan_loop fuel lines fp i st = Ok r -> fuel <= fuel' ->
  scan_loop fuel' lines fp i st = Ok r.
Proof.
  induction fuel as [|fuel IH]; intros fuel' i st r; simpl.
  - destruct (lines !! i) eqn:Hi; [done|]. intros [= <-] _.
    destruct fuel'; simpl; by rewrite Hi.
  - destruct (lines !! i) as [line|] eqn:Hi.
    + intros ([i1 st1] & H1 & H)%bind_Ok Hle.
      destruct fuel' as [|fuel']; [lia|]. simpl. rewrite Hi, H1. simpl.
      apply IH; [exact H | lia].
    + intros [= <-] _. destruct fuel'; simpl; by rewrite Hi.
Qed.

Lemma file_sim REG fp lines fuel reg regN bs :
  scan_loop fuel lines fp 0 (reg, []) = Ok (regN, bs) ->
  reg_ok REG ->
  Forall (fun b => stable_block REG lines b /\ block_ok REG lines b) bs ->
  let fd := {| f_lines := lines; f_blocks := bs |} in
  exists bs2,
    scan_loop (length (lines_left REG fd)) (lines_left REG fd) fp 0 (reg, [])
    = Ok (regN, bs2) /\
    rescan REG fd {| f_lines := lines_left REG fd; f_blocks := bs2 |}.
Proof.
  intros Hscan Hreg Hstable fd.
  destruct (scan_loop_spans _ _ _ _ _ _ Hscan) as [Hs Hocc].
  assert (wf_file fd) as Hwf by (by split).
  destruct (patch_file_spec REG fd Hwf) as (rs & Hrs & Hp). simpl in Hrs.
  assert (lines_left REG fd = assemble lines 0 bs rs) as Hleft
    by (unfold lines_left; by rewrite Hp).
  assert (Forall2 (fun b r => replacement REG b lines = Ok r /\
                              regenerates REG b r) bs rs /\
          Forall2 replays bs rs) as [Hregen Hreplays].
  { clear Hp Hleft Hscan Hs Hwf. induction Hrs as [|b r bs rs Hr _ IH].
    - split; constructor.
    - apply Forall_cons in Hstable as [[Hst Hok] Hstable].
      apply Forall_cons in Hocc as [Hb Hocc].
      destruct (stable_replacement _ _ _ _ Hb Hok Hst Hr) as [H1 H2].
      destruct (IH Hstable Hocc) as [IH1 IH2].
      split; constructor; auto. }
  destruct (scan_sim fp lines (lines_left REG fd) fuel 0 reg regN bs rs 0
              Hscan Hreplays) as (bs2 & Hscan2 & Hrel);
    [by rewrite drop_0|].
  exists bs2.
  assert (scan_loop (length (lines_left REG fd)) (lines_left REG fd) fp 0
            (reg, []) = Ok (regN, bs2)) as Hscan2'.
  { rewrite (scan_loop_fuel_irrelevant _ _ _
               (max fuel (length (lines_left REG fd)))) by lia.
    eapply scan_loop_more_fuel; [exact Hscan2 | lia]. }
  split; [exact Hscan2'|].
  exists rs. split; [exact Hregen|]. split; [exact Hleft|].
  split; [exact Hrel|].
  apply scan_loop_spans in Hscan2'. exact Hscan2'.
Qed.

Lemma files_set_Forall2 {P : FileData -> FileData -> Prop} fs fs2 fp fd fd2 :
  Forall2 (fun e e2 => e2.1 = e.1 /\ P e.2 e2.2) fs fs2 -> P fd fd2 ->
  Forall2 (fun e e2 => e2.1 = e.1 /\ P e.2 e2.2)
    (files_set fs fp fd) (files_set fs2 fp fd2).
Proof.
  intros H Hfd. induction H as [|[p d] [p2 d2] fs fs2 [Hp Hd] Hrest IH]; simpl.
  - by repeat constructor.
  - simpl in Hp. subst p2. destruct (str_eqb p fp); by constructor.
Qed.

Lemma files_set_other files fp fd fp' fd' :
  (fp', fd') ∈ files -> fp' <> fp -> (fp', fd') ∈ files_set files fp fd.
Proof.
  intros Hin Hne. induction files as [|[p d] files IH]; simpl.
  - by apply elem_of_nil in Hin.
  - unfold str_eqb. case_bool_decide as Hp.
    + subst p. apply elem_of_cons in Hin as [[= -> ->]|Hin]; [done|].
      by apply list_elem_of_further.
    + apply elem_of_cons in Hin as [->|Hin]; [apply list_elem_of_here|].
      apply list_elem_of_further. by apply IH.
Qed.

Lemma parseFiles_keeps inputs : forall this this' fp fd,
  parseFiles this inputs = Ok this' ->
  (fp, fd) ∈ files this -> fp ∉ inputs.*1 -> (fp, fd) ∈ files this'.
Proof.
  induction inputs as [|[fp0 c0] inputs IH]; intros this this' fp fd; simpl.
  - by intros [= <-].
  - intros (this1 & H1 & H)%bind_Ok Hin [Hne Hnot]%not_elem_of_cons.
    eapply IH; [exact H| |exact Hnot].
    apply parseFile_inv in H1 as (_ & fd0 & -> & _).
    by apply files_set_other.
Qed.

(** *** The whole run, a second time *)

Lemma parseFiles_sim REG : reg_ok REG ->
  forall inputs inputs2 thisA thisA2 thisZ,
    parseFiles thisA inputs = Ok thisZ ->
    blocks thisA2 = blocks thisA ->
    Forall2 (fun e e2 => e2.1 = e.1 /\ rescan REG e.2 e2.2)
      (files thisA) (files thisA2) ->
    NoDup inputs.*1 ->
    (forall fp fd, (fp, fd) ∈ files thisZ -> fp ∈ inputs.*1 ->
                   Forall (fun b => stable_block REG (f_lines fd) b /\
                                    block_ok REG (f_lines fd) b) (f_blocks fd)) ->
    Forall2 (fun input input2 =>
               input2.1 = input.1 /\
               forall fd, (input.1, fd) ∈ files thisZ ->
                          split_lines input2.2 = lines_left REG fd)
      inputs inputs2 ->
    exists thisZ2,
      parseFiles thisA2 inputs2 = Ok thisZ2 /\
      blocks thisZ2 = blocks thisZ /\
      Forall2 (fun e e2 => e2.1 = e.1 /\ rescan REG e.2 e2.2)
        (files thisZ) (files thisZ2).
Proof.
  intros Hreg. induction inputs as [|[fp c] inputs IH];
    intros inputs2 thisA thisA2 thisZ Hp Hblocks Hfiles Hnd Hstable Hleft.
  - apply Forall2_nil_inv_l in Hleft as ->. simpl in *.
    injection Hp as <-. by exists thisA2.
  - apply Forall2_cons_inv_l in Hleft as ([fp2 c2] & rest2 & [Hfp Hc2] & Hleft & ->).
    simpl in Hfp, Hc2. subst fp2.
    apply NoDup_cons in Hnd as [Hnotin Hnd].
    cbn [parseFiles] in Hp. apply bind_Ok in Hp as (this1 & H1 & Hp).
    pose proof H1 as Hparse. unfold parseFile in H1.
    apply bind_Ok in H1 as ([reg1 bs] & Hscan & [= <-]).
    set (fd := {| f_lines := split_lines c; f_blocks := bs |}) in *.
    assert ((fp, fd) ∈ files thisZ) as Hin.
    { eapply parseFiles_keeps; [exact Hp| |exact Hnotin].
      simpl. apply files_set_elem. }
    destruct (file_sim REG fp (split_lines c) _ _ _ _ Hscan Hreg)
      as (bs2 & Hscan2 & Hrescan).
    { apply (Hstable fp fd Hin). simpl. apply list_elem_of_here. }
    fold fd in Hscan2, Hrescan. rewrite <- (Hc2 fd Hin) in Hscan2, Hrescan.
    destruct (IH rest2
                {| blocks := reg1;
                   files := files_set (files thisA) fp fd |}
                {| blocks := reg1;
                   files := files_set (files thisA2) fp
                              {| f_lines := split_lines c2; f_blocks := bs2 |} |}
                thisZ Hp eq_refl)
      as (thisZ2 & Hp2 & Hb2 & Hf2).
    + simpl. by apply files_set_Forall2.
    + exact Hnd.
    + intros fp' fd' Hin' Hfp'. apply (Hstable fp' fd' Hin').
      simpl. by apply list_elem_of_further.
    + exact Hleft.
    + exists thisZ2. split; [|by split].
      cbn [parseFiles]. unfold parseFile. rewrite Hblocks, Hscan2.
      exact Hp2.
Qed.

Lemma omap_output_rescan REG fs fs2 :
  reg_ok REG -> Forall (fun e => wf_file e.2) fs ->
  Forall2 (fun e e2 => e2.1 = e.1 /\ rescan REG e.2 e2.2) fs fs2 ->
  omap (output_of REG) fs2 = omap (output_of REG) fs.
Proof.
  intros Hreg Hwf H.
  induction H as [|[p d] [p2 d2] fs fs2 [Hp Hd] _ IH]; [done|].
  apply Forall_cons in Hwf as [Hwfd Hwf]. simpl in Hp, Hd, Hwfd. subst p2.
  destruct (rescan_output REG p d d2 Hreg Hwfd Hd) as [Hout _].
  cbn [omap list_omap]. by rewrite Hout, IH.
Qed.

Lemma output_of_text reg e w :
  wf_file e.2 -> output_of reg e = Some w ->
  w = (e.1, join_lines (lines_left reg e.2)).
Proof.
  intros Hwf. unfold output_of, lines_left.
  destruct (patch_file reg e.2) as [[[] nl]| |]; try done.
  by intros [= <-].
Qed.

(** The second run, when it reads in each file the lines the first run
    left there: it writes the same files with the same text, and what it
    writes to a file is the lines it read from it. *)
Lemma second_run_lines (inputs inputs2 : list (jsstring * jsstring))
  (this : Parser) :
  NoDup inputs.*1 ->
  parseFiles reset inputs = Ok this ->
  (forall filePath fd b,
      (filePath, fd) ∈ files this -> b ∈ f_blocks fd ->
      stable_block (blocks this) (f_lines fd) b) ->
  Forall2 (left_by this) inputs inputs2 ->
  process inputs2 = process inputs /\
  forall filePath text,
    (filePath, text) ∈ writes (process inputs2) ->
    exists content2,
      (filePath, content2) ∈ inputs2 /\
      text = join_lines (split_lines content2).
Proof.
  intros Hnd Hp Hstable Hleft.
  destruct inputs as [|input inputs].
  { apply Forall2_nil_inv_l in Hleft as ->. split; [done|].
    intros fp text H. by apply elem_of_nil in H. }
  assert (reg_ok (blocks this)) as Hreg
    by (eapply parseFiles_reg_ok; [exact Hp | apply reset_reg_ok]).
  destruct (parseFiles_registry _ _ _ Hp) as [_ Hok]; [constructor|].
  assert (Forall (fun e => wf_file e.2) (files this)) as Hwf
    by (eapply parseFiles_wf; [|exact Hp]; constructor).
  destruct (parseFiles_sim (blocks this) Hreg (input :: inputs) inputs2
              reset reset this Hp eq_refl) as (this2 & Hp2 & Hb2 & Hf2);
    [constructor | exact Hnd | | exact Hleft |].
  { intros fp fd Hin _. apply Forall_forall. intros b Hb.
    split; [by eapply Hstable|].
    apply (proj1 (Forall_forall _ _) Hok) in Hin. simpl in Hin.
    by apply (proj1 (Forall_forall _ _) Hin). }
  assert (Forall (fun e => wf_file e.2) (files this2)) as Hwf2
    by (eapply parseFiles_wf; [|exact Hp2]; constructor).
  assert (inputs2 <> []) as Hne2
    by (intros ->; by apply Forall2_nil_inv_r in Hleft).
  assert (process inputs2
          = {| writes := omap (output_of (blocks this)) (files this2);
               status := Ok () |}) as Hrun2.
  { unfold process. destruct inputs2 as [|i2 inputs2]; [done|].
    rewrite Hp2, generateOutput_spec by done. by rewrite Hb2. }
  assert (process (input :: inputs)
          = {| writes := omap (output_of (blocks this)) (files this);
               status := Ok () |}) as Hrun1.
  { unfold process. by rewrite Hp, generateOutput_spec. }
  split.
  - rewrite Hrun1, Hrun2. f_equal. by apply omap_output_rescan.
  - intros fp text Hin. rewrite Hrun2 in Hin. simpl in Hin.
    apply list_elem_of_omap in Hin as ([fp2 fd2] & Hin2 & Hout).
    apply output_of_text in Hout;
      [|by apply (proj1 (Forall_forall _ _) Hwf2) in Hin2].
    injection Hout as -> ->.
    destruct (parseFiles_entries _ _ _ Hp2) as [_ Hent]; [constructor|].
    destruct (Hent _ _ Hin2) as [Hnil|(content2 & Hc2 & Hlines & _)];
      [by apply elem_of_nil in Hnil|].
    exists content2. split; [exact Hc2|]. rewrite <- Hlines.
    apply list_elem_of_lookup in Hin2 as [k Hk].
    destruct (Forall2_lookup_r _ _ _ _ _ Hf2 Hk) as ([fp1 fd1] & Hk1 & Hfp & Hres).
    simpl in Hfp, Hres. subst fp1.
    assert (wf_file fd1) as Hwf1.
    { apply list_elem_of_lookup_2 in Hk1.
      by apply (proj1 (Forall_forall _ _) Hwf) in Hk1. }
    destruct (rescan_output (blocks this) fp2 fd1 fd2 Hreg Hwf1 Hres)
      as (_ & _ & Hsame).
    by rewrite Hsame.
Qed.

(** *** The files as the run leaves them *)

Lemma files_get_elem files fp fd :
  NoDup files.*1 -> (fp, fd) ∈ files -> files_get files fp = Some fd.
Proof.
  induction files as [|[p d] files IH]; simpl.
  - by intros _ ?%elem_of_nil.
  - intros [Hp Hnd]%NoDup_cons Hin. unfold str_eqb. case_bool_decide as Heq.
    + subst p. apply elem_of_cons in Hin as [[= ->]|Hin]; [done|].
      destruct Hp. apply list_elem_of_fmap. by exists (fp, fd).
    + apply elem_of_cons in Hin as [[= -> ->]|Hin]; [done | by apply IH].
Qed.

Lemma assemble_nonempty lines bs rs :
  Forall (occurrence lines) bs -> bs <> [] -> assemble lines 0 bs rs <> [].
Proof.
  destruct bs as [|b bs]; [done|]. intros [Hb _]%Forall_cons _.
  destruct Hb as (_ & (line & Hline & _) & _).
  destruct rs as [|r rs]; simpl.
  - rewrite drop_0. intros ->. by rewrite lookup_nil in Hline.
  - rewrite drop_0, Nat.sub_0_r.
    destruct lines as [|l lines]; [by rewrite lookup_nil in Hline|].
    by replace (startLine b + 1) with (S (startLine b)) by lia.
Qed.

(** X21.  Idempotence, under the conditions the code needs.  Take a run
    over distinct files that parses, and suppose that for every block it
    records (1) no line generated for the block is a comment line, (2) if
    the block is a [block_default], the patcher keeps one comment for
    every item of its template, and (3) the lines of every file written
    hold no line feed and do not end with a carriage return.  Then a second
    run over the files as the first run left them writes the same files as
    the first, and writes to each of them the text it already holds. *)
Theorem second_run_leaves_files_unchanged
  (inputs : list (jsstring * jsstring)) (this : Parser) :
  NoDup inputs.*1 ->
  parseFiles reset inputs = Ok this ->
  (forall filePath fd b,
      (filePath, fd) ∈ files this -> b ∈ f_blocks fd ->
      stable_block (blocks this) (f_lines fd) b) ->
  (forall filePath fd,
      (filePath, fd) ∈ files this -> f_blocks fd <> [] ->
      Forall rereadable (lines_left (blocks this) fd)) ->
  process (map (text_left this) inputs) = process inputs /\
  forall filePath text,
    (filePath, text) ∈ writes (process (map (text_left this) inputs)) ->
    (filePath, text) ∈ map (text_left this) inputs.
Proof.
  intros Hnd Hp Hstable Hreread.
  destruct (parseFiles_entries _ _ _ Hp) as [Hndf Hent]; [constructor|].
  assert (Forall (fun e => wf_file e.2) (files this)) as Hwf
    by (eapply parseFiles_wf; [|exact Hp]; constructor).
  assert (forall fp c fd,
             (fp, c) ∈ inputs -> (fp, fd) ∈ files this ->
             f_lines fd = split_lines c /\
             text_left this (fp, c)
             = (fp, match output_of (blocks this) (fp, fd) with
                    | Some w => w.2
                    | None => c
                    end)) as Hfile.
  { intros fp c fd Hc Hfd. split.
    - destruct (Hent _ _ Hfd) as [Hnil|(c' & Hc' & Hlines & _)];
        [by apply elem_of_nil in Hnil|].
      by rewrite (NoDup_keys_elem inputs fp c c' Hnd Hc Hc').
    - unfold text_left. simpl. by rewrite (files_get_elem _ _ _ Hndf Hfd). }
  assert (Forall2 (left_by this) inputs (map (text_left this) inputs)) as Hleft.
  { apply Forall2_fmap_r, Forall_Forall2_diag, Forall_forall.
    intros [fp c] Hc. unfold left_by. split; [done|].
    cbn [fst]. intros fd Hfd.
    destruct (Hfile fp c fd Hc Hfd) as [Hlines ->]. cbn [snd].
    apply (proj1 (Forall_forall _ _) Hwf) in Hfd as Hwfd. simpl in Hwfd.
    destruct (patch_file_output (blocks this) (fp, fd) Hwfd)
      as (rs & _ & Hpatch & Hout).
    simpl in Hpatch, Hout. rewrite Hout. unfold lines_left. rewrite Hpatch.
    destruct (decide (f_blocks fd = [])) as [Hnil|Hne].
    { rewrite Hnil. by rewrite Hlines. }
    assert (match f_blocks fd with
            | [] => None
            | _ :: _ =>
                Some (fp, join_lines (assemble (f_lines fd) 0 (f_blocks fd) rs))
            end
            = Some (fp, join_lines (assemble (f_lines fd) 0 (f_blocks fd) rs)))
      as -> by (by destruct (f_blocks fd)).
    cbn [snd]. apply split_join_eq.
    - apply assemble_nonempty; [apply Hwfd | done].
    - specialize (Hreread fp fd Hfd Hne). unfold lines_left in Hreread.
      by rewrite Hpatch in Hreread. }
  destruct (second_run_lines inputs _ this Hnd Hp Hstable Hleft) as [Hsame _].
  split; [exact Hsame|].
  intros fp text Hin. rewrite Hsame in Hin.
  destruct inputs as [|input inputs]; [by apply elem_of_nil in Hin|].
  assert (process (input :: inputs)
          = {| writes := omap (output_of (blocks this)) (files this);
               status := Ok () |}) as Hrun
    by (unfold process; by rewrite Hp, generateOutput_spec).
  rewrite Hrun in Hin. simpl in Hin.
  apply list_elem_of_omap in Hin as ([fp' fd] & Hfd & Hout).
  pose proof (output_of_path _ _ _ Hout) as Hpath. simpl in Hpath. subst fp'.
  destruct (Hent _ _ Hfd) as [Hnil|(c & Hc & _)];
    [by apply elem_of_nil in Hnil|].
  apply list_elem_of_fmap. exists (fp, c). split; [|exact Hc].
  destruct (Hfile fp c fd Hc Hfd) as [_ ->]. by rewrite Hout.
Qed.

Lemma second_run_leaves_files_unchanged_witness :
  process (map (text_left demo_parsed) demo_inputs) = process demo_inputs /\
  forall filePath text,
    (filePath, text) ∈ writes (process (map (text_left demo_parsed) demo_inputs)) ->
    (filePath, text) ∈ map (text_left demo_parsed) demo_inputs.
Proof.
  apply (second_run_leaves_files_unchanged demo_inputs demo_parsed).
  - vm_compute. repeat constructor; intros H;
      repeat (apply elem_of_cons in H as [H|H]; [discriminate|]);
      by apply elem_of_nil in H.
  - vm_compute. reflexivity.
  - intros fp fd b Hfd Hb. vm_compute in Hfd.
    apply elem_of_cons in Hfd as [Hfd|Hfd].
    + injection Hfd as -> ->. vm_compute in Hb.
      apply list_elem_of_singleton in Hb. subst b.
      eexists. split; [vm_compute; reflexivity|].
      split; [vm_compute; by repeat constructor|].
      intros _. eexists. split; vm_compute; reflexivity.
    + apply list_elem_of_singleton in Hfd. injection Hfd as -> ->.
      vm_compute in Hb. by apply elem_of_nil in Hb.
  - intros fp fd Hfd Hne. vm_compute in Hfd.
    apply elem_of_cons in Hfd as [Hfd|Hfd].
    + injection Hfd as -> ->. vm_compute.
      repeat constructor; try discriminate;
        intros H; repeat (apply elem_of_cons in H as [H|H]; [discriminate|]);
        by apply elem_of_nil in H.
    + apply list_elem_of_singleton in Hfd. injection Hfd as -> ->.
      by destruct Hne.
Defined.

(** * Indentation round trip, in any context *)

(** The fields of the item of a body line. *)
Lemma raw_line_body item lead sp t :
  raw_line item ->
  r_originalLine item = lead ++ js "//" ++ sp ++ t ->
  all_ws lead -> all_ws sp -> starts_text t -> one_line t ->
  r_commentSpaces item = sp /\ r_contentText item = t /\
  r_isEmpty item = false.
Proof.
  intros (r & Hr & _ & Hsp & Htext & Hempty) Hline Hlead Hws Ht Hone.
  rewrite Hline in Hr.
  destruct (take_while_app_stop is_ws lead (js "//" ++ sp ++ t) Hlead)
    as [_ Hdrop]; [by rewrite js_slashes|].
  rewrite Hdrop in Hr. apply app_inv_head in Hr. subst r.
  destruct (take_while_app_stop is_ws sp t Hws) as [Htake Hdrop'];
    [by destruct t|].
  rewrite Htake in Hsp. rewrite Hdrop' in Htext.
  rewrite take_while_all in Htext
    by (eapply Forall_impl; [exact Hone|]; intros x Hx; unfold is_dot;
        by rewrite Hx).
  split; [done|]. split; [done|].
  rewrite Hempty, Htext. by apply starts_text_blank.
Qed.

(** What the extractor makes of a body of two lines, the second indented
    by [extra] more than the first. *)
Lemma two_line_body lines k base pc lead1 lead2 sp extra t1 t2 ind :
  parseTemplateContent lines k (Some base) = Ok pc ->
  pc_nextLine pc = k + 2 ->
  lines !! k = Some (lead1 ++ js "//" ++ sp ++ t1) ->
  lines !! (k + 1) = Some (lead2 ++ js "//" ++ (sp ++ extra) ++ t2) ->
  all_ws lead1 -> all_ws lead2 -> all_ws sp -> all_ws extra ->
  starts_text t1 -> one_line t1 -> starts_text t2 -> one_line t2 ->
  pc_templateIndent pc = Some sp /\
  map finalContent (pc_content pc) = [t1; extra ++ t2] /\
  map (render ind) (pc_content pc) = [ind ++ t1; ind ++ extra ++ t2].
Proof.
  intros Hpc Hnext Hl1 Hl2 Hlead1 Hlead2 Hsp Hextra Ht1 Hone1 Ht2 Hone2.
  unfold parseTemplateContent in Hpc.
  apply bind_Ok in Hpc as ([[craw n] t] & Hloop & [= <-]).
  simpl in Hnext. subst n. simpl.
  pose proof (content_loop_raw_ok _ _ _ _ _ _ _ _ Hloop eq_refl) as Hok.
  apply content_loop_items in Hloop as (ext & Hext & Hmap & Hraw & _).
  simpl in Hext. subst ext.
  replace (k + 2 - k) with 2 in Hmap by lia.
  assert (take 2 (drop k lines)
          = [lead1 ++ js "//" ++ sp ++ t1;
             lead2 ++ js "//" ++ (sp ++ extra) ++ t2]) as Htake.
  { rewrite (drop_S _ _ _ Hl1). cbn [take]. f_equal.
    replace (S k) with (k + 1) by lia. by rewrite (drop_S _ _ _ Hl2). }
  rewrite Htake in Hmap.
  destruct craw as [|i1 [|i2 [|i3 craw]]]; try done.
  injection Hmap as Ho1 Ho2.
  apply Forall_cons in Hraw as [Hr1 [Hr2 _]%Forall_cons].
  destruct (raw_line_body i1 lead1 sp t1 Hr1 Ho1) as (Hs1 & Hc1 & He1);
    [done..|].
  destruct (raw_line_body i2 lead2 (sp ++ extra) t2 Hr2 Ho2)
    as (Hs2 & Hc2 & He2); [done | by apply Forall_app | done | done|].
  simpl in Hok. rewrite He1 in Hok. destruct Hok as [-> _]. rewrite Hs1.
  split; [done|].
  assert (finalContent (apply_indent (Some sp) i1) = t1 /\
          finalContent (apply_indent (Some sp) i2) = extra ++ t2) as [Hf1 Hf2].
  { unfold apply_indent. rewrite He1, He2, Hs1, Hs2, Hc1, Hc2.
    rewrite startsWith_refl, startsWith_app. unfold substring.
    by rewrite drop_all, drop_app_length. }
  split; [simpl; by rewrite Hf1, Hf2|].
  simpl. unfold render. rewrite !apply_indent_isEmpty, He1, He2.
  by rewrite Hf1, Hf2.
Qed.

(** The existing indentation of a span is that of its first line of
    code. *)
Lemma indent_of_first pre ind c post :
  Forall (fun l => is_blank l = true \/ ~ not_comment l) pre ->
  all_ws ind -> starts_text c -> startsWith c (js "//") = false ->
  indent_of (pre ++ (ind ++ c) :: post) = ind.
Proof.
  intros Hpre Hind Hc Hcode. induction Hpre as [|l pre Hl _ IH]; simpl.
  - rewrite (code_line_not_blank ind c Hind Hc Hcode).
    rewrite (code_line_comment ind c Hind Hc Hcode). cbn [negb andb].
    by destruct (code_line_lead ind c Hind Hc Hcode) as [-> _].
  - destruct Hl as [-> | Hl]; [done|].
    unfold not_comment in Hl. apply not_false_is_true in Hl.
    by rewrite Hl, andb_false_r.
Qed.

(** The comments the patcher keeps stand before the first line of code. *)
Lemma kept_of_before base pre code post : forall pres,
  kept_of base (pre ++ code :: post) = Ok pres ->
  not_comment code -> pres `prefix_of` pre.
Proof.
  induction pre as [|l pre IH]; intros pres; simpl.
  - intros H Hcode. rewrite (not_comment_preserved code base Hcode) in H.
    injection H as <-. apply prefix_nil.
  - intros (keep & Hkeep & H)%bind_Ok Hcode. destruct keep.
    + apply bind_Ok in H as (p & Hp & [= <-]).
      apply prefix_cons. by apply IH.
    + injection H as <-. apply prefix_nil.
Qed.

(** C7.  A template body of two lines, with the same white space [sp]
    between [//] and their texts [t1] and [t2] (the second line may be
    indented by [extra] more; for equal indentation [extra] is empty),
    read by the extractor anywhere, that is what a block resolves to.  The
    block is instantiated in any file of the run, at any block of that
    name, whose span holds, after blank lines and comment lines only, a
    first line of code indented by four spaces, whatever follows it.  Then
    the lines generated are ["    "] followed by [t1] and ["    "] followed
    by [extra] and [t2]; they replace the span, after the template
    comments the patcher keeps, which stand before that line of code; and
    the file is written with them.  The text of a body line starts after
    the white space and holds no line terminator. *)
Theorem indentation_round_trip
  (inputs : list (jsstring * jsstring)) (this : Parser)
  (filePath : jsstring) (fd : FileData) (b : BlockData) (info : BlockInfo)
  (bodyLines : list jsstring) (k : nat) (base : jsstring)
  (pc : ParsedContent) (lead1 lead2 sp extra t1 t2 c : jsstring)
  (pre post : list jsstring) :
  parseFiles reset inputs = Ok this ->
  (filePath, fd) ∈ files this -> b ∈ f_blocks fd ->
  blocks this !! b_blockId b = Some info ->
  resolve info = pc_content pc ->
  parseTemplateContent bodyLines k (Some base) = Ok pc ->
  pc_nextLine pc = k + 2 ->
  bodyLines !! k = Some (lead1 ++ js "//" ++ sp ++ t1) ->
  bodyLines !! (k + 1) = Some (lead2 ++ js "//" ++ (sp ++ extra) ++ t2) ->
  all_ws lead1 -> all_ws lead2 -> all_ws sp -> all_ws extra ->
  starts_text t1 -> one_line t1 -> starts_text t2 -> one_line t2 ->
  take (endLine b - (startLine b + 1)) (drop (startLine b + 1) (f_lines fd))
  = pre ++ (js "    " ++ c) :: post ->
  Forall (fun l => is_blank l = true \/ ~ not_comment l) pre ->
  starts_text c -> startsWith c (js "//") = false ->
  find_existingIndent (f_lines fd) (startLine b + 1)
    (endLine b - (startLine b + 1))
  = Ok (js "    ") /\
  generateBlockContent (blocks this) (b_blockId b) (js "    ")
  = [js "    " ++ t1; js "    " ++ extra ++ t2] /\
  exists preserved,
    preserved `prefix_of` pre /\
    replacement (blocks this) b (f_lines fd)
    = Ok (preserved ++ [js "    " ++ t1; js "    " ++ extra ++ t2]) /\
    exists bs1 bs2 rs1 rs2,
      f_blocks fd = bs1 ++ b :: bs2 /\ length rs1 = length bs1 /\
      (filePath,
        join_lines
          (assemble (f_lines fd) 0 (f_blocks fd)
             (rs1 ++ (preserved ++ [js "    " ++ t1; js "    " ++ extra ++ t2])
                :: rs2)))
      ∈ writes (process inputs).
Proof.
  intros Hp Hfd Hb Hinfo Hres Hpc Hnext Hl1 Hl2 Hlead1 Hlead2 Hsp Hextra
    Ht1 Hone1 Ht2 Hone2 Hspan Hpre Hc Hcode.
  destruct (two_line_body bodyLines k base pc lead1 lead2 sp extra t1 t2
              (js "    ") Hpc Hnext Hl1 Hl2) as (_ & _ & Hrender); [done..|].
  assert (generateBlockContent (blocks this) (b_blockId b) (js "    ")
          = [js "    " ++ t1; js "    " ++ extra ++ t2]) as Hgen.
  { unfold generateBlockContent. by rewrite Hinfo, Hres. }
  assert (wf_file fd) as Hwf.
  { assert (Forall (fun e => wf_file e.2) (files this)) as Hall
      by (eapply parseFiles_wf; [|exact Hp]; constructor).
    by apply (proj1 (Forall_forall _ _) Hall) in Hfd. }
  assert (occurrence (f_lines fd) b) as Hocc
    by (by apply (proj1 (Forall_forall _ _) (proj2 Hwf))).
  pose proof (span_length _ _ Hocc) as Hlen.
  destruct (occurrence_bounds _ _ Hocc) as (_ & _ & [bi Hbi]).
  set (n := endLine b - (startLine b + 1)) in *.
  assert (find_existingIndent (f_lines fd) (startLine b + 1) n
          = Ok (js "    ")) as Hind.
  { rewrite (find_existingIndent_span _ n _ _ eq_refl Hlen), Hspan.
    by rewrite indent_of_first by (done || apply all_ws_four). }
  assert (not_comment (js "    " ++ c)) as Hnc
    by (apply code_line_comment; [apply all_ws_four | done..]).
  assert (exists preserved,
             preserved `prefix_of` pre /\
             match b_type b with
             | block_default =>
                 find_preserved (f_lines fd) (b_indent b) (startLine b + 1) n
             | _ => Ok []
             end = Ok preserved) as (preserved & Hprefix & Hkept).
  { destruct (b_type b); try (exists []; split; [apply prefix_nil | done]).
    rewrite (find_preserved_span _ (b_indent b) n _ _ eq_refl Hlen), Hspan, Hbi.
    destruct (kept_of_total bi (pre ++ (js "    " ++ c) :: post)) as [p Hkp].
    exists p. split; [by eapply kept_of_before | done]. }
  assert (replacement (blocks this) b (f_lines fd)
          = Ok (preserved ++ [js "    " ++ t1; js "    " ++ extra ++ t2]))
    as Hrepl.
  { unfold replacement. fold n. rewrite Hind. cbn [mbind result_bind].
    rewrite Hkept. cbn [mbind result_bind]. by rewrite Hgen. }
  split; [exact Hind|]. split; [exact Hgen|].
  exists preserved. split; [exact Hprefix|]. split; [exact Hrepl|].
  destruct (patch_file_spec (blocks this) fd Hwf) as (repls & Hrepls & _).
  apply list_elem_of_split in Hb as (bs1 & bs2 & Hbs).
  rewrite Hbs in Hrepls.
  apply Forall2_app_inv_l in Hrepls as (rs1 & rs' & Hrs1 & Hrs' & ->).
  apply Forall2_cons_inv_l in Hrs' as (r & rs2 & Hr & Hrs2 & ->).
  rewrite Hrepl in Hr. injection Hr as <-.
  exists bs1, bs2, rs1, rs2. split; [exact Hbs|].
  split; [symmetry; by eapply Forall2_length|].
  apply (proj2 (process_writes inputs this Hp)).
  exists fd, (rs1 ++ (preserved ++ [js "    " ++ t1; js "    " ++ extra ++ t2])
                :: rs2).
  split; [exact Hfd|]. split; [rewrite Hbs; by destruct bs1|].
  split; [|done]. rewrite Hbs. apply Forall2_app; [exact Hrs1|].
  by constructor.
Qed.

Lemma indentation_round_trip_witness :
  find_existingIndent (f_lines nested_fd) (startLine nested_block + 1)
    (endLine nested_block - (startLine nested_block + 1))
  = Ok (js "    ") /\
  generateBlockContent (blocks nested_parsed) (b_blockId nested_block)
    (js "    ")
  = [js "    " ++ js "new_deeply_nested();";
     js "    " ++ [] ++ js "another_line();"] /\
  exists preserved,
    preserved `prefix_of` [js "    //     deeply_nested();"] /\
    replacement (blocks nested_parsed) nested_block (f_lines nested_fd)
    = Ok (preserved ++ [js "    " ++ js "new_deeply_nested();";
                        js "    " ++ [] ++ js "another_line();"]) /\
    exists bs1 bs2 rs1 rs2,
      f_blocks nested_fd = bs1 ++ nested_block :: bs2 /\
      length rs1 = length bs1 /\
      (js "test6.c",
        join_lines
          (assemble (f_lines nested_fd) 0 (f_blocks nested_fd)
             (rs1 ++ (preserved ++ [js "    " ++ js "new_deeply_nested();";
                                    js "    " ++ [] ++ js "another_line();"])
                :: rs2)))
      ∈ writes (process [(js "test6.c", nested_input)]).
Proof.
  apply (indentation_round_trip [(js "test6.c", nested_input)] nested_parsed
           (js "test6.c") nested_fd nested_block nested_info
           (split_lines nested_input) 8 (js "// ") nested_body
           [] [] (js "     ") [] (js "new_deeply_nested();")
           (js "another_line();") (js "old_nested();")
           [js "    //     deeply_nested();"] []);
    try (vm_compute; reflexivity);
    vm_compute; by repeat constructor.
Defined.

(** * Idempotence *)






